(** * Pitchside-pro: the video-analysis pipeline of [VideoAnalyst]

    A shallow embedding of the ingestion and analysis code of the
    [VideoAnalyst] component (upload helper, status poller, retry loop,
    response extraction, file selection) together with the properties
    the design document states about it, followed by the smaller handlers
    of the application: the simulated progress, the time links and the
    tactical board of [VideoAnalyst], and the handlers of [ImageEditor],
    [SearchResearch] and [VoiceAgent].

    JavaScript strings are modelled as lists of code units, JavaScript
    numbers that the code only uses as integers (sizes, attempt counters,
    delays, HTTP statuses) as [Z].  Everything the code awaits from the
    outside (fetch responses, the FileReader, the model endpoint) is
    supplied by an explicit environment; every effect the code performs on
    the outside (network requests, timers, console output) is appended to a
    trace, and the React state of the component is threaded through a small
    state-and-exception monad. *)

From Stdlib Require Import String Ascii DecimalString List ZArith Bool Lia.
Import ListNotations.
Local Open Scope Z_scope.
Set Warnings "-notation-for-abbreviation,-register-all".

(** ** Text *)

(** A JavaScript string is a sequence of 16-bit code units. *)
Notation text := (list N).

(** The code unit of a character of the source text. *)
Definition chr (a : ascii) : N := N_of_ascii a.

(** String literals of the source. *)
Definition lit (s : string) : text := map chr (list_ascii_of_string s).

Fixpoint text_eqb (a b : text) : bool :=
  match a, b with
  | [], [] => true
  | x :: a', y :: b' => N.eqb x y && text_eqb a' b'
  | _, _ => false
  end.

(** [t.startsWith(p)] *)
Fixpoint starts_with (p t : text) : bool :=
  match p, t with
  | [], _ => true
  | x :: p', y :: t' => N.eqb x y && starts_with p' t'
  | _ :: _, [] => false
  end.

(** [t.includes(needle)] *)
Fixpoint includes (t needle : text) : bool :=
  starts_with needle t ||
  match t with
  | [] => false
  | _ :: t' => includes t' needle
  end.

(** Decimal rendering of an integer, as a template literal prints it. *)
Definition decimal (z : Z) : text :=
  lit (NilZero.string_of_int (Z.to_int z)).

(** ** JSON values *)

Inductive json : Type :=
| JNull
| JBool (b : bool)
| JNum (mantissa exponent : Z)   (* the decimal value mantissa * 10^exponent *)
| JStr (s : text)
| JArr (items : list json)
| JObj (members : list (text * json)).

(** ** Values thrown by the code and by its collaborators

    The catch clauses only look at [status], [code] and [message], and
    render the value with [JSON.stringify] when it has no message.  A field
    is [None] when the property is absent (or, for [status] and [code], not
    a number).  The values caught are what the awaited calls reject with:
    error objects, whose [message], when present, is a string; a thrown
    value with a message of another type is not modelled. *)

Record jsError : Type := mkError {
  err_status  : option Z;
  err_code    : option Z;
  err_message : option text;
  err_json    : text          (* JSON.stringify of the value *)
}.

(** [new Error(msg)]: no status, no code; an [Error] has no enumerable
    property of its own, so it is stringified as an empty object. *)
Definition Error (msg : text) : jsError :=
  mkError None None (Some msg) (lit "{}").

(** ** Data of the component *)

Record File : Type := mkFile {
  file_name : text;
  file_size : Z;
  file_type : text;
  file_blob_url : text   (* what URL.createObjectURL returns for the file *)
}.

Inductive contentPart : Type :=
| FileData (mimeType fileUri : text)
| InlineData (mimeType : text) (data : option text).

Inductive tab : Type := TabEvents | TabTactics | TabPlayers.

(** The [useState] cells that the handlers below write. *)
Record UiState : Type := mkUi {
  file : option File;
  videoUrl : option text;
  isAnalyzing : bool;
  analysisData : option json;
  error : option text;
  errorDetails : option text;
  rawResponse : text;
  activeTab : tab;
  loadingStage : text;
  retryCount : Z
}.

Definition initialUi : UiState :=
  mkUi None None false None None None [] TabEvents (lit "Initializing...") 0.

(** ** Effects *)

Inductive request : Type :=
| UploadStart (apiKey : text) (f : File)
| UploadBytes (uploadUrl : text) (f : File)
| FileStatus (fileName apiKey : text)
| GenerateContent (part : contentPart).

Inductive event : Type :=
| Net (r : request)
| Slept (ms : Z)
| ReadAsDataURL (f : File)
| ConsoleWarn (label : text) (e : jsError)
| ConsoleError (label : text) (e : jsError).

Record machine : Type := mkMachine {
  ui : UiState;
  trace : list event     (* oldest event first *)
}.

(** How an asynchronous computation ends: it returns, it throws, or it
    stays suspended on a promise that the environment never settles. *)
Inductive result (A : Type) : Type :=
| Returned (a : A)
| Thrown (e : jsError)
| Pending.
Arguments Returned {A} a.
Arguments Thrown {A} e.
Arguments Pending {A}.

Definition M (A : Type) : Type := machine -> result A * machine.

Definition ret {A} (a : A) : M A := fun m => (Returned a, m).

Definition bind {A B} (c : M A) (k : A -> M B) : M B :=
  fun m =>
    match c m with
    | (Returned a, m') => k a m'
    | (Thrown e, m') => (Thrown e, m')
    | (Pending, m') => (Pending, m')
    end.

Definition throw {A} (e : jsError) : M A := fun m => (Thrown e, m).

Definition pending {A} : M A := fun m => (Pending, m).

Definition emit (ev : event) : M unit :=
  fun m => (Returned tt, mkMachine (ui m) (trace m ++ [ev])).

Definition modify (f : UiState -> UiState) : M unit :=
  fun m => (Returned tt, mkMachine (f (ui m)) (trace m)).

Declare Scope js_scope.
Delimit Scope js_scope with js.
Notation "x <- c ;; k" := (bind c (fun x => k))
  (at level 61, c at next level, right associativity) : js_scope.
Notation "c ;; k" := (bind c (fun _ => k))
  (at level 61, right associativity) : js_scope.
Local Open Scope js_scope.

(** [try { body } catch (err) { handler } finally { fin }].  A suspended
    body never reaches its handler or finaliser. *)
Definition tryCatchFinally {A} (body : M A) (handler : jsError -> M A)
    (fin : M unit) : M A :=
  fun m =>
    match body m with
    | (Pending, m') => (Pending, m')
    | (Returned a, m') => (fin ;; ret a) m'
    | (Thrown e, m') =>
        match handler e m' with
        | (Pending, m'') => (Pending, m'')
        | (Returned a, m'') => (fin ;; ret a) m''
        | (Thrown e', m'') => (fin ;; throw e') m''
        end
    end.

(** React state setters. *)
Definition setFile v := modify (fun u =>
  mkUi v (videoUrl u) (isAnalyzing u) (analysisData u) (error u)
       (errorDetails u) (rawResponse u) (activeTab u) (loadingStage u) (retryCount u)).
Definition setVideoUrl v := modify (fun u =>
  mkUi (file u) v (isAnalyzing u) (analysisData u) (error u)
       (errorDetails u) (rawResponse u) (activeTab u) (loadingStage u) (retryCount u)).
Definition setIsAnalyzing v := modify (fun u =>
  mkUi (file u) (videoUrl u) v (analysisData u) (error u)
       (errorDetails u) (rawResponse u) (activeTab u) (loadingStage u) (retryCount u)).
Definition setAnalysisData v := modify (fun u =>
  mkUi (file u) (videoUrl u) (isAnalyzing u) v (error u)
       (errorDetails u) (rawResponse u) (activeTab u) (loadingStage u) (retryCount u)).
Definition setError v := modify (fun u =>
  mkUi (file u) (videoUrl u) (isAnalyzing u) (analysisData u) v
       (errorDetails u) (rawResponse u) (activeTab u) (loadingStage u) (retryCount u)).
Definition setErrorDetails v := modify (fun u =>
  mkUi (file u) (videoUrl u) (isAnalyzing u) (analysisData u) (error u)
       v (rawResponse u) (activeTab u) (loadingStage u) (retryCount u)).
Definition setRawResponse v := modify (fun u =>
  mkUi (file u) (videoUrl u) (isAnalyzing u) (analysisData u) (error u)
       (errorDetails u) v (activeTab u) (loadingStage u) (retryCount u)).
Definition setActiveTab v := modify (fun u =>
  mkUi (file u) (videoUrl u) (isAnalyzing u) (analysisData u) (error u)
       (errorDetails u) (rawResponse u) v (loadingStage u) (retryCount u)).
Definition setLoadingStage v := modify (fun u =>
  mkUi (file u) (videoUrl u) (isAnalyzing u) (analysisData u) (error u)
       (errorDetails u) (rawResponse u) (activeTab u) v (retryCount u)).
Definition setRetryCount v := modify (fun u =>
  mkUi (file u) (videoUrl u) (isAnalyzing u) (analysisData u) (error u)
       (errorDetails u) (rawResponse u) (activeTab u) (loadingStage u) v).

(** [await sleep(ms)] *)
Definition sleep (ms : Z) : M unit := emit (Slept ms).

(** What a promise of the environment settles to. *)
Inductive settled (R : Type) : Type :=
| Rejected (e : jsError)
| Fulfilled (r : R).
Arguments Rejected {R} e.
Arguments Fulfilled {R} r.

(** [await p], where the environment says how [p] settles ([None]: never). *)
Definition await {R} (p : option (settled R)) : M R :=
  match p with
  | None => pending
  | Some (Rejected e) => throw e
  | Some (Fulfilled r) => ret r
  end.

(** Observations on a trace. *)
Definition delays (tr : list event) : list Z :=
  flat_map (fun ev => match ev with Slept ms => [ms] | _ => [] end) tr.

Definition requests (tr : list event) : list request :=
  flat_map (fun ev => match ev with Net r => [r] | _ => [] end) tr.

(** The requests and the waits of a trace, in the order they happened. *)
Definition schedule (tr : list event) : list event :=
  filter (fun ev => match ev with Net _ | Slept _ => true | _ => false end) tr.

(** ** The inference retry loop of [runAnalysis] *)

Definition MAX_RETRIES : Z := 3.

(** [response.text] of a [generateContent] response: absent or a string. *)
Definition genResponse : Type := option text.

(** [response.text || ""] *)
Definition text_or_empty (r : genResponse) : text :=
  match r with
  | Some ((_ :: _) as t) => t
  | _ => []
  end.

(** [x === n] for a property that is a number or absent. *)
Definition strict_eq_num (x : option Z) (n : Z) : bool :=
  match x with
  | Some v => v =? n
  | None => false
  end.

(** [err.message?.includes(needle)], [undefined] counting as false. *)
Definition message_includes (e : jsError) (needle : text) : bool :=
  match err_message e with
  | Some msg => includes msg needle
  | None => false
  end.

Definition isRetryable (err : jsError) : bool :=
  strict_eq_num (err_status err) 503 || strict_eq_num (err_code err) 503 ||
  strict_eq_num (err_status err) 429 || strict_eq_num (err_code err) 429 ||
  message_includes err (lit "overloaded") || message_includes err (lit "fetch").

(** The [if (attempt > 0)] block at the head of each iteration. *)
Definition announceRetry (attempt : Z) : M unit :=
  if 0 <? attempt then
    setLoadingStage (lit "Retrying analysis (Attempt " ++ decimal (attempt + 1)
                       ++ lit "/" ++ decimal MAX_RETRIES ++ lit ")...") ;;
    setRetryCount attempt
  else ret tt.

(** [while (attempt < MAX_RETRIES && !success)].  [outcomes] lists how the
    successive [generateContent] calls settle; each iteration issues one
    call and consumes one outcome.  The loop returns [responseText]. *)
Fixpoint retryLoop (part : contentPart) (outcomes : list (settled genResponse))
    (attempt : Z) : M text :=
  if attempt <? MAX_RETRIES then
    announceRetry attempt ;;
    emit (Net (GenerateContent part)) ;;
    match outcomes with
    | [] => pending
    | Fulfilled response :: _ =>
        (* success = true ends the loop *)
        ret (text_or_empty response)
    | Rejected err :: outcomes' =>
        emit (ConsoleWarn (lit "Attempt " ++ decimal (attempt + 1) ++ lit " failed:") err) ;;
        if isRetryable err && (attempt <? MAX_RETRIES - 1) then
          let attempt := attempt + 1 in
          let delay := 2 ^ attempt * 2000 in
          sleep delay ;;
          retryLoop part outcomes' attempt
        else
          throw err
    end
  else
    (* the loop condition fails with success still false *)
    ret [].

(** Lines 476-519 of [runAnalysis]: the loop, entered with [attempt = 0]. *)
Definition invokeWithRetry (part : contentPart)
    (outcomes : list (settled genResponse)) : M text :=
  retryLoop part outcomes 0.

(** ** [uploadFileToGemini]: the two-step resumable upload *)

(** The response to the session-start POST: [ok], [status], the body as
    [text()] reads it, and the [x-goog-upload-url] header ([None]: absent). *)
Record startResponse : Type := mkStart {
  start_ok : bool;
  start_status : Z;
  start_text : text;
  start_upload_url : option text
}.

(** The response to the byte-transfer PUT; [bytes_file] is how [json()]
    followed by [.file.name] and [.file.uri] ends (rejected when the body
    does not decode or has no [file] member). *)
Record bytesResponse : Type := mkBytes {
  bytes_ok : bool;
  bytes_status : Z;
  bytes_text : text;
  bytes_file : settled (text * text)
}.

Definition uploadFileToGemini (f : File) (apiKey : text)
    (start : option (settled startResponse))
    (transfer : option (settled bytesResponse)) : M (text * text) :=
  (* 1. Start Resumable Upload Session *)
  emit (Net (UploadStart apiKey f)) ;;
  startUpload <- await start ;;
  if negb (start_ok startUpload) then
    throw (Error (lit "Upload init failed (" ++ decimal (start_status startUpload)
                    ++ lit "): " ++ start_text startUpload))
  else
    match start_upload_url startUpload with
    | None | Some [] => throw (Error (lit "No upload URL returned from Google."))
    | Some uploadUrl =>
        (* 2. Upload Bytes *)
        emit (Net (UploadBytes uploadUrl f)) ;;
        uploadBytes <- await transfer ;;
        if negb (bytes_ok uploadBytes) then
          throw (Error (lit "Upload bytes failed (" ++ decimal (bytes_status uploadBytes)
                          ++ lit "): " ++ bytes_text uploadBytes))
        else
          uploadResult <- await (Some (bytes_file uploadBytes)) ;;
          ret uploadResult
    end.

(** ** [getFileState] and the readiness poll *)

(** The [state] member of a decoded status body: a string, or [undefined]
    when the member is missing. *)
Inductive stateValue : Type :=
| SUndefined
| SString (s : text).

(** [fileState === s] for a string literal [s]. *)
Definition state_is (v : stateValue) (s : text) : bool :=
  match v with
  | SString t => text_eqb t s
  | SUndefined => false
  end.

(** [`${fileState}`] *)
Definition render_state (v : stateValue) : text :=
  match v with
  | SString t => t
  | SUndefined => lit "undefined"
  end.

(** The response to a status GET: [ok] and how [json()] followed by
    [.state] ends (rejected when the body does not decode). *)
Record statusResponse : Type := mkStatus {
  status_ok : bool;
  status_state : settled stateValue
}.

Definition getFileState (fileName apiKey : text)
    (reply : option (settled statusResponse)) : M stateValue :=
  emit (Net (FileStatus fileName apiKey)) ;;
  response <- await reply ;;
  if negb (status_ok response) then ret (SString (lit "UNKNOWN"))
  else
    state <- await (Some (status_state response)) ;;
    ret state.

(** [while (fileState === "PROCESSING") { ... }].  [checks] lists how the
    successive status GETs settle; each iteration sleeps, issues one GET
    and consumes one entry.  The loop returns the final [fileState]. *)
Fixpoint pollLoop (fileName apiKey : text) (checks : list (settled statusResponse))
    (fileState : stateValue) : M stateValue :=
  if state_is fileState (lit "PROCESSING") then
    sleep 2000 ;;
    match checks with
    | [] => getFileState fileName apiKey None
    | check :: checks' =>
        fileState <- getFileState fileName apiKey (Some check) ;;
        if state_is fileState (lit "FAILED") then
          throw (Error (lit "Video processing failed on server."))
        else
          pollLoop fileName apiKey checks' fileState
    end
  else ret fileState.

(** Lines 408-415 of [runAnalysis]: the poll loop, started from the assumed
    state ["PROCESSING"], and the check that it ended in ["ACTIVE"]. *)
Definition awaitActive (fileName apiKey : text)
    (checks : list (settled statusResponse)) : M unit :=
  fileState <- pollLoop fileName apiKey checks (SString (lit "PROCESSING")) ;;
  if negb (state_is fileState (lit "ACTIVE")) then
    throw (Error (lit "File state is " ++ render_state fileState))
  else ret tt.

(** A well-formed status reply carrying the given state. *)
Definition statusReply (state : text) : settled statusResponse :=
  Fulfilled (mkStatus true (Fulfilled (SString state))).

(** ** [fileToBase64] *)

(** [t.split(sep)] for a one-character separator. *)
Fixpoint split_on (sep : N) (t : text) : list text :=
  match t with
  | [] => [[]]
  | c :: t' =>
      if N.eqb c sep then [] :: split_on sep t'
      else match split_on sep t' with
           | [] => [[c]]
           | piece :: pieces => (c :: piece) :: pieces
           end
  end.

(** [reader] is how [readAsDataURL] ends: it fires [onerror] (and the
    promise is rejected) or [onloadend] with the data URL as result.  The
    promise resolves to [result.split(',')[1]], which is [undefined] when
    the result has no comma. *)
Definition fileToBase64 (f : File) (reader : option (settled text)) : M (option text) :=
  emit (ReadAsDataURL f) ;;
  result <- await reader ;;
  ret (nth_error (split_on (chr ",") result) 1).

(** ** The environment of one run *)

Record Env : Type := mkEnv {
  env_apiKey : text;                               (* process.env.API_KEY || "" *)
  env_upload_start : option (settled startResponse);
  env_upload_bytes : option (settled bytesResponse);
  env_status_checks : list (settled statusResponse);
  env_data_url : option (settled text);
  env_generations : list (settled genResponse);
  env_gt_zero : json -> bool         (* [x > 0] as the engine decides it *)
}.

(** ** The ingestion strategy of [runAnalysis] (lines 396-422) *)

Definition isLargeFile (f : File) : bool := file_size f >? 20 * 1024 * 1024.

(** The [if (isLargeFile) { ... } else { ... }] that fills [contentPart]. *)
Definition prepareContent (env : Env) (f : File) : M contentPart :=
  if isLargeFile f then
    setLoadingStage (lit "Uploading to Secure Storage...") ;;
    uploaded <- uploadFileToGemini f (env_apiKey env)
                  (env_upload_start env) (env_upload_bytes env) ;;
    let '(fileName, fileUri) := uploaded in
    setLoadingStage (lit "Processing video content...") ;;
    awaitActive fileName (env_apiKey env) (env_status_checks env) ;;
    ret (FileData (file_type f) fileUri)
  else
    setLoadingStage (lit "Encoding video (Inline)...") ;;
    base64Data <- fileToBase64 f (env_data_url env) ;;
    ret (InlineData (file_type f) base64Data).

(** ** Trace discipline

    [emits P c]: whatever the machine it starts from, [c] only appends
    events that satisfy [P] to the trace. *)
Definition emits {A} (P : event -> Prop) (c : M A) : Prop :=
  forall m, exists evs, trace (snd (c m)) = trace m ++ evs /\ Forall P evs.

(** Events of the remote path: network requests and timer waits. *)
Definition remote_event (ev : event) : Prop :=
  match ev with
  | Net (UploadStart _ _) | Net (UploadBytes _ _) | Net (FileStatus _ _) | Slept _ => True
  | _ => False
  end.


(** ** [handleFileChange] *)

Definition MAX_FILE_SIZE_MB : Z := 2000.

(** [(size / 1024 / 1024).toFixed(1)].  Dividing an integer below 2^53 by
    2^20 is exact in double precision, so the value printed is the multiple
    of 0.1 nearest to size / 2^20, the larger one on a tie: n / 10 with
    n = floor ((20 * size + 2^20) / 2^21). *)
Definition megabytes_toFixed1 (size : Z) : text :=
  let n := (20 * size + 1048576) / 2097152 in
  decimal (n / 10) ++ lit "." ++ decimal (n mod 10).

(** [selected] is [event.target.files?.[0]]. *)
Definition handleFileChange (selected : option File) : M unit :=
  match selected with
  | Some selectedFile =>
      if file_size selectedFile >? MAX_FILE_SIZE_MB * 1024 * 1024 then
        setError (Some (lit "File too large ("
                          ++ megabytes_toFixed1 (file_size selectedFile)
                          ++ lit "MB).")) ;;
        setErrorDetails (Some (lit "The limit is " ++ decimal MAX_FILE_SIZE_MB
                                 ++ lit "MB."))
      else
        setFile (Some selectedFile) ;;
        setVideoUrl (Some (file_blob_url selectedFile)) ;;
        setAnalysisData None ;;
        setRawResponse [] ;;
        setError None ;;
        setErrorDetails None
  | None => ret tt
  end.

(** ** [JSON.parse]

    The grammar of ECMA-404, which [JSON.parse] accepts: optional white
    space around one value.  Numbers are kept as the exact decimal value of
    their literal, normalised; the rounding to a double is not modelled.
    Object members are kept in the order of their first appearance, a
    repeated key taking the last value; that an engine lists keys that
    look like array indices first is not modelled. *)

Definition quote : N := 34.
Definition backslash : N := 92.

(** JSON white space: tab, line feed, carriage return, space. *)
Definition is_json_ws (c : N) : bool :=
  N.eqb c 9 || N.eqb c 10 || N.eqb c 13 || N.eqb c 32.

Fixpoint skip_ws (t : text) : text :=
  match t with
  | c :: t' => if is_json_ws c then skip_ws t' else t
  | [] => []
  end.

Definition digit (c : N) : option Z :=
  if N.leb 48 c && N.leb c 57 then Some (Z.of_N (c - 48)) else None.

Definition hex_digit (c : N) : option N :=
  if N.leb 48 c && N.leb c 57 then Some (c - 48)%N
  else if N.leb 65 c && N.leb c 70 then Some (c - 55)%N
  else if N.leb 97 c && N.leb c 102 then Some (c - 87)%N
  else None.

(** The character written by a one-letter escape. *)
Definition unescape (c : N) : option N :=
  if N.eqb c quote then Some quote
  else if N.eqb c backslash then Some backslash
  else if N.eqb c (chr "/") then Some (chr "/")
  else if N.eqb c (chr "b") then Some 8%N
  else if N.eqb c (chr "f") then Some 12%N
  else if N.eqb c (chr "n") then Some 10%N
  else if N.eqb c (chr "r") then Some 13%N
  else if N.eqb c (chr "t") then Some 9%N
  else None.

(** The characters of a string after its opening quote, up to and
    including the closing quote: the decoded string and the text left. *)
Fixpoint parse_string_body (t : text) : option (text * text) :=
  match t with
  | [] => None
  | c :: t1 =>
      if N.eqb c quote then Some ([], t1)
      else if N.eqb c backslash then
        match t1 with
        | [] => None
        | e :: t2 =>
            if N.eqb e (chr "u") then
              match t2 with
              | h1 :: h2 :: h3 :: h4 :: t3 =>
                  match hex_digit h1, hex_digit h2, hex_digit h3, hex_digit h4 with
                  | Some d1, Some d2, Some d3, Some d4 =>
                      match parse_string_body t3 with
                      | Some (s, rest) =>
                          Some ((d1 * 4096 + d2 * 256 + d3 * 16 + d4)%N :: s, rest)
                      | None => None
                      end
                  | _, _, _, _ => None
                  end
              | _ => None
              end
            else
              match unescape e with
              | Some u =>
                  match parse_string_body t2 with
                  | Some (s, rest) => Some (u :: s, rest)
                  | None => None
                  end
              | None => None
              end
        end
      else if N.ltb c 32 then None
      else
        match parse_string_body t1 with
        | Some (s, rest) => Some (c :: s, rest)
        | None => None
        end
  end.

(** A run of decimal digits: its value on top of [acc], how many digits
    were read, and the text left. *)
Fixpoint digits (acc : Z) (count : Z) (t : text) : Z * Z * text :=
  match t with
  | c :: t' =>
      match digit c with
      | Some d => digits (10 * acc + d) (count + 1) t'
      | None => (acc, count, t)
      end
  | [] => (acc, count, t)
  end.

(** Removes the trailing zeros of a mantissa. *)
Fixpoint strip_zeros (fuel : nat) (m e : Z) : Z * Z :=
  match fuel with
  | O => (m, e)
  | S fuel' =>
      if (m mod 10 =? 0) && negb (m =? 0) then strip_zeros fuel' (m / 10) (e + 1)
      else (m, e)
  end.

Definition normalise (m e : Z) : json :=
  if m =? 0 then JNum 0 0
  else let '(m', e') := strip_zeros (Z.to_nat (Z.log2 (Z.abs m))) m e in JNum m' e'.

(** A number: [-]? int frac? exp?, where int has no leading zero. *)

Definition take_sign (t : text) : Z * text :=
  match t with
  | c :: r => if N.eqb c (chr "-") then (-1, r) else (1, t)
  | [] => (1, t)
  end.

(** The integer part: a single 0, or a run of digits that starts with a
    digit from 1 to 9. *)
Definition take_int (t : text) : option (Z * text) :=
  match t with
  | [] => None
  | c :: r =>
      match digit c with
      | None => None
      | Some d =>
          if d =? 0 then Some (0, r)
          else let '(int, _, t1) := digits d 1 r in Some (int, t1)
      end
  end.

(** The optional fraction: the digits are appended to the integer part,
    and counted. *)
Definition take_frac (int : Z) (t : text) : option (Z * Z * text) :=
  match t with
  | p :: r =>
      if N.eqb p (chr ".") then
        let '(m, count, t1) := digits int 0 r in
        if count =? 0 then None else Some (m, count, t1)
      else Some (int, 0, t)
  | [] => Some (int, 0, t)
  end.

Definition take_exp_sign (t : text) : Z * text :=
  match t with
  | s :: r =>
      if N.eqb s (chr "-") then (-1, r)
      else if N.eqb s (chr "+") then (1, r)
      else (1, t)
  | [] => (1, t)
  end.

(** The optional exponent. *)
Definition take_exp (t : text) : option (Z * text) :=
  match t with
  | x :: r =>
      if N.eqb x (chr "e") || N.eqb x (chr "E") then
        let '(esign, r1) := take_exp_sign r in
        let '(ev, ecount, t1) := digits 0 0 r1 in
        if ecount =? 0 then None else Some (esign * ev, t1)
      else Some (0, t)
  | [] => Some (0, t)
  end.

Definition parse_number (t : text) : option (json * text) :=
  let '(sign, t0) := take_sign t in
  match take_int t0 with
  | None => None
  | Some (int, t1) =>
      match take_frac int t1 with
      | None => None
      | Some (m, count, t2) =>
          match take_exp t2 with
          | None => None
          | Some (e, t3) => Some (normalise (sign * m) (e - count), t3)
          end
      end
  end.

(** [members] with key [k] set to [v]. *)
Fixpoint set_member (k : text) (v : json) (members : list (text * json))
  : list (text * json) :=
  match members with
  | [] => [(k, v)]
  | (k', v') :: rest =>
      if text_eqb k' k then (k', v) :: rest else (k', v') :: set_member k v rest
  end.

Inductive parsed (A : Type) : Type :=
| Parsed (a : A)
| SyntaxError
| OutOfFuel.
Arguments Parsed {A} a.
Arguments SyntaxError {A}.
Arguments OutOfFuel {A}.

Definition of_option {A} (o : option A) : parsed A :=
  match o with
  | Some a => Parsed a
  | None => SyntaxError
  end.

(** Recursive descent.  [parse_value] reads one value after optional white
    space; [parse_elements] reads the elements of an array after its
    opening bracket or a comma; [parse_members] reads the members of an
    object after its opening brace or a comma.  Every call spends one unit
    of fuel; [JSON_parse] provides enough of it. *)
Fixpoint parse_value (fuel : nat) (t : text) : parsed (json * text) :=
  match fuel with
  | O => OutOfFuel
  | S fuel' =>
      match skip_ws t with
      | [] => SyntaxError
      | c :: t1 =>
          if N.eqb c (chr "{") then
            match skip_ws t1 with
            | c2 :: t2 =>
                if N.eqb c2 (chr "}") then Parsed (JObj [], t2)
                else parse_members fuel' [] t1
            | [] => SyntaxError
            end
          else if N.eqb c (chr "[") then
            match skip_ws t1 with
            | c2 :: t2 =>
                if N.eqb c2 (chr "]") then Parsed (JArr [], t2)
                else parse_elements fuel' [] t1
            | [] => SyntaxError
            end
          else if N.eqb c quote then
            match parse_string_body t1 with
            | Some (s, rest) => Parsed (JStr s, rest)
            | None => SyntaxError
            end
          else if starts_with (lit "true") (c :: t1) then
            Parsed (JBool true, skipn 4 (c :: t1))
          else if starts_with (lit "false") (c :: t1) then
            Parsed (JBool false, skipn 5 (c :: t1))
          else if starts_with (lit "null") (c :: t1) then
            Parsed (JNull, skipn 4 (c :: t1))
          else of_option (parse_number (c :: t1))
      end
  end

with parse_elements (fuel : nat) (acc : list json) (t : text)
  : parsed (json * text) :=
  match fuel with
  | O => OutOfFuel
  | S fuel' =>
      match parse_value fuel' t with
      | Parsed (v, rest) =>
          match skip_ws rest with
          | c :: rest' =>
              if N.eqb c (chr ",") then parse_elements fuel' (acc ++ [v]) rest'
              else if N.eqb c (chr "]") then Parsed (JArr (acc ++ [v]), rest')
              else SyntaxError
          | [] => SyntaxError
          end
      | SyntaxError => SyntaxError
      | OutOfFuel => OutOfFuel
      end
  end

with parse_members (fuel : nat) (acc : list (text * json)) (t : text)
  : parsed (json * text) :=
  match fuel with
  | O => OutOfFuel
  | S fuel' =>
      match skip_ws t with
      | c :: t1 =>
          if N.eqb c quote then
            match parse_string_body t1 with
            | Some (k, rest) =>
                match skip_ws rest with
                | c2 :: rest2 =>
                    if N.eqb c2 (chr ":") then
                      match parse_value fuel' rest2 with
                      | Parsed (v, rest3) =>
                          match skip_ws rest3 with
                          | c3 :: rest4 =>
                              if N.eqb c3 (chr ",") then
                                parse_members fuel' (set_member k v acc) rest4
                              else if N.eqb c3 (chr "}") then
                                Parsed (JObj (set_member k v acc), rest4)
                              else SyntaxError
                          | [] => SyntaxError
                          end
                      | SyntaxError => SyntaxError
                      | OutOfFuel => OutOfFuel
                      end
                    else SyntaxError
                | [] => SyntaxError
                end
            | None => SyntaxError
            end
          else SyntaxError
      | [] => SyntaxError
      end
  end.

(** [JSON.parse(t)]; [None] when it throws a [SyntaxError]. *)
Definition JSON_parse (t : text) : option json :=
  match parse_value (2 * length t + 1) t with
  | Parsed (v, rest) =>
      match skip_ws rest with
      | [] => Some v
      | _ :: _ => None
      end
  | _ => None
  end.

(** JSON texts are written below with an apostrophe for the double quote. *)
Definition json_lit (s : string) : text :=
  map (fun c => if N.eqb c (chr "'") then quote else c) (lit s).

(** ** Regular expressions

    The fragment of the regular-expression language that the pattern of
    [tryParseJSON] uses, with the backtracking semantics of ECMAScript:
    a matcher takes the text left and a continuation, and the alternatives
    of a quantifier are tried in priority order until the continuation
    succeeds. *)

Inductive regex : Type :=
| RLit (s : text)                          (* literal characters *)
| RStar (greedy : bool) (cls : N -> bool)  (* c* and c*? for a character class *)
| ROpt (r : regex)                         (* (?:r)? *)
| RGroup (r : regex)                       (* (r), the capture group *)
| RSeq (r1 r2 : regex).

Fixpoint star {X} (greedy : bool) (cls : N -> bool) (t : text)
    (k : text -> option X) : option X :=
  match t with
  | c :: t' =>
      if cls c then
        if greedy then
          match star greedy cls t' k with
          | Some x => Some x
          | None => k t
          end
        else
          match k t with
          | Some x => Some x
          | None => star greedy cls t' k
          end
      else k t
  | [] => k t
  end.

(** [cap] is the text captured by the group so far, if any. *)
Fixpoint rmatch {X} (r : regex) (t : text) (cap : option text)
    (k : text -> option text -> option X) : option X :=
  match r with
  | RLit s => if starts_with s t then k (skipn (length s) t) cap else None
  | RStar greedy cls => star greedy cls t (fun t' => k t' cap)
  | ROpt r' =>
      match rmatch r' t cap k with
      | Some x => Some x
      | None => k t cap
      end
  | RGroup r' =>
      rmatch r' t cap (fun t' _ => k t' (Some (firstn (length t - length t') t)))
  | RSeq r1 r2 => rmatch r1 t cap (fun t' cap' => rmatch r2 t' cap' k)
  end.

(** [t.match(r)] for a pattern without flags: the leftmost match; the
    result is the capture group of that match. *)
Fixpoint regex_match (r : regex) (t : text) : option (option text) :=
  match rmatch r t None (fun _ cap => Some cap) with
  | Some cap => Some cap
  | None =>
      match t with
      | [] => None
      | _ :: t' => regex_match r t'
      end
  end.

(** [\s]: white space and line terminators. *)
Definition is_space (c : N) : bool :=
  N.eqb c 9 || N.eqb c 10 || N.eqb c 11 || N.eqb c 12 || N.eqb c 13 ||
  N.eqb c 32 || N.eqb c 160 || N.eqb c 5760 ||
  (N.leb 8192 c && N.leb c 8202) ||
  N.eqb c 8232 || N.eqb c 8233 || N.eqb c 8239 || N.eqb c 8287 ||
  N.eqb c 12288 || N.eqb c 65279.

(** [[\s\S]] *)
Definition any_char (c : N) : bool := true.

(** [/```(?:json)?\s*([\s\S]*?)\s*```/] *)
Definition fence_pattern : regex :=
  RSeq (RLit (lit "```"))
    (RSeq (ROpt (RLit (lit "json")))
       (RSeq (RStar true is_space)
          (RSeq (RGroup (RStar false any_char))
             (RSeq (RStar true is_space) (RLit (lit "```")))))).

(** ** String positions *)

(** [t.indexOf(c)] for a one-character string; -1 when absent. *)
Fixpoint indexOf (c : N) (t : text) : Z :=
  match t with
  | [] => -1
  | x :: t' =>
      if N.eqb x c then 0
      else let i := indexOf c t' in if i =? -1 then -1 else i + 1
  end.

(** [t.lastIndexOf(c)] *)
Fixpoint lastIndexOf (c : N) (t : text) : Z :=
  match t with
  | [] => -1
  | x :: t' =>
      let i := lastIndexOf c t' in
      if i =? -1 then (if N.eqb x c then 0 else -1) else i + 1
  end.

(** [t.substring(a, b)]: both positions are clamped to the string, and
    swapped when the first is the larger. *)
Definition substring (t : text) (a b : Z) : text :=
  let len := Z.of_nat (length t) in
  let a' := Z.min (Z.max a 0) len in
  let b' := Z.min (Z.max b 0) len in
  let lo := Z.min a' b' in
  let hi := Z.max a' b' in
  firstn (Z.to_nat (hi - lo)) (skipn (Z.to_nat lo) t).

(** ** [tryParseJSON] *)

(** [try { return JSON.parse(t); } catch (e) {}]: the value returned, or
    [None] when control falls through. *)
Definition try_parse (t : text) : option json := JSON_parse t.

Definition tryParseJSON (t : text) : result json :=
  match try_parse t with
  | Some v => Returned v
  | None =>
      (* Strip markdown code blocks *)
      let markdownMatch := regex_match fence_pattern t in
      match
        match markdownMatch with
        | Some (Some inner) => try_parse inner
        | _ => None
        end
      with
      | Some v => Returned v
      | None =>
          (* Find generic JSON-like structure *)
          let firstOpenBrace := indexOf (chr "{") t in
          let lastCloseBrace := lastIndexOf (chr "}") t in
          match
            if negb (firstOpenBrace =? -1) && negb (lastCloseBrace =? -1)
            then try_parse (substring t firstOpenBrace (lastCloseBrace + 1))
            else None
          with
          | Some v => Returned v
          | None => Thrown (Error (lit "Could not parse JSON from response."))
          end
      end
  end.

(** ** [runAnalysis] *)

Definition get_ui : M UiState := fun m => (Returned (ui m), m).

(** A pure computation that returns or throws, run inside the monad. *)
Definition lift {A} (r : result A) : M A := fun m => (r, m).

(** [err.message || JSON.stringify(err)] *)
Definition message_or_json (err : jsError) : text :=
  match err_message err with
  | Some ((_ :: _) as msg) => msg
  | _ => err_json err
  end.

(** [members[k]] *)
Fixpoint lookup (k : text) (members : list (text * json)) : option json :=
  match members with
  | [] => None
  | (k', v) :: rest => if text_eqb k' k then Some v else lookup k rest
  end.

(** [json[k]?.length > 0] for a parsed value [json] that is not [null].
    Only objects have such a member; of its value, an array and a string
    have a length.  When that value is itself an object with a [length]
    member, [gt_zero] (the environment's [env_gt_zero]) says how the engine
    compares the member with 0. *)
Definition has_items (gt_zero : json -> bool) (v : json) (k : text) : bool :=
  match v with
  | JObj members =>
      match lookup k members with
      | Some (JArr items) => 0 <? Z.of_nat (length items)
      | Some (JStr s) => 0 <? Z.of_nat (length s)
      | Some (JObj inner) =>
          match lookup (lit "length") inner with
          | Some n => gt_zero n
          | None => false
          end
      | _ => false
      end
  | _ => false
  end.

(** Lines 527-528.  Reading a member of [null] throws a [TypeError]. *)
Definition selectTab (gt_zero : json -> bool) (v : json) : M unit :=
  match v with
  | JNull =>
      throw (mkError None None
               (Some (lit "Cannot read properties of null (reading 'player_analysis')"))
               (lit "{}"))
  | _ =>
      if has_items gt_zero v (lit "player_analysis") then setActiveTab TabPlayers
      else if has_items gt_zero v (lit "tactical_insights") then setActiveTab TabTactics
      else ret tt
  end.

(** The body of the [try] block after the content part is ready: the
    inference call with its retries, then extraction (lines 476-528). *)
Definition analyse (env : Env) (part : contentPart) : M unit :=
  responseText <- invokeWithRetry part (env_generations env) ;;
  setRawResponse responseText ;;
  match responseText with
  | [] => throw (Error (lit "Empty response from AI."))
  | _ :: _ =>
      parsed <- lift (tryParseJSON responseText) ;;
      setAnalysisData (Some parsed) ;;
      selectTab (env_gt_zero env) parsed
  end.

(** Lines 385-391: the state of the previous run is cleared. *)
Definition resetRun : M unit :=
  setIsAnalyzing true ;;
  setError None ;;
  setErrorDetails None ;;
  setRawResponse [] ;;
  setAnalysisData None ;;
  setRetryCount 0 ;;
  setLoadingStage (lit "Preparing video...").

(** The [catch] clause of [runAnalysis]. *)
Definition reportFailure (err : jsError) : M unit :=
  emit (ConsoleError (lit "Analysis Error") err) ;;
  setError (Some (lit "Analysis Failed")) ;;
  setErrorDetails (Some (message_or_json err)).

Definition runAnalysis (env : Env) : M unit :=
  u <- get_ui ;;
  match file u with
  | None => ret tt
  | Some f =>
      match env_apiKey env with
      | [] =>
          setError (Some (lit "API Key Missing")) ;;
          setErrorDetails (Some (lit "process.env.API_KEY is not set."))
      | _ :: _ =>
          resetRun ;;
          tryCatchFinally
            (contentPart <- prepareContent env f ;;
             setLoadingStage (lit "Analyzing movements & structure...") ;;
             analyse env contentPart)
            reportFailure
            (setIsAnalyzing false)
      end
  end.

(** ** The states the component can be in

    The component starts from [initialUi]; afterwards the user selects
    files and starts runs, in any order and against any environment. *)
Inductive reachable : machine -> Prop :=
| reach_initial : reachable (mkMachine initialUi [])
| reach_select m selected :
    reachable m -> reachable (snd (handleFileChange selected m))
| reach_run m env :
    reachable m -> reachable (snd (runAnalysis env m)).

(** [preserves proj c]: [c] leaves the part [proj] of the React state as
    it found it. *)
Definition preserves {A B} (proj : UiState -> B) (c : M A) : Prop :=
  forall m, proj (ui (snd (c m))) = proj (ui m).

(** ** Sample data: the scenarios of the design document *)

Definition clip (mebibytes : Z) : File :=
  mkFile (lit "match.mp4") (mebibytes * 1024 * 1024) (lit "video/mp4")
         (lit "blob:match").

(** A 50 MB upload that is processed after one more poll, and a model
    that answers at once with a clean document. *)
Definition sampleEnv : Env :=
  mkEnv (lit "key")
    (Some (Fulfilled (mkStart true 200 [] (Some (lit "https://upload/session")))))
    (Some (Fulfilled (mkBytes true 200 []
                        (Fulfilled (lit "files/abc", lit "https://files/abc")))))
    [statusReply (lit "PROCESSING"); statusReply (lit "ACTIVE")]
    (Some (Fulfilled (lit "data:video/mp4;base64,AAAA")))
    [Fulfilled (Some (json_lit "{'match_context':'Unknown','player_analysis':[{'player':'No. 9'}]}"))]
    (fun _ => false).


(** ** The simulated progress (the first effect of [VideoAnalyst])

    The [progress] cell only ever holds 0, 100 and what the interval
    callback makes of them by adding 2.5, 1.5 or 0.5 and capping at 90:
    multiples of 0.5 far below 2^53, on which double-precision addition
    and comparison are exact.  Progress is therefore kept here as its
    double, a whole number of half percents: 5, 3 and 1 are the
    increments, 60, 120 and 180 stand for 30, 60 and 90 percent. *)

(** The updater passed to [setProgress] by the interval callback. *)
Definition progressTick (retryCount : Z) (prev : Z) : Z :=
  if retryCount >? 0 then 180
  else if prev >=? 180 then 180
  else
    let increment := if prev <? 60 then 5 else if prev <? 120 then 3 else 1 in
    Z.min (prev + increment) 180.

(** The effect, run for the given [isAnalyzing] and [retryCount]: the
    progress after it started and the interval fired [ticks] times (every
    400 ms).  It runs again whenever one of the two changes. *)
Fixpoint progressEffect (isAnalyzing : bool) (retryCount : Z) (ticks : nat) : Z :=
  if isAnalyzing then
    match ticks with
    | O => 0
    | S n => progressTick retryCount (progressEffect isAnalyzing retryCount n)
    end
  else 200.

(** ** The time links of the player cards (lines 863-872)

    [parseInt(s)] without a radix (ECMA-262, 19.2.5): leading white space
    is skipped, one sign is read, a prefix 0x or 0X selects radix 16, and
    the longest prefix of digits of the radix is the value; without a
    digit the result is NaN.  The value is kept as the exact integer: this
    is the number the engine returns as long as it stays below 2^53 in
    magnitude, and so are the products and sums below. *)

Inductive number : Type :=
  | NaN
  | Finite (z : Z).

Fixpoint trim_start (t : text) : text :=
  match t with
  | c :: t' => if is_space c then trim_start t' else t
  | [] => []
  end.

Definition digit_of (radix : Z) (c : N) : option Z :=
  match hex_digit c with
  | Some d => if Z.of_N d <? radix then Some (Z.of_N d) else None
  | None => None
  end.

(** The value of the longest prefix of digits, [acc] being the value of
    the digits read so far. *)
Fixpoint digits_value (radix : Z) (acc : option Z) (t : text) : option Z :=
  match t with
  | c :: t' =>
      match digit_of radix c with
      | Some d =>
          digits_value radix
            (Some (match acc with Some a => a * radix + d | None => d end)) t'
      | None => acc
      end
  | [] => acc
  end.

Definition parseInt (s : text) : number :=
  let s1 := trim_start s in
  let '(sign, s2) :=
    match s1 with
    | c :: t =>
        if N.eqb c (chr "-") then (-1, t)
        else if N.eqb c (chr "+") then (1, t)
        else (1, s1)
    | [] => (1, s1)
    end in
  let '(radix, s3) :=
    match s2 with
    | z :: x :: t =>
        if N.eqb z (chr "0") && (N.eqb x (chr "x") || N.eqb x (chr "X"))
        then (16, t) else (10, s2)
    | _ => (10, s2)
    end in
  match digits_value radix None s3 with
  | Some v => Finite (sign * v)
  | None => NaN
  end.

Definition times (a : number) (k : Z) : number :=
  match a with
  | Finite z => Finite (z * k)
  | NaN => NaN
  end.

Definition plus (a b : number) : number :=
  match a, b with
  | Finite x, Finite y => Finite (x + y)
  | _, _ => NaN
  end.

(** The click handler of a time link: the seconds it passes to
    [jumpToTime], or [None] when it does not call it. *)
Definition timeStartClick (time_start : text) : option number :=
  let parts := split_on (chr ":") time_start in
  if (length parts =? 2)%nat then
    Some (plus (times (parseInt (nth 0 parts [])) 60) (parseInt (nth 1 parts [])))
  else None.

(** ** [InsightCard]: the generated tactical board (lines 116-163) *)

(** How the handlers of the other components end. *)
Definition completion : Type := result unit.

(** [response.candidates?.[0]?.content?.parts] of an image response:
    [None] when the chain is undefined, else the parts, each given by its
    [inlineData.data] ([None] for a part without [inlineData] or without
    [data], for instance a text part). *)
Definition imageResponse : Type := option (list (option text)).

Module InsightCard.

(** The fields of the insight that the card's handlers read. *)
Record TacticalInsight : Type := mkInsight {
  drill_setup : option text;
  visual_cue : text
}.

Record CardState : Type := mkCard {
  frameImage : option text;
  generatedDiagram : option text;
  isGeneratingDiagram : bool
}.

Definition setGeneratedDiagram (v : option text) (st : CardState) : CardState :=
  mkCard (frameImage st) v (isGeneratingDiagram st).

Definition setIsGeneratingDiagram (v : bool) (st : CardState) : CardState :=
  mkCard (frameImage st) (generatedDiagram st) v.

Inductive cardEvent : Type :=
| ImageRequested (scenario : text)  (* generateContent; the prompt is a fixed text around the scenario *)
| ErrorLogged (e : jsError).

(** [insight.drill_setup || insight.visual_cue] *)
Definition scenario (insight : TacticalInsight) : text :=
  match drill_setup insight with
  | Some ((_ :: _) as setup) => setup
  | _ => visual_cue insight
  end.

(** The loop over the parts, left at the first part with data. *)
Fixpoint scanParts (parts : list (option text)) (st : CardState) : CardState :=
  match parts with
  | [] => st
  | part :: rest =>
      match part with
      | Some ((_ :: _) as data) =>
          setGeneratedDiagram (Some (lit "data:image/png;base64," ++ data)) st
      | _ => scanParts rest st
      end
  end.

(** [generation] is how the [generateContent] call ends. *)
Definition generateTacticalBoard (apiKey : text) (insight : TacticalInsight)
    (generation : option (settled imageResponse)) (st : CardState)
  : completion * CardState * list cardEvent :=
  match apiKey with
  | [] => (Returned tt, st, [])
  | _ :: _ =>
      let st1 := setIsGeneratingDiagram true st in
      let sent := [ImageRequested (scenario insight)] in
      match generation with
      | None => (Pending, st1, sent)
      | Some (Fulfilled response) =>
          let st2 := match response with
                     | Some parts => scanParts parts st1
                     | None => st1
                     end in
          (Returned tt, setIsGeneratingDiagram false st2, sent)
      | Some (Rejected e) =>
          (Returned tt, setIsGeneratingDiagram false st1, sent ++ [ErrorLogged e])
      end
  end.

End InsightCard.

(** ** [ImageEditor] (second component of part_001) *)

Module ImageEditor.

Record EditorState : Type := mkEditor {
  originalImage : option text;
  originalFile : option File;
  generatedImage : option text;
  prompt : text;
  isGenerating : bool;
  error : option text
}.

Definition setGeneratedImage (v : option text) (st : EditorState) : EditorState :=
  mkEditor (originalImage st) (originalFile st) v (prompt st) (isGenerating st) (error st).

Definition setIsGenerating (v : bool) (st : EditorState) : EditorState :=
  mkEditor (originalImage st) (originalFile st) (generatedImage st) (prompt st) v (error st).

Definition setError (v : option text) (st : EditorState) : EditorState :=
  mkEditor (originalImage st) (originalFile st) (generatedImage st) (prompt st)
           (isGenerating st) v.

Inductive editorEvent : Type :=
| FileRead (f : File)
| EditRequested (mimeType : text) (data : option text) (prompt : text)
| ErrorLogged (e : jsError).

(** [handleImageUpload], given [e.target.files?.[0]] and the URL that
    [URL.createObjectURL] makes for it. *)
Definition handleImageUpload (file : option File) (st : EditorState) : EditorState :=
  match file with
  | Some f =>
      mkEditor (Some (file_blob_url f)) (Some f) None (prompt st) (isGenerating st) None
  | None => st
  end.

(** The loop over the parts: the state and [foundImage] after it. *)
Fixpoint scanParts (parts : list (option text)) (st : EditorState) : EditorState * bool :=
  match parts with
  | [] => (st, false)
  | part :: rest =>
      match part with
      | Some ((_ :: _) as data) =>
          (setGeneratedImage (Some (lit "data:image/png;base64," ++ data)) st, true)
      | _ => scanParts rest st
      end
  end.

(** [err.message || "Failed to generate image."] *)
Definition message_or_default (err : jsError) : text :=
  match err_message err with
  | Some ((_ :: _) as msg) => msg
  | _ => lit "Failed to generate image."
  end.

Definition noImage : jsError :=
  Error (lit "No image generated. The model might have refused the request or returned only text.").

(** [reader] is how the FileReader of [fileToBase64] ends, [generation]
    how the [generateContent] call ends. *)
Definition handleGenerate (reader : option (settled text))
    (generation : option (settled imageResponse)) (st : EditorState)
  : completion * EditorState * list editorEvent :=
  match originalFile st, prompt st with
  | Some file, _ :: _ =>
      let st1 := setError None (setIsGenerating true st) in
      let caught err st' evs :=
        (Returned tt,
         setIsGenerating false (setError (Some (message_or_default err)) st'),
         evs ++ [ErrorLogged err]) in
      match reader with
      | None => (Pending, st1, [FileRead file])
      | Some (Rejected e) => caught e st1 [FileRead file]
      | Some (Fulfilled dataUrl) =>
          let base64Data := nth_error (split_on (chr ",") dataUrl) 1 in
          let evs := [FileRead file; EditRequested (file_type file) base64Data (prompt st)] in
          match generation with
          | None => (Pending, st1, evs)
          | Some (Rejected e) => caught e st1 evs
          | Some (Fulfilled response) =>
              let '(st2, foundImage) :=
                match response with
                | Some parts => scanParts parts st1
                | None => (st1, false)
                end in
              if foundImage then (Returned tt, setIsGenerating false st2, evs)
              else caught noImage st2 evs
          end
      end
  | _, _ => (Returned tt, st, [])
  end.

Definition setPrompt (v : text) (st : EditorState) : EditorState :=
  mkEditor (originalImage st) (originalFile st) (generatedImage st) v
           (isGenerating st) (error st).

(** The states of the editor: it starts empty, and the user picks images,
    types prompts and presses Generate. *)
Inductive reachable : EditorState -> Prop :=
| reach_initial : reachable (mkEditor None None None [] false None)
| reach_upload st file :
    reachable st -> reachable (handleImageUpload file st)
| reach_prompt st v :
    reachable st -> reachable (setPrompt v st)
| reach_generate st reader generation :
    reachable st -> reachable (snd (fst (handleGenerate reader generation st))).

End ImageEditor.

(** ** [SearchResearch] (part_002) *)

Module SearchResearch.

Record GroundingChunk : Type := mkChunk {
  web : option (option text * option text)   (* uri and title *)
}.

Record SearchState : Type := mkSearch {
  query : text;
  result : option text;
  sources : list GroundingChunk;
  isLoading : bool
}.

(** What the handler reads of a response: [response.text] and
    [response.candidates?.[0]?.groundingMetadata?.groundingChunks]. *)
Record searchResponse : Type := mkResponse {
  response_text : option text;
  groundingChunks : option (list GroundingChunk)
}.

(** How the [generateContent] call ends.  A rejection is given by what
    string concatenation makes of the [message] of the thrown value
    ("undefined" when it has none). *)
Inductive searchOutcome : Type :=
| Failed (message : text)
| Answered (response : searchResponse).

Inductive searchEvent : Type :=
| SearchRequested (contents : text)
| ErrorLogged (message : text).

(** [s.trim()] *)
Definition trim (s : text) : text := rev (trim_start (rev (trim_start s))).

Definition handleSearch (generation : option searchOutcome) (st : SearchState)
  : completion * SearchState * list searchEvent :=
  match trim (query st) with
  | [] => (Returned tt, st, [])
  | _ :: _ =>
      let st1 := mkSearch (query st) None [] true in
      let sent := [SearchRequested (query st)] in
      let finally st' := mkSearch (query st') (result st') (sources st') false in
      match generation with
      | None => (Pending, st1, sent)
      | Some (Answered response) =>
          let shown := match response_text response with
                       | Some ((_ :: _) as t) => t
                       | _ => lit "No response generated."
                       end in
          let chunks := match groundingChunks response with
                        | Some cs => cs
                        | None => []
                        end in
          (Returned tt, finally (mkSearch (query st1) (Some shown) chunks (isLoading st1)), sent)
      | Some (Failed message) =>
          let shown := lit "Error performing search: " ++ message in
          (Returned tt,
           finally (mkSearch (query st1) (Some shown) (sources st1) (isLoading st1)),
           sent ++ [ErrorLogged message])
      end
  end.

End SearchResearch.

(** ** [VoiceAgent]: ending a session (part_001, lines 20-40 and 117-125)

    The four refs hold an object or null; an object is given by a number
    that identifies it.  The volume is a double: its type is left open and
    [zero] stands for 0. *)

Module VoiceAgent.

Record VoiceState (number : Type) : Type := mkVoice {
  isActive : bool;
  status : text;
  volume : number;
  audioContextRef : option N;
  inputNodeRef : option N;
  sourceNodeRef : option N;
  sessionRef : option N
}.
Arguments mkVoice {number}.
Arguments isActive {number}.
Arguments status {number}.
Arguments volume {number}.
Arguments audioContextRef {number}.
Arguments inputNodeRef {number}.
Arguments sourceNodeRef {number}.
Arguments sessionRef {number}.

Inductive voiceEvent : Type :=
| SessionClosed (session : N)
| NodeDisconnected (node : N)
| ContextClosed (context : N)
| ErrorLogged.

(** [if (ref.current) { release; ref.current = null }]: the events of one
    such statement. *)
Definition release (held : option N) (how : N -> voiceEvent) : list voiceEvent :=
  match held with
  | Some object => [how object]
  | None => []
  end.

Definition stopSession {number} (zero : number) (st : VoiceState number)
  : VoiceState number * list voiceEvent :=
  let evs :=
    release (sessionRef st) SessionClosed ++
    release (inputNodeRef st) NodeDisconnected ++
    release (sourceNodeRef st) NodeDisconnected ++
    release (audioContextRef st) ContextClosed in
  (mkVoice false (lit "Disconnected") zero None None None None, evs).

Definition setStatus {number} (v : text) (st : VoiceState number) : VoiceState number :=
  mkVoice (isActive st) v (volume st) (audioContextRef st) (inputNodeRef st)
          (sourceNodeRef st) (sessionRef st).

Definition setIsActive {number} (v : bool) (st : VoiceState number) : VoiceState number :=
  mkVoice v (status st) (volume st) (audioContextRef st) (inputNodeRef st)
          (sourceNodeRef st) (sessionRef st).

(** The [onclose] and [onerror] callbacks of the live connection. *)
Definition onclose {number} (st : VoiceState number) : VoiceState number * list voiceEvent :=
  (setIsActive false (setStatus (lit "Disconnected") st), []).

Definition onerror {number} (zero : number) (st : VoiceState number)
  : VoiceState number * list voiceEvent :=
  let '(st', evs) := stopSession zero (setStatus (lit "Error occurred") st) in
  (st', ErrorLogged :: evs).

End VoiceAgent.

(** Events of a run on a file that goes inline: the FileReader, inference
    calls that carry the data inline, their back-off waits and the console. *)
Definition inline_event (ev : event) : Prop :=
  match ev with
  | ReadAsDataURL _ | Net (GenerateContent (InlineData _ _)) | Slept _
  | ConsoleWarn _ _ | ConsoleError _ _ => True
  | _ => False
  end.

(** Events of a run on a file that goes through the File API: uploads,
    status checks, inference calls that refer to the uploaded file, waits
    and the console. *)
Definition file_api_event (ev : event) : Prop :=
  match ev with
  | Net (UploadStart _ _) | Net (UploadBytes _ _) | Net (FileStatus _ _)
  | Net (GenerateContent (FileData _ _)) | Slept _
  | ConsoleWarn _ _ | ConsoleError _ _ => True
  | _ => False
  end.

(** ** Serialisation (the [serialize] of the design document)

    The code has no serialiser; this one stands for the one of the
    round-trip property.

    Compact JSON text: no white space, members in their order, strings
    with the escapes that JSON requires (the quote, the backslash, and
    control characters as \u00XX), numbers as the digits of the mantissa
    followed, when the exponent is not 0, by e and the exponent. *)

Definition digit_char (d : Z) : N := Z.to_N (48 + d).

Fixpoint nat_digits (fuel : nat) (n : Z) : text :=
  match fuel with
  | O => [digit_char n]
  | S fuel' =>
      if n <? 10 then [digit_char n]
      else nat_digits fuel' (n / 10) ++ [digit_char (n mod 10)]
  end.

(** The decimal digits of a natural number. *)
Definition nat_text (n : Z) : text := nat_digits (Z.to_nat (Z.log2 n)) n.

Definition number_text (m e : Z) : text :=
  (if m <? 0 then [chr "-"] else []) ++ nat_text (Z.abs m) ++
  (if e =? 0 then []
   else chr "e" :: (if e <? 0 then [chr "-"] else []) ++ nat_text (Z.abs e)).

Definition hex_char (k : N) : N := if N.ltb k 10 then (48 + k)%N else (87 + k)%N.

Definition escape (c : N) : text :=
  if N.eqb c quote then [backslash; quote]
  else if N.eqb c backslash then [backslash; backslash]
  else if N.ltb c 32 then
    [backslash; chr "u"; chr "0"; chr "0"; hex_char (c / 16); hex_char (c mod 16)]
  else [c].

Definition string_text (s : text) : text := quote :: concat (map escape s) ++ [quote].

(** The parts, with [sep] between them. *)
Fixpoint sep_join (sep : N) (parts : list text) : text :=
  match parts with
  | [] => []
  | part :: rest =>
      match rest with
      | [] => part
      | _ :: _ => part ++ sep :: sep_join sep rest
      end
  end.

Fixpoint serialize (v : json) : text :=
  match v with
  | JNull => lit "null"
  | JBool true => lit "true"
  | JBool false => lit "false"
  | JNum m e => number_text m e
  | JStr s => string_text s
  | JArr items => chr "[" :: sep_join (chr ",") (map serialize items) ++ [chr "]"]
  | JObj members =>
      chr "{" :: sep_join (chr ",")
                   (map (fun member =>
                           string_text (fst member) ++ chr ":" :: serialize (snd member))
                        members)
              ++ [chr "}"]
  end.

(** The documents: the values that [JSON.parse] can return.  Numbers are
    in normal form (no trailing zero in the mantissa, zero written 0e0) and
    the keys of an object are distinct. *)
Inductive document : json -> Prop :=
| doc_null : document JNull
| doc_bool b : document (JBool b)
| doc_num m e :
    (m = 0 -> e = 0) -> (m <> 0 -> m mod 10 <> 0) -> document (JNum m e)
| doc_str s : document (JStr s)
| doc_arr items : Forall document items -> document (JArr items)
| doc_obj members :
    NoDup (map fst members) -> Forall (fun member => document (snd member)) members ->
    document (JObj members).

(** ** Auxiliary notions for the proofs *)

(** The server lets an upload through: it grants the session and names a
    non-empty upload URL, accepts the bytes and answers with the name and
    the URI of the file, and then reports the file as PROCESSING [n] times
    before it reports it ACTIVE. *)
Definition upload_goes_through (env : Env) (uploadUrl fileName fileUri : text)
    (n : nat) : Prop :=
  exists s b rest,
    env_upload_start env = Some (Fulfilled s) /\
    start_ok s = true /\
    start_upload_url s = Some uploadUrl /\ uploadUrl <> [] /\
    env_upload_bytes env = Some (Fulfilled b) /\
    bytes_ok b = true /\
    bytes_file b = Fulfilled (fileName, fileUri) /\
    env_status_checks env =
      repeat (statusReply (lit "PROCESSING")) n ++ statusReply (lit "ACTIVE") :: rest.

(** A part of an image response that the scans pass over: no data, or
    empty data. *)
Definition no_data (part : option text) : Prop := part = None \/ part = Some [].

(** The text of a list of decimal digits, and the number it denotes. *)
Definition numeral (ds : list Z) : text := map (fun d => Z.to_N (48 + d)) ds.

Definition denotes (ds : list Z) : Z := fold_left (fun a d => a * 10 + d) ds 0.

Definition decimal_digit (d : Z) : Prop := 0 <= d <= 9.

(** [u] is a contiguous piece of [t]. *)
Definition piece (u t : text) : Prop := exists a b, t = a ++ u ++ b.

(** A parse that had enough fuel: it did not run out, and what it accepted
    was not empty. *)
Definition consumed (p : parsed (json * text)) (t : text) : Prop :=
  match p with
  | Parsed (_, r) => (length r < length t)%nat
  | SyntaxError => True
  | OutOfFuel => False
  end.

(** The part of [fence_pattern] after the optional tag, as the matcher
    runs it: white space, the lazy capture, white space, the closing
    fence. *)
Definition closing_fence {X} (x : X) (t : text) : option X :=
  star true is_space t (fun t' => if starts_with (lit "```") t' then Some x else None).

Definition after_tag (t : text) : option (option text) :=
  star true is_space t (fun body =>
    star false any_char body (fun t' =>
      closing_fence (Some (firstn (length body - length t') body)) t')).

(** A character that would continue a number. *)
Definition continues_number (c : N) : bool :=
  match digit c with
  | Some _ => true
  | None => N.eqb c (chr ".") || N.eqb c (chr "e") || N.eqb c (chr "E")
  end.

(** A text that can follow a value without changing how it is read. *)
Definition quiet (r : text) : Prop :=
  match r with
  | [] => True
  | c :: _ => continues_number c = false
  end.

(** The first and the last character of the text of a value. *)
Definition opening (v : json) (c : N) : Prop :=
  match v with
  | JObj _ => c = chr "{"
  | _ => is_space c = false
  end.

Definition closing (v : json) (c : N) : Prop :=
  match v with
  | JObj _ => c = chr "}"
  | _ => is_space c = false /\ c <> chr "`"
  end.

(** [p] is the text of [v]: white space, then from an opening to a closing
    character. *)
Definition text_of (v : json) (p : text) : Prop :=
  (exists c q, skip_ws p = c :: q /\ opening v c) /\ closing v (last p 0%N).

(** A decimal digit. *)
Definition is_digit (c : N) : Prop := digit c <> None.

(** A text that does not start with a digit, and one that does not start
    with a decimal point. *)
Definition no_digit_ahead (r : text) : Prop :=
  match r with
  | [] => True
  | c :: _ => digit c = None
  end.

Definition not_point (r : text) : Prop :=
  match r with
  | [] => True
  | c :: _ => N.eqb c (chr ".") = false
  end.

(** [t] without its trailing white space. *)
Definition trim_end (t : text) : text := rev (trim_start (rev t)).

(** The text before the first fence. *)
Fixpoint before_fence (t : text) : text :=
  match t with
  | [] => []
  | c :: t' => if starts_with (lit "```") t then [] else c :: before_fence t'
  end.

(** The parser reads [v] back from its serialisation, whatever quiet text
    follows it. *)
Definition reads_back (v : json) : Prop :=
  exists fuel, forall r2, quiet r2 ->
    parse_value fuel (serialize v ++ r2) = Parsed (v, r2).

(** The serialisation of one member of an object. *)
Definition member_text (member : text * json) : text :=
  string_text (fst member) ++ chr ":" :: serialize (snd member).

(** * Properties *)

(** ** Traces *)

Lemma delays_app (a b : list event) : delays (a ++ b) = delays a ++ delays b.
Proof. apply flat_map_app. Qed.

Lemma requests_app (a b : list event) :
  requests (a ++ b) = requests a ++ requests b.
Proof. apply flat_map_app. Qed.

(** ** The retry loop *)

Lemma announceRetry_returns (a : Z) (m : machine) :
  announceRetry a m = (Returned tt, mkMachine (ui (snd (announceRetry a m))) (trace m)).
Proof.
  unfold announceRetry. destruct (0 <? a); destruct m; reflexivity.
Qed.

(** An iteration whose call succeeds ends the loop with the response text. *)
Lemma retryLoop_fulfilled part r outs a m :
  a < MAX_RETRIES ->
  retryLoop part (Fulfilled r :: outs) a m =
  (Returned (text_or_empty r),
   mkMachine (ui (snd (announceRetry a m)))
             (trace m ++ [Net (GenerateContent part)])).
Proof.
  intros Ha. apply Z.ltb_lt in Ha. simpl. rewrite Ha.
  unfold bind at 1. rewrite announceRetry_returns. reflexivity.
Qed.

(** An iteration whose call fails with a retryable error, before the last
    attempt, sleeps and starts the next iteration. *)
Lemma retryLoop_retry part e outs a m :
  a < MAX_RETRIES - 1 ->
  isRetryable e = true ->
  retryLoop part (Rejected e :: outs) a m =
  retryLoop part outs (a + 1)
    (mkMachine (ui (snd (announceRetry a m)))
       (trace m ++ [Net (GenerateContent part);
                    ConsoleWarn (lit "Attempt " ++ decimal (a + 1) ++ lit " failed:") e;
                    Slept (2 ^ (a + 1) * 2000)])).
Proof.
  intros Ha He.
  assert (Ha' : (a <? MAX_RETRIES) = true) by (apply Z.ltb_lt; unfold MAX_RETRIES in *; lia).
  apply Z.ltb_lt in Ha.
  cbn [retryLoop]. rewrite Ha', He, Ha. cbn [andb].
  unfold bind at 1. rewrite announceRetry_returns.
  unfold bind, emit, sleep, emit. cbn [ui trace].
  rewrite <- !app_assoc. reflexivity.
Qed.

(** An iteration whose call fails with an error that is not retryable, or
    fails on the last attempt, throws that error without sleeping. *)
Lemma retryLoop_rethrow part e outs a m :
  a < MAX_RETRIES ->
  isRetryable e = false \/ MAX_RETRIES - 1 <= a ->
  retryLoop part (Rejected e :: outs) a m =
  (Thrown e,
   mkMachine (ui (snd (announceRetry a m)))
     (trace m ++ [Net (GenerateContent part);
                  ConsoleWarn (lit "Attempt " ++ decimal (a + 1) ++ lit " failed:") e])).
Proof.
  intros Ha Hc. apply Z.ltb_lt in Ha.
  assert (Hg : isRetryable e && (a <? MAX_RETRIES - 1) = false).
  { destruct Hc as [-> | Hc]; [reflexivity|].
    apply andb_false_iff. right. apply Z.ltb_ge. exact Hc. }
  cbn [retryLoop]. rewrite Ha, Hg.
  unfold bind at 1. rewrite announceRetry_returns.
  unfold bind, emit, throw. cbn [ui trace].
  rewrite <- !app_assoc. reflexivity.
Qed.

Lemma status_503_retryable e : err_status e = Some 503 -> isRetryable e = true.
Proof. intros H. unfold isRetryable. rewrite H. reflexivity. Qed.

(** C2.  When the first two [generateContent] calls fail with status 503
    and the third succeeds with text [t], the retry loop returns [t]; it
    issues exactly three calls and awaits exactly two delays, 4000 ms
    (2^1 * 2000) before the second call and 8000 ms (2^2 * 2000) before the
    third. *)
Theorem retry_503_503_success part e1 e2 t rest m :
  err_status e1 = Some 503 ->
  err_status e2 = Some 503 ->
  exists evs,
    let run := invokeWithRetry part
                 (Rejected e1 :: Rejected e2 :: Fulfilled (Some t) :: rest) m in
    fst run = Returned t /\
    trace (snd run) = trace m ++ evs /\
    delays evs = [2 ^ 1 * 2000; 2 ^ 2 * 2000] /\
    delays evs = [4000; 8000] /\
    schedule evs = [Net (GenerateContent part); Slept 4000;
                    Net (GenerateContent part); Slept 8000;
                    Net (GenerateContent part)] /\
    retryCount (ui (snd run)) = 2.
Proof.
  intros H1 H2. apply status_503_retryable in H1, H2.
  unfold invokeWithRetry.
  rewrite (retryLoop_retry _ _ _ 0) by ((unfold MAX_RETRIES; lia) || assumption).
  rewrite (retryLoop_retry _ _ _ (0 + 1)) by ((unfold MAX_RETRIES; lia) || assumption).
  rewrite retryLoop_fulfilled by (unfold MAX_RETRIES; lia).
  cbn [fst snd trace ui].
  eexists. split; [|split; [rewrite <- !app_assoc; reflexivity|]].
  - destruct t; reflexivity.
  - repeat split; reflexivity.
Qed.

Lemma retry_503_503_success_witness :
  exists evs,
    let run := invokeWithRetry (FileData (lit "video/mp4") (lit "https://files/abc"))
                 [Rejected (mkError (Some 503) None (Some (lit "Service Unavailable")) (lit "{}"));
                  Rejected (mkError (Some 503) None None (lit "{}"));
                  Fulfilled (Some (lit "{}"))]
                 (mkMachine initialUi []) in
    fst run = Returned (lit "{}") /\
    trace (snd run) = [] ++ evs /\
    delays evs = [2 ^ 1 * 2000; 2 ^ 2 * 2000] /\
    delays evs = [4000; 8000] /\
    schedule evs =
      [Net (GenerateContent (FileData (lit "video/mp4") (lit "https://files/abc")));
       Slept 4000;
       Net (GenerateContent (FileData (lit "video/mp4") (lit "https://files/abc")));
       Slept 8000;
       Net (GenerateContent (FileData (lit "video/mp4") (lit "https://files/abc")))] /\
    retryCount (ui (snd run)) = 2.
Proof.
  apply (retry_503_503_success _ _ _ (lit "{}") [] (mkMachine initialUi [])); reflexivity.
Defined.

(** C3.  When the first three [generateContent] calls all fail with
    retryable errors, the retry loop stops after exactly three calls (and
    the two delays between them) and throws the third error, the last one
    it met. *)
Theorem retry_exhausted part (errs : list jsError) m :
  Forall (fun e => isRetryable e = true) errs ->
  (3 <= length errs)%nat ->
  exists e3 evs,
    let run := invokeWithRetry part (map Rejected errs) m in
    nth_error errs 2 = Some e3 /\
    fst run = Thrown e3 /\
    trace (snd run) = trace m ++ evs /\
    requests evs = [GenerateContent part; GenerateContent part; GenerateContent part] /\
    delays evs = [4000; 8000] /\
    schedule evs = [Net (GenerateContent part); Slept 4000;
                    Net (GenerateContent part); Slept 8000;
                    Net (GenerateContent part)].
Proof.
  intros Hall Hlen.
  destruct errs as [|e1 [|e2 [|e3 rest]]]; simpl in Hlen; try lia.
  inversion Hall as [|? ? H1 Hall1]; subst.
  inversion Hall1 as [|? ? H2 Hall2]; subst.
  exists e3. eexists. cbn [map nth_error].
  unfold invokeWithRetry.
  rewrite (retryLoop_retry _ _ _ 0) by ((unfold MAX_RETRIES; lia) || assumption).
  rewrite (retryLoop_retry _ _ _ (0 + 1)) by ((unfold MAX_RETRIES; lia) || assumption).
  rewrite retryLoop_rethrow by (unfold MAX_RETRIES; lia).
  cbn [fst snd trace ui].
  split; [reflexivity|]. split; [reflexivity|].
  split; [rewrite <- !app_assoc; reflexivity|].
  repeat split; reflexivity.
Qed.

Lemma retry_exhausted_witness :
  exists e3 evs,
    let run := invokeWithRetry (InlineData (lit "video/mp4") (Some (lit "AAAA")))
                 (map Rejected
                    [mkError (Some 429) None (Some (lit "Too Many Requests")) (lit "{}");
                     mkError None (Some 429) None (lit "{}");
                     mkError None None (Some (lit "The model is overloaded.")) (lit "{}")])
                 (mkMachine initialUi []) in
    nth_error
      [mkError (Some 429) None (Some (lit "Too Many Requests")) (lit "{}");
       mkError None (Some 429) None (lit "{}");
       mkError None None (Some (lit "The model is overloaded.")) (lit "{}")] 2 = Some e3 /\
    fst run = Thrown e3 /\
    trace (snd run) = [] ++ evs /\
    requests evs = [GenerateContent (InlineData (lit "video/mp4") (Some (lit "AAAA")));
                    GenerateContent (InlineData (lit "video/mp4") (Some (lit "AAAA")));
                    GenerateContent (InlineData (lit "video/mp4") (Some (lit "AAAA")))] /\
    delays evs = [4000; 8000] /\
    schedule evs =
      [Net (GenerateContent (InlineData (lit "video/mp4") (Some (lit "AAAA"))));
       Slept 4000;
       Net (GenerateContent (InlineData (lit "video/mp4") (Some (lit "AAAA"))));
       Slept 8000;
       Net (GenerateContent (InlineData (lit "video/mp4") (Some (lit "AAAA"))))].
Proof.
  apply (retry_exhausted _ _ (mkMachine initialUi [])).
  - repeat constructor.
  - simpl. lia.
Defined.

(** The code's retry test, spelled out. *)
Lemma isRetryable_false_iff e :
  isRetryable e = false <->
  err_status e <> Some 503 /\ err_code e <> Some 503 /\
  err_status e <> Some 429 /\ err_code e <> Some 429 /\
  message_includes e (lit "overloaded") = false /\
  message_includes e (lit "fetch") = false.
Proof.
  assert (Hn : forall x n, strict_eq_num x n = false <-> x <> Some n).
  { intros [v|] n; simpl.
    - rewrite Z.eqb_neq. split; [congruence|]. intros H Hv. apply H. now subst.
    - split; [discriminate|reflexivity]. }
  unfold isRetryable. rewrite !orb_false_iff, !Hn. tauto.
Qed.

(** C4.  A failure that is not retryable (status and code are neither 429
    nor 503, and the message mentions neither "overloaded" nor "fetch") is
    thrown again at once.  When the first call fails this way the executor
    ends with that error after exactly one call and zero delays; and at
    whatever attempt the failure comes, the loop issues no further call and
    awaits no delay after it. *)
Theorem non_retryable_rethrown part e rest attempt m :
  err_status e <> Some 503 -> err_code e <> Some 503 ->
  err_status e <> Some 429 -> err_code e <> Some 429 ->
  message_includes e (lit "overloaded") = false ->
  message_includes e (lit "fetch") = false ->
  0 <= attempt < MAX_RETRIES ->
  (exists evs,
      let run := invokeWithRetry part (Rejected e :: rest) m in
      fst run = Thrown e /\
      trace (snd run) = trace m ++ evs /\
      delays evs = [] /\
      requests evs = [GenerateContent part]) /\
  (exists evs,
      let run := retryLoop part (Rejected e :: rest) attempt m in
      fst run = Thrown e /\
      trace (snd run) = trace m ++ evs /\
      delays evs = [] /\
      requests evs = [GenerateContent part]).
Proof.
  intros H1 H2 H3 H4 H5 H6 Hattempt.
  assert (He : isRetryable e = false) by (apply isRetryable_false_iff; tauto).
  assert (Hgen : forall a, 0 <= a < MAX_RETRIES -> exists evs,
      let run := retryLoop part (Rejected e :: rest) a m in
      fst run = Thrown e /\
      trace (snd run) = trace m ++ evs /\
      delays evs = [] /\
      requests evs = [GenerateContent part]).
  { intros a Ha. eexists. cbv zeta.
    rewrite retryLoop_rethrow by (lia || (left; exact He)).
    cbn [fst snd trace]. repeat split; reflexivity. }
  split; [|exact (Hgen attempt Hattempt)].
  apply (Hgen 0). unfold MAX_RETRIES. lia.
Qed.

Lemma non_retryable_rethrown_witness :
  (exists evs,
      let run := invokeWithRetry (InlineData (lit "video/mp4") (Some (lit "AAAA")))
                   [Rejected (mkError (Some 400) None (Some (lit "Bad Request")) (lit "{}"))]
                   (mkMachine initialUi []) in
      fst run = Thrown (mkError (Some 400) None (Some (lit "Bad Request")) (lit "{}")) /\
      trace (snd run) = [] ++ evs /\
      delays evs = [] /\
      requests evs = [GenerateContent (InlineData (lit "video/mp4") (Some (lit "AAAA")))]) /\
  (exists evs,
      let run := retryLoop (InlineData (lit "video/mp4") (Some (lit "AAAA")))
                   [Rejected (mkError (Some 400) None (Some (lit "Bad Request")) (lit "{}"))]
                   1 (mkMachine initialUi []) in
      fst run = Thrown (mkError (Some 400) None (Some (lit "Bad Request")) (lit "{}")) /\
      trace (snd run) = [] ++ evs /\
      delays evs = [] /\
      requests evs = [GenerateContent (InlineData (lit "video/mp4") (Some (lit "AAAA")))]).
Proof.
  apply (non_retryable_rethrown
           (InlineData (lit "video/mp4") (Some (lit "AAAA")))
           (mkError (Some 400) None (Some (lit "Bad Request")) (lit "{}")) []
           1 (mkMachine initialUi []));
    simpl; try discriminate; try reflexivity.
  unfold MAX_RETRIES. lia.
Defined.

(** ** Trace discipline of the monad *)

Lemma emits_ret {A} P (a : A) : emits P (ret a).
Proof. intros m. exists []. simpl. rewrite app_nil_r. auto. Qed.

Lemma emits_throw {A} P e : emits P (@throw A e).
Proof. intros m. exists []. simpl. rewrite app_nil_r. auto. Qed.

Lemma emits_pending {A} P : emits P (@pending A).
Proof. intros m. exists []. simpl. rewrite app_nil_r. auto. Qed.

Lemma emits_modify P f : emits P (modify f).
Proof. intros m. exists []. simpl. rewrite app_nil_r. auto. Qed.

Lemma emits_emit (P : event -> Prop) ev : P ev -> emits P (emit ev).
Proof. intros H m. exists [ev]. simpl. auto. Qed.

Lemma emits_await {R} P (p : option (settled R)) : emits P (await p).
Proof.
  destruct p as [[e|r]|]; simpl;
    [apply emits_throw | apply emits_ret | apply emits_pending].
Qed.

Lemma emits_bind {A B} P (c : M A) (k : A -> M B) :
  emits P c -> (forall a, emits P (k a)) -> emits P (bind c k).
Proof.
  intros Hc Hk m. unfold bind.
  destruct (Hc m) as [evs [Ht Hp]].
  destruct (c m) as [[a|e|] m1]; simpl in Ht |- *.
  - destruct (Hk a m1) as [evs' [Ht' Hp']].
    exists (evs ++ evs'). rewrite Ht', Ht, app_assoc. split; [reflexivity|].
    apply Forall_app; auto.
  - exists evs; auto.
  - exists evs; auto.
Qed.

Create HintDb emits.
#[local] Hint Resolve emits_ret emits_throw emits_pending emits_modify
  emits_await : emits.

(** Walks through a program built from the monad's primitives. *)
Ltac emits_solve :=
  repeat first
    [ solve [auto with emits]
    | apply emits_bind; [|intros ?]
    | apply emits_emit; exact I
    | match goal with
      | |- emits _ (if ?b then _ else _) => destruct b
      | |- emits _ (match ?x with _ => _ end) => destruct x
      end ].

(** ** The upload helper and the poller only talk to the network *)

Lemma uploadFileToGemini_trace f apiKey start transfer m :
  exists evs,
    trace (snd (uploadFileToGemini f apiKey start transfer m)) =
      trace m ++ Net (UploadStart apiKey f) :: evs /\
    Forall remote_event evs.
Proof.
  assert (H : emits remote_event
    (startUpload <- await start ;;
     if negb (start_ok startUpload) then
       throw (Error (lit "Upload init failed (" ++ decimal (start_status startUpload)
                       ++ lit "): " ++ start_text startUpload))
     else
       match start_upload_url startUpload with
       | None | Some [] => throw (Error (lit "No upload URL returned from Google."))
       | Some uploadUrl =>
           emit (Net (UploadBytes uploadUrl f)) ;;
           uploadBytes <- await transfer ;;
           if negb (bytes_ok uploadBytes) then
             throw (Error (lit "Upload bytes failed (" ++ decimal (bytes_status uploadBytes)
                             ++ lit "): " ++ bytes_text uploadBytes))
           else
             uploadResult <- await (Some (bytes_file uploadBytes)) ;;
             ret uploadResult
       end)).
  { emits_solve. }
  destruct (H (mkMachine (ui m) (trace m ++ [Net (UploadStart apiKey f)])))
    as [evs [Ht Hp]].
  exists evs. split; [|exact Hp].
  unfold uploadFileToGemini. unfold bind at 1. unfold emit at 1.
  rewrite Ht. cbn [trace]. rewrite <- app_assoc. reflexivity.
Qed.

Lemma getFileState_emits fileName apiKey reply :
  emits remote_event (getFileState fileName apiKey reply).
Proof.
  unfold getFileState. emits_solve.
Qed.

Lemma pollLoop_emits fileName apiKey checks :
  forall fileState, emits remote_event (pollLoop fileName apiKey checks fileState).
Proof.
  pose proof (getFileState_emits fileName apiKey) as Hget.
  induction checks as [|check checks IH]; intros fileState; simpl;
    unfold sleep; emits_solve.
Qed.

Lemma awaitActive_emits fileName apiKey checks :
  emits remote_event (awaitActive fileName apiKey checks).
Proof.
  pose proof (pollLoop_emits fileName apiKey checks) as Hpoll.
  unfold awaitActive. emits_solve.
Qed.

(** ** The readiness poll *)

(** Runs the primitives of the monad on the current machine. *)
Ltac run_monad :=
  cbv beta iota zeta delta
    [getFileState sleep bind emit modify await ret throw pending ui trace negb fst snd].

(** One iteration on a well-formed reply: a sleep, a status GET, then
    either the fatal error or the next test of the loop condition. *)
Lemma pollLoop_step fileName apiKey r v rest m :
  status_ok r = true ->
  status_state r = Fulfilled v ->
  pollLoop fileName apiKey (Fulfilled r :: rest) (SString (lit "PROCESSING")) m =
  let m1 := mkMachine (ui m) (trace m ++ [Slept 2000; Net (FileStatus fileName apiKey)]) in
  if state_is v (lit "FAILED")
  then (Thrown (Error (lit "Video processing failed on server.")), m1)
  else pollLoop fileName apiKey rest v m1.
Proof.
  intros Hok Hst. cbn [pollLoop].
  change (state_is (SString (lit "PROCESSING")) (lit "PROCESSING")) with true.
  cbv iota. run_monad. rewrite Hok. run_monad. rewrite Hst. run_monad.
  rewrite <- app_assoc. cbn [app].
  destruct (state_is v (lit "FAILED")); reflexivity.
Qed.

(** One iteration on a reply with a non-success HTTP status: the state
    becomes ["UNKNOWN"], which is not ["FAILED"], and the loop condition is
    tested on it. *)
Lemma pollLoop_step_not_ok fileName apiKey r rest m :
  status_ok r = false ->
  pollLoop fileName apiKey (Fulfilled r :: rest) (SString (lit "PROCESSING")) m =
  pollLoop fileName apiKey rest (SString (lit "UNKNOWN"))
    (mkMachine (ui m) (trace m ++ [Slept 2000; Net (FileStatus fileName apiKey)])).
Proof.
  intros Hok. cbn [pollLoop].
  change (state_is (SString (lit "PROCESSING")) (lit "PROCESSING")) with true.
  cbv iota. run_monad. rewrite Hok. run_monad.
  change (state_is (SString (lit "UNKNOWN")) (lit "FAILED")) with false.
  cbv iota. rewrite <- app_assoc. reflexivity.
Qed.

(** The loop is left at once on any state other than ["PROCESSING"]. *)
Lemma pollLoop_exit fileName apiKey checks v m :
  state_is v (lit "PROCESSING") = false ->
  pollLoop fileName apiKey checks v m = (Returned v, m).
Proof. intros H. destruct checks; cbn [pollLoop]; rewrite H; reflexivity. Qed.

(** [n] replies ["PROCESSING"] cost [n] sleeps and [n] status GETs, and
    leave the loop where it started. *)
Lemma pollLoop_processing fileName apiKey n checks :
  forall m,
    pollLoop fileName apiKey (repeat (statusReply (lit "PROCESSING")) n ++ checks)
      (SString (lit "PROCESSING")) m =
    pollLoop fileName apiKey checks (SString (lit "PROCESSING"))
      (mkMachine (ui m)
         (trace m ++ concat (repeat [Slept 2000; Net (FileStatus fileName apiKey)] n))).
Proof.
  induction n as [|n IH]; intros m.
  - simpl. rewrite app_nil_r. destruct m; reflexivity.
  - cbn [repeat app]. unfold statusReply at 1.
    rewrite (pollLoop_step _ _ _ (SString (lit "PROCESSING"))) by reflexivity.
    cbv zeta.
    change (state_is (SString (lit "PROCESSING")) (lit "FAILED")) with false.
    cbv iota. rewrite IH. cbn [ui trace concat]. rewrite <- app_assoc.
    reflexivity.
Qed.

(** After [n] replies ["PROCESSING"], a reply with another state [s] ends
    the loop: [n + 1] sleeps and status GETs in all, one sleep before every
    GET. *)
Lemma pollLoop_until fileName apiKey n s rest m :
  text_eqb s (lit "PROCESSING") = false ->
  pollLoop fileName apiKey
    (repeat (statusReply (lit "PROCESSING")) n ++ statusReply s :: rest)
    (SString (lit "PROCESSING")) m =
  let m1 := mkMachine (ui m)
              (trace m ++ concat (repeat [Slept 2000; Net (FileStatus fileName apiKey)] (S n))) in
  if text_eqb s (lit "FAILED")
  then (Thrown (Error (lit "Video processing failed on server.")), m1)
  else (Returned (SString s), m1).
Proof.
  intros Hs. rewrite pollLoop_processing. unfold statusReply at 1.
  rewrite (pollLoop_step _ _ _ (SString s)) by reflexivity.
  cbv zeta. cbn [ui trace state_is].
  replace (concat (repeat [Slept 2000; Net (FileStatus fileName apiKey)] (S n)))
    with (concat (repeat [Slept 2000; Net (FileStatus fileName apiKey)] n)
            ++ [Slept 2000; Net (FileStatus fileName apiKey)]).
  2:{ cbn [repeat]. rewrite repeat_cons, concat_app. cbn [concat].
      rewrite app_nil_r. reflexivity. }
  rewrite <- app_assoc.
  destruct (text_eqb s (lit "FAILED")); [reflexivity|].
  apply pollLoop_exit. exact Hs.
Qed.

Lemma delays_repeat_polls fileName apiKey n :
  delays (concat (repeat [Slept 2000; Net (FileStatus fileName apiKey)] n)) =
  repeat 2000 n.
Proof.
  induction n as [|n IH]; [reflexivity|].
  cbn [repeat concat]. rewrite delays_app, IH. reflexivity.
Qed.

Lemma requests_repeat_polls fileName apiKey n :
  requests (concat (repeat [Slept 2000; Net (FileStatus fileName apiKey)] n)) =
  repeat (FileStatus fileName apiKey) n.
Proof.
  induction n as [|n IH]; [reflexivity|].
  cbn [repeat concat]. rewrite requests_app, IH. reflexivity.
Qed.

(** A status reply whose body cannot be decoded makes the status check,
    and with it the whole poll, throw the decoding error. *)
Lemma awaitActive_undecodable fileName apiKey r e rest m :
  status_ok r = true ->
  status_state r = Rejected e ->
  awaitActive fileName apiKey (Fulfilled r :: rest) m =
  (Thrown e, mkMachine (ui m) (trace m ++ [Slept 2000; Net (FileStatus fileName apiKey)])).
Proof.
  intros Hok Hst. unfold awaitActive. cbn [pollLoop].
  change (state_is (SString (lit "PROCESSING")) (lit "PROCESSING")) with true.
  cbv iota. run_monad. rewrite Hok. run_monad. rewrite Hst. run_monad.
  rewrite <- app_assoc. reflexivity.
Qed.

(** C5, as the code has it.  A status reply with a non-success HTTP status
    makes [getFileState] return ["UNKNOWN"] instead of throwing; the poll
    loop only continues on ["PROCESSING"], so it is left with ["UNKNOWN"]
    after that one status check, and the run fails with
    "File state is UNKNOWN".  An explicit ["FAILED"] fails with
    "Video processing failed on server.". *)
Theorem errored_status_check_ends_polling fileName apiKey r rest m :
  status_ok r = false ->
  fst (getFileState fileName apiKey (Some (Fulfilled r)) m)
    = Returned (SString (lit "UNKNOWN")) /\
  (exists evs,
     let run := pollLoop fileName apiKey (Fulfilled r :: rest)
                  (SString (lit "PROCESSING")) m in
     fst run = Returned (SString (lit "UNKNOWN")) /\
     trace (snd run) = trace m ++ evs /\
     requests evs = [FileStatus fileName apiKey] /\
     delays evs = [2000]) /\
  fst (awaitActive fileName apiKey (Fulfilled r :: rest) m)
    = Thrown (Error (lit "File state is UNKNOWN")) /\
  fst (awaitActive fileName apiKey (statusReply (lit "FAILED") :: rest) m)
    = Thrown (Error (lit "Video processing failed on server.")).
Proof.
  intros Hok.
  assert (Hloop : pollLoop fileName apiKey (Fulfilled r :: rest)
                    (SString (lit "PROCESSING")) m =
                  (Returned (SString (lit "UNKNOWN")),
                   mkMachine (ui m)
                     (trace m ++ [Slept 2000; Net (FileStatus fileName apiKey)]))).
  { rewrite pollLoop_step_not_ok by exact Hok. apply pollLoop_exit. reflexivity. }
  split; [|split; [|split]].
  - run_monad. rewrite Hok. reflexivity.
  - eexists. cbv zeta. rewrite Hloop. cbn [fst snd trace].
    repeat split; reflexivity.
  - unfold awaitActive, bind. rewrite Hloop. reflexivity.
  - pose proof (pollLoop_until fileName apiKey 0 (lit "FAILED") rest m eq_refl) as H.
    cbn [repeat app] in H. unfold awaitActive, bind. rewrite H. reflexivity.
Qed.

Lemma errored_status_check_ends_polling_witness :
  fst (getFileState (lit "files/abc") (lit "key")
         (Some (Fulfilled (mkStatus false (Rejected (Error (lit "unused"))))))
         (mkMachine initialUi []))
    = Returned (SString (lit "UNKNOWN")) /\
  (exists evs,
     let run := pollLoop (lit "files/abc") (lit "key")
                  [Fulfilled (mkStatus false (Rejected (Error (lit "unused"))))]
                  (SString (lit "PROCESSING")) (mkMachine initialUi []) in
     fst run = Returned (SString (lit "UNKNOWN")) /\
     trace (snd run) = [] ++ evs /\
     requests evs = [FileStatus (lit "files/abc") (lit "key")] /\
     delays evs = [2000]) /\
  fst (awaitActive (lit "files/abc") (lit "key")
         [Fulfilled (mkStatus false (Rejected (Error (lit "unused"))))]
         (mkMachine initialUi []))
    = Thrown (Error (lit "File state is UNKNOWN")) /\
  fst (awaitActive (lit "files/abc") (lit "key")
         [statusReply (lit "FAILED")] (mkMachine initialUi []))
    = Thrown (Error (lit "Video processing failed on server.")).
Proof.
  apply (errored_status_check_ends_polling (lit "files/abc") (lit "key")
           (mkStatus false (Rejected (Error (lit "unused")))) []
           (mkMachine initialUi [])).
  reflexivity.
Defined.

(** C5, as stated, fails: after a status reply with HTTP status not ok the
    poll does not go on to the next reply (here ["ACTIVE"]); it aborts the
    run after that single status check. *)
Lemma errored_status_check_aborts :
  let run := awaitActive (lit "files/abc") (lit "key")
               [Fulfilled (mkStatus false (Fulfilled SUndefined));
                statusReply (lit "ACTIVE")]
               (mkMachine initialUi []) in
  fst run = Thrown (Error (lit "File state is UNKNOWN")) /\
  fst run <> Returned tt /\
  requests (trace (snd run)) = [FileStatus (lit "files/abc") (lit "key")].
Proof.
  vm_compute. repeat split. discriminate.
Qed.

(** C6, as the code has it.  The loop sleeps 2000 ms before every status
    check, the first one included: on the replies PROCESSING, PROCESSING,
    ACTIVE it resolves with ["ACTIVE"] after three sleeps, and on
    PROCESSING, FAILED it throws after two. *)
Theorem poll_sleeps_before_every_check fileName apiKey rest m :
  (exists evs,
     let checks := statusReply (lit "PROCESSING") :: statusReply (lit "PROCESSING")
                     :: statusReply (lit "ACTIVE") :: rest in
     fst (pollLoop fileName apiKey checks (SString (lit "PROCESSING")) m)
       = Returned (SString (lit "ACTIVE")) /\
     fst (awaitActive fileName apiKey checks m) = Returned tt /\
     trace (snd (awaitActive fileName apiKey checks m)) = trace m ++ evs /\
     delays evs = [2000; 2000; 2000] /\
     schedule evs = [Slept 2000; Net (FileStatus fileName apiKey);
                     Slept 2000; Net (FileStatus fileName apiKey);
                     Slept 2000; Net (FileStatus fileName apiKey)]) /\
  (exists evs,
     let checks := statusReply (lit "PROCESSING") :: statusReply (lit "FAILED")
                     :: rest in
     fst (awaitActive fileName apiKey checks m)
       = Thrown (Error (lit "Video processing failed on server.")) /\
     trace (snd (awaitActive fileName apiKey checks m)) = trace m ++ evs /\
     delays evs = [2000; 2000] /\
     schedule evs = [Slept 2000; Net (FileStatus fileName apiKey);
                     Slept 2000; Net (FileStatus fileName apiKey)]).
Proof.
  split; eexists; cbv zeta.
  - pose proof (pollLoop_until fileName apiKey 2 (lit "ACTIVE") rest m eq_refl) as H.
    cbn [repeat app] in H. cbv zeta in H.
    change (text_eqb (lit "ACTIVE") (lit "FAILED")) with false in H. cbv iota in H.
    unfold awaitActive, bind. rewrite H. cbn [fst snd trace].
    change (negb (state_is (SString (lit "ACTIVE")) (lit "ACTIVE"))) with false.
    cbv iota. cbn [ret fst snd trace].
    split; [reflexivity|]. split; [reflexivity|]. split; [reflexivity|].
    split; reflexivity.
  - pose proof (pollLoop_until fileName apiKey 1 (lit "FAILED") rest m eq_refl) as H.
    cbn [repeat app] in H. cbv zeta in H.
    change (text_eqb (lit "FAILED") (lit "FAILED")) with true in H. cbv iota in H.
    unfold awaitActive, bind. rewrite H. cbn [fst snd trace].
    split; [reflexivity|]. split; [reflexivity|].
    split; reflexivity.
Qed.

(** C6, as stated, fails: the three replies cost three sleeps, not two, and
    the two replies ending in FAILED cost two sleeps, not one. *)
Lemma poll_sleep_counts :
  let ready := awaitActive (lit "files/abc") (lit "key")
                 [statusReply (lit "PROCESSING"); statusReply (lit "PROCESSING");
                  statusReply (lit "ACTIVE")] (mkMachine initialUi []) in
  let failed := awaitActive (lit "files/abc") (lit "key")
                 [statusReply (lit "PROCESSING"); statusReply (lit "FAILED")]
                 (mkMachine initialUi []) in
  fst ready = Returned tt /\
  delays (trace (snd ready)) = [2000; 2000; 2000] /\
  length (delays (trace (snd ready))) <> 2%nat /\
  fst failed = Thrown (Error (lit "Video processing failed on server.")) /\
  delays (trace (snd failed)) = [2000; 2000] /\
  length (delays (trace (snd failed))) <> 1%nat.
Proof.
  vm_compute. repeat split; discriminate.
Qed.

(** ** The ingestion strategy *)

(** The poll always starts with a sleep and a status check. *)
Lemma awaitActive_first fileName apiKey checks m :
  exists evs,
    trace (snd (awaitActive fileName apiKey checks m)) =
      trace m ++ Slept 2000 :: Net (FileStatus fileName apiKey) :: evs /\
    Forall remote_event evs.
Proof.
  assert (Hrest : forall reply (k : stateValue -> M unit),
             (forall v, emits remote_event (k v)) ->
             exists evs,
               trace (snd ((sleep 2000 ;; v <- getFileState fileName apiKey reply ;; k v) m)) =
                 trace m ++ Slept 2000 :: Net (FileStatus fileName apiKey) :: evs /\
               Forall remote_event evs).
  { intros reply k Hk.
    assert (He : emits remote_event
              (response <- await reply ;;
               v <- (if negb (status_ok response) then ret (SString (lit "UNKNOWN"))
                     else state <- await (Some (status_state response)) ;; ret state) ;;
               k v)) by emits_solve.
    destruct (He (mkMachine (ui m)
                    (trace m ++ [Slept 2000; Net (FileStatus fileName apiKey)])))
      as [evs [Ht Hp]].
    exists evs. split; [|exact Hp].
    cbn [trace] in Ht. rewrite <- app_assoc in Ht. cbn [app] in Ht.
    rewrite <- Ht. clear Ht He.
    run_monad. rewrite <- app_assoc. cbn [app].
    destruct reply as [[e|r]|]; run_monad; try reflexivity;
      destruct (status_ok r); run_monad; try reflexivity;
      destruct (status_state r); run_monad; reflexivity. }
  pose proof (pollLoop_emits fileName apiKey) as Hpoll.
  unfold awaitActive.
  destruct checks as [|check checks]; cbn [pollLoop];
    change (state_is (SString (lit "PROCESSING")) (lit "PROCESSING")) with true;
    cbv iota.
  - destruct (Hrest None (fun fileState =>
       if negb (state_is fileState (lit "ACTIVE"))
       then throw (Error (lit "File state is " ++ render_state fileState))
       else ret tt)) as [evs [Ht Hp]]; [intros; emits_solve|].
    exists evs. split; [|exact Hp]. rewrite <- Ht. reflexivity.
  - destruct (Hrest (Some check) (fun fileState =>
       final <- (if state_is fileState (lit "FAILED")
                 then throw (Error (lit "Video processing failed on server."))
                 else pollLoop fileName apiKey checks fileState) ;;
       if negb (state_is final (lit "ACTIVE"))
       then throw (Error (lit "File state is " ++ render_state final))
       else ret tt)) as [evs [Ht Hp]]; [intros; emits_solve|].
    exists evs. split; [|exact Hp]. rewrite <- Ht. clear.
    run_monad.
    destruct check as [e|r]; try reflexivity;
      destruct (status_ok r); [destruct (status_state r)|]; reflexivity.
Qed.

(** [result.split(',')[1]] is the payload of a data URL whose media type
    has no comma. *)
Lemma split_data_url (header payload : text) :
  ~ In (chr ",") header -> ~ In (chr ",") payload ->
  nth_error (split_on (chr ",") (header ++ chr "," :: payload)) 1 = Some payload.
Proof.
  assert (Hp : forall p, ~ In (chr ",") p -> split_on (chr ",") p = [p]).
  { induction p as [|c p IH]; intros Hn; [reflexivity|].
    cbn [split_on]. destruct (N.eqb_spec c (chr ",")) as [->|_].
    - exfalso. apply Hn. left. reflexivity.
    - rewrite IH; [reflexivity|]. intros Hin. apply Hn. right. exact Hin. }
  intros Hh Hpay. induction header as [|c h IH]; cbn [app split_on].
  - rewrite N.eqb_refl, Hp by exact Hpay. reflexivity.
  - destruct (N.eqb_spec c (chr ",")) as [->|_].
    + exfalso. apply Hh. left. reflexivity.
    + assert (Hh' : ~ In (chr ",") h) by (intros Hin; apply Hh; right; exact Hin).
      specialize (IH Hh').
      destruct (split_on (chr ",") (h ++ chr "," :: payload)) as [|piece pieces];
        [discriminate IH | exact IH].
Qed.

(** The remote branch, as a composition of its two awaited phases. *)
Lemma prepareContent_large env f m :
  isLargeFile f = true ->
  prepareContent env f m =
  match uploadFileToGemini f (env_apiKey env) (env_upload_start env)
          (env_upload_bytes env)
          (snd (setLoadingStage (lit "Uploading to Secure Storage...") m)) with
  | (Returned (fileName, fileUri), m2) =>
      match awaitActive fileName (env_apiKey env) (env_status_checks env)
              (snd (setLoadingStage (lit "Processing video content...") m2)) with
      | (Returned _, m4) => (Returned (FileData (file_type f) fileUri), m4)
      | (Thrown e, m4) => (Thrown e, m4)
      | (Pending, m4) => (Pending, m4)
      end
  | (Thrown e, m2) => (Thrown e, m2)
  | (Pending, m2) => (Pending, m2)
  end.
Proof.
  intros H. unfold prepareContent. rewrite H.
  unfold bind at 1. cbn [setLoadingStage modify]. unfold bind at 1.
  destruct (uploadFileToGemini f (env_apiKey env) (env_upload_start env)
              (env_upload_bytes env) _) as [[[name uri]|e|] m2]; reflexivity.
Qed.

Lemma text_eqb_eq a b : text_eqb a b = true -> a = b.
Proof.
  revert b. induction a as [|x a IH]; intros [|y b] H; try discriminate H.
  - reflexivity.
  - cbn [text_eqb] in H. apply andb_prop in H. destruct H as [Hx Ha].
    apply N.eqb_eq in Hx. subst y. rewrite (IH b Ha). reflexivity.
Qed.

(** The upload helper on a server that grants the session and accepts the
    bytes: both requests are made and the file is returned. *)
Lemma uploadFileToGemini_succeeds f apiKey s b uploadUrl fileName fileUri m :
  start_ok s = true ->
  start_upload_url s = Some uploadUrl -> uploadUrl <> [] ->
  bytes_ok b = true ->
  bytes_file b = Fulfilled (fileName, fileUri) ->
  uploadFileToGemini f apiKey (Some (Fulfilled s)) (Some (Fulfilled b)) m =
  (Returned (fileName, fileUri),
   mkMachine (ui m)
     (trace m ++ [Net (UploadStart apiKey f); Net (UploadBytes uploadUrl f)])).
Proof.
  intros Hs Hu Hne Hb Hf. unfold uploadFileToGemini. run_monad.
  rewrite Hs. run_monad. rewrite Hu.
  destruct uploadUrl as [|c url]; [contradiction|].
  run_monad. rewrite Hb. run_monad. rewrite Hf. run_monad.
  rewrite <- app_assoc. reflexivity.
Qed.

(** When the upload helper returns, the server had granted a session with
    a non-empty upload URL and accepted the bytes. *)
Lemma uploadFileToGemini_granted f apiKey start transfer m name uri :
  fst (uploadFileToGemini f apiKey start transfer m) = Returned (name, uri) ->
  exists s b uploadUrl,
    start = Some (Fulfilled s) /\ start_ok s = true /\
    start_upload_url s = Some uploadUrl /\ uploadUrl <> [] /\
    transfer = Some (Fulfilled b) /\ bytes_ok b = true /\
    bytes_file b = Fulfilled (name, uri).
Proof.
  unfold uploadFileToGemini. run_monad.
  destruct start as [[e|s]|]; run_monad; try discriminate.
  destruct (start_ok s) eqn:Hs; run_monad; try discriminate.
  destruct (start_upload_url s) as [[|c url]|] eqn:Hu; run_monad; try discriminate.
  destruct transfer as [[e|b]|]; run_monad; try discriminate.
  destruct (bytes_ok b) eqn:Hb; run_monad; try discriminate.
  destruct (bytes_file b) as [e|[n u]] eqn:Hf; run_monad; try discriminate.
  intros H. injection H as -> ->.
  exists s, b, (c :: url). repeat split; auto. discriminate.
Qed.

(** The poll returns with the state ACTIVE only when the server answered
    PROCESSING some number of times and then ACTIVE. *)
Lemma pollLoop_active fileName apiKey checks :
  forall m,
    fst (pollLoop fileName apiKey checks (SString (lit "PROCESSING")) m)
      = Returned (SString (lit "ACTIVE")) ->
    exists n rest,
      checks = repeat (statusReply (lit "PROCESSING")) n
                 ++ statusReply (lit "ACTIVE") :: rest.
Proof.
  induction checks as [|check checks IH]; intros m H.
  - cbn [pollLoop] in H.
    change (state_is (SString (lit "PROCESSING")) (lit "PROCESSING")) with true in H.
    cbv iota in H. revert H. run_monad. discriminate.
  - destruct check as [e|[ok st]].
    + cbn [pollLoop] in H.
      change (state_is (SString (lit "PROCESSING")) (lit "PROCESSING")) with true in H.
      cbv iota in H. revert H. run_monad. discriminate.
    + destruct ok.
      * destruct st as [e|v].
        { cbn [pollLoop] in H.
          change (state_is (SString (lit "PROCESSING")) (lit "PROCESSING")) with true in H.
          cbv iota in H. revert H. run_monad. cbn [status_ok status_state]. run_monad.
          discriminate. }
        rewrite (pollLoop_step fileName apiKey (mkStatus true (Fulfilled v)) v checks m
                   eq_refl eq_refl) in H.
        cbv zeta in H.
        destruct (state_is v (lit "FAILED")) eqn:Hfailed; [discriminate H|].
        destruct (state_is v (lit "PROCESSING")) eqn:Hproc.
        { destruct v as [|t]; [discriminate Hproc|].
          cbn [state_is] in Hproc. apply text_eqb_eq in Hproc. subst t.
          destruct (IH _ H) as [n [rest ->]].
          exists (S n), rest. reflexivity. }
        rewrite pollLoop_exit in H by exact Hproc.
        cbn [fst] in H. injection H as ->.
        exists 0%nat, checks. reflexivity.
      * rewrite pollLoop_step_not_ok in H by reflexivity.
        rewrite pollLoop_exit in H by reflexivity.
        discriminate H.
Qed.

Lemma awaitActive_returned fileName apiKey checks m :
  fst (awaitActive fileName apiKey checks m) = Returned tt ->
  exists n rest,
    checks = repeat (statusReply (lit "PROCESSING")) n
               ++ statusReply (lit "ACTIVE") :: rest.
Proof.
  unfold awaitActive, bind. intros H.
  destruct (pollLoop fileName apiKey checks (SString (lit "PROCESSING")) m)
    as [[v|e|] m1] eqn:Hp; try discriminate H.
  destruct (state_is v (lit "ACTIVE")) eqn:Ha; [|discriminate H].
  destruct v as [|t]; [discriminate Ha|].
  cbn [state_is] in Ha. apply text_eqb_eq in Ha. subst t.
  apply (pollLoop_active fileName apiKey checks m). rewrite Hp. reflexivity.
Qed.

Lemma awaitActive_succeeds fileName apiKey n rest m :
  awaitActive fileName apiKey
    (repeat (statusReply (lit "PROCESSING")) n ++ statusReply (lit "ACTIVE") :: rest) m =
  (Returned tt,
   mkMachine (ui m)
     (trace m ++ concat (repeat [Slept 2000; Net (FileStatus fileName apiKey)] (S n)))).
Proof.
  unfold awaitActive, bind.
  rewrite (pollLoop_until fileName apiKey n (lit "ACTIVE") rest m) by reflexivity.
  reflexivity.
Qed.

(** The remote branch against a server that lets the upload through. *)
Lemma prepareContent_remote env f m uploadUrl fileName fileUri n :
  isLargeFile f = true ->
  upload_goes_through env uploadUrl fileName fileUri n ->
  prepareContent env f m =
  (Returned (FileData (file_type f) fileUri),
   mkMachine
     (snd (setLoadingStage (lit "Processing video content...") m)).(ui)
     (trace m ++ Net (UploadStart (env_apiKey env) f)
        :: Net (UploadBytes uploadUrl f)
        :: concat (repeat [Slept 2000; Net (FileStatus fileName (env_apiKey env))] (S n)))).
Proof.
  intros Hlarge (s & b & rest & Hstart & Hok & Hurl & Hne & Hbytes & Hbok & Hfile & Hchecks).
  rewrite (prepareContent_large env f m Hlarge).
  rewrite Hstart, Hbytes, Hchecks.
  rewrite (uploadFileToGemini_succeeds f (env_apiKey env) s b uploadUrl fileName fileUri)
    by assumption.
  rewrite awaitActive_succeeds.
  cbn [setLoadingStage modify snd ui trace]. rewrite <- app_assoc. reflexivity.
Qed.

(** C1.  [runAnalysis] picks the strategy by the file size alone.  A file
    of at most 20 MiB is read by the FileReader and becomes an [inlineData]
    part holding the base64 payload of the data URL; nothing is sent over
    the network and no timer is awaited for it.  A file above 20 MiB (and up
    to the 2000 MiB ceiling) is never read inline: it is first handed to
    [uploadFileToGemini] and then polled.  It becomes a content part exactly
    when the server lets the upload through and reports the file ACTIVE
    after some PROCESSING replies; the part is then the [fileData] part of
    the URI that the upload returned, and what was done for it is the
    session start, the byte transfer to the URL of the session, and one
    sleep and one status check per reply. *)
Theorem strategy_by_size env f m :
  (file_size f <= 20 * 1024 * 1024 ->
   exists u,
     prepareContent env f m =
       (match env_data_url env with
        | None => Pending
        | Some (Rejected e) => Thrown e
        | Some (Fulfilled dataUrl) =>
            Returned (InlineData (file_type f) (nth_error (split_on (chr ",") dataUrl) 1))
        end,
        mkMachine u (trace m ++ [ReadAsDataURL f])) /\
     loadingStage u = lit "Encoding video (Inline)...") /\
  (20 * 1024 * 1024 < file_size f <= 2000 * 1024 * 1024 ->
   (exists evs,
      trace (snd (prepareContent env f m)) =
        trace m ++ Net (UploadStart (env_apiKey env) f) :: evs /\
      Forall remote_event evs) /\
   (forall part,
      fst (prepareContent env f m) = Returned part <->
      exists uploadUrl fileName fileUri n,
        upload_goes_through env uploadUrl fileName fileUri n /\
        part = FileData (file_type f) fileUri) /\
   (forall uploadUrl fileName fileUri n,
      upload_goes_through env uploadUrl fileName fileUri n ->
      trace (snd (prepareContent env f m)) =
        trace m ++ Net (UploadStart (env_apiKey env) f)
          :: Net (UploadBytes uploadUrl f)
          :: concat (repeat [Slept 2000; Net (FileStatus fileName (env_apiKey env))] (S n)) /\
      loadingStage (ui (snd (prepareContent env f m))) = lit "Processing video content...")).
Proof.
  split.
  - intros Hsize. unfold prepareContent, isLargeFile.
    replace (file_size f >? 20 * 1024 * 1024) with false
      by (symmetry; rewrite Z.gtb_ltb; apply Z.ltb_ge; exact Hsize).
    eexists. split.
    + unfold fileToBase64. run_monad.
      destruct (env_data_url env) as [[e|d]|]; run_monad; reflexivity.
    + reflexivity.
  - intros [Hlo Hhi].
    assert (Hlarge : isLargeFile f = true)
      by (unfold isLargeFile; rewrite Z.gtb_ltb; apply Z.ltb_lt; exact Hlo).
    split; [|split].
    + rewrite (prepareContent_large env f m Hlarge).
      set (m1 := snd (setLoadingStage (lit "Uploading to Secure Storage...") m)).
      assert (Hm1 : trace m1 = trace m) by reflexivity.
      destruct (uploadFileToGemini_trace f (env_apiKey env) (env_upload_start env)
                  (env_upload_bytes env) m1) as [evs1 [Ht1 Hp1]].
      destruct (uploadFileToGemini f (env_apiKey env) (env_upload_start env)
                  (env_upload_bytes env) m1) as [[[name uri]|e|] m2];
        cbn [fst snd] in Ht1.
      * set (m3 := snd (setLoadingStage (lit "Processing video content...") m2)).
        assert (Hm3 : trace m3 = trace m2) by reflexivity.
        destruct (awaitActive_first name (env_apiKey env) (env_status_checks env) m3)
          as [evs2 [Ht2 Hp2]].
        exists (evs1 ++ Slept 2000 :: Net (FileStatus name (env_apiKey env)) :: evs2).
        assert (Htr : trace (snd (awaitActive name (env_apiKey env) (env_status_checks env) m3)) =
                      trace m ++ Net (UploadStart (env_apiKey env) f)
                        :: evs1 ++ Slept 2000 :: Net (FileStatus name (env_apiKey env)) :: evs2).
        { rewrite Ht2, Hm3, Ht1, Hm1, <- app_assoc. reflexivity. }
        assert (Hev : Forall remote_event
                  (evs1 ++ Slept 2000 :: Net (FileStatus name (env_apiKey env)) :: evs2)).
        { apply Forall_app. split; [exact Hp1|]. repeat constructor. exact Hp2. }
        destruct (awaitActive name (env_apiKey env) (env_status_checks env) m3)
          as [[[]|e|] m4]; cbn [fst snd] in Htr |- *;
          (split; [exact Htr | exact Hev]).
      * exists evs1. cbn [fst snd]. rewrite Ht1, Hm1.
        split; [reflexivity | exact Hp1].
      * exists evs1. cbn [fst snd]. rewrite Ht1, Hm1.
        split; [reflexivity | exact Hp1].
    + intros part. split.
      * rewrite (prepareContent_large env f m Hlarge).
        set (m1 := snd (setLoadingStage (lit "Uploading to Secure Storage...") m)).
        pose proof (uploadFileToGemini_granted f (env_apiKey env) (env_upload_start env)
                      (env_upload_bytes env) m1) as Hret.
        destruct (uploadFileToGemini f (env_apiKey env) (env_upload_start env)
                    (env_upload_bytes env) m1) as [[[name uri]|e|] m2];
          cbn [fst snd] in Hret |- *; try discriminate.
        set (m3 := snd (setLoadingStage (lit "Processing video content...") m2)).
        pose proof (awaitActive_returned name (env_apiKey env) (env_status_checks env) m3)
          as Hact.
        destruct (awaitActive name (env_apiKey env) (env_status_checks env) m3)
          as [[[]|e|] m4]; cbn [fst snd] in Hact |- *; try discriminate.
        intros Hpart. injection Hpart as <-.
        destruct (Hret name uri eq_refl)
          as (s & b & url & Hstart & Hok & Hurl & Hne & Hbytes & Hbok & Hfile).
        destruct (Hact eq_refl) as (n & rest & Hchecks).
        exists url, name, uri, n. split; [|reflexivity].
        exists s, b, rest. repeat split; assumption.
      * intros (url & name & uri & n & Hthrough & ->).
        rewrite (prepareContent_remote env f m url name uri n Hlarge Hthrough).
        reflexivity.
    + intros url name uri n Hthrough.
      rewrite (prepareContent_remote env f m url name uri n Hlarge Hthrough).
      split; reflexivity.
Qed.

Lemma strategy_by_size_witness :
  (exists u,
     prepareContent sampleEnv (clip 5) (mkMachine initialUi []) =
       (Returned (InlineData (lit "video/mp4") (Some (lit "AAAA"))),
        mkMachine u [ReadAsDataURL (clip 5)]) /\
     loadingStage u = lit "Encoding video (Inline)...") /\
  fst (prepareContent sampleEnv (clip 50) (mkMachine initialUi []))
    = Returned (FileData (lit "video/mp4") (lit "https://files/abc")) /\
  trace (snd (prepareContent sampleEnv (clip 50) (mkMachine initialUi []))) =
    [Net (UploadStart (lit "key") (clip 50));
     Net (UploadBytes (lit "https://upload/session") (clip 50));
     Slept 2000; Net (FileStatus (lit "files/abc") (lit "key"));
     Slept 2000; Net (FileStatus (lit "files/abc") (lit "key"))].
Proof.
  assert (Hthrough : upload_goes_through sampleEnv (lit "https://upload/session")
                       (lit "files/abc") (lit "https://files/abc") 1).
  { eexists _, _, []. repeat split. discriminate. }
  split.
  - apply (proj1 (strategy_by_size sampleEnv (clip 5) (mkMachine initialUi []))).
    simpl. lia.
  - destruct (proj2 (strategy_by_size sampleEnv (clip 50) (mkMachine initialUi []))
                ltac:(simpl; lia)) as [_ [Hiff Hdone]].
    split.
    + apply Hiff. exists (lit "https://upload/session"), (lit "files/abc"),
        (lit "https://files/abc"), 1%nat. split; [exact Hthrough | reflexivity].
    + apply (Hdone _ _ _ _ Hthrough).
Defined.

(** ** Parts of the React state that a program leaves alone *)

Section Preserves.
Context {B : Type} (proj : UiState -> B).

Lemma preserves_ret {A} (a : A) : preserves proj (ret a).
Proof. intros m. reflexivity. Qed.

Lemma preserves_throw {A} e : preserves proj (@throw A e).
Proof. intros m. reflexivity. Qed.

Lemma preserves_pending {A} : preserves proj (@pending A).
Proof. intros m. reflexivity. Qed.

Lemma preserves_emit ev : preserves proj (emit ev).
Proof. intros m. reflexivity. Qed.

Lemma preserves_get_ui : preserves proj get_ui.
Proof. intros m. reflexivity. Qed.

Lemma preserves_lift {A} (r : result A) : preserves proj (lift r).
Proof. intros m. reflexivity. Qed.

Lemma preserves_await {R} (p : option (settled R)) : preserves proj (await p).
Proof. destruct p as [[e|r]|]; intros m; reflexivity. Qed.

Lemma preserves_bind {A C} (c : M A) (k : A -> M C) :
  preserves proj c -> (forall a, preserves proj (k a)) ->
  preserves proj (bind c k).
Proof.
  intros Hc Hk m. unfold bind. specialize (Hc m).
  destruct (c m) as [[a|e|] m1]; cbn [snd] in Hc |- *; try exact Hc.
  rewrite (Hk a m1). exact Hc.
Qed.

Lemma preserves_tryCatchFinally {A} (body : M A) handler fin :
  preserves proj body -> (forall e, preserves proj (handler e)) ->
  preserves proj fin ->
  preserves proj (tryCatchFinally body handler fin).
Proof.
  intros Hb Hh Hf m. unfold tryCatchFinally. specialize (Hb m).
  destruct (body m) as [[a|e|] m1]; cbn [snd] in Hb |- *.
  - rewrite (preserves_bind fin (fun _ => ret a) Hf (fun _ => preserves_ret a) m1).
    exact Hb.
  - specialize (Hh e m1).
    destruct (handler e m1) as [[a|e'|] m2]; cbn [snd] in Hh |- *.
    + rewrite (preserves_bind fin (fun _ => ret a) Hf (fun _ => preserves_ret a) m2).
      congruence.
    + rewrite (preserves_bind fin (fun _ => throw e') Hf
                 (fun _ => preserves_throw e') m2).
      congruence.
    + congruence.
  - exact Hb.
Qed.
End Preserves.

Create HintDb preserves.
#[local] Hint Resolve preserves_ret preserves_throw preserves_pending
  preserves_emit preserves_get_ui preserves_lift preserves_await : preserves.

(** Walks through a program; a setter is accepted when it visibly writes
    another cell than the one projected. *)
Ltac preserves_solve :=
  repeat first
    [ solve [auto with preserves]
    | apply preserves_bind; [|intros ?]
    | apply preserves_tryCatchFinally; [| intros ? |]
    | solve [intros ?; reflexivity]
    | match goal with
      | |- preserves _ (if ?b then _ else _) => destruct b
      | |- preserves _ (match ?x with _ => _ end) => destruct x
      end ].

(** The ingestion and the retry loop only write the loading stage and the
    retry counter. *)
Section StageOnly.
Context {B : Type} (proj : UiState -> B).
Hypothesis proj_stage : forall v, preserves proj (setLoadingStage v).
Hypothesis proj_retry : forall v, preserves proj (setRetryCount v).

Lemma uploadFileToGemini_preserves f apiKey start transfer :
  preserves proj (uploadFileToGemini f apiKey start transfer).
Proof. unfold uploadFileToGemini. preserves_solve. Qed.

Lemma getFileState_preserves fileName apiKey reply :
  preserves proj (getFileState fileName apiKey reply).
Proof. unfold getFileState. preserves_solve. Qed.

Lemma pollLoop_preserves fileName apiKey checks :
  forall fileState, preserves proj (pollLoop fileName apiKey checks fileState).
Proof.
  pose proof (getFileState_preserves fileName apiKey) as Hget.
  induction checks as [|check checks IH]; intros fileState; cbn [pollLoop];
    unfold sleep; preserves_solve.
Qed.

Lemma awaitActive_preserves fileName apiKey checks :
  preserves proj (awaitActive fileName apiKey checks).
Proof.
  pose proof (pollLoop_preserves fileName apiKey checks) as Hpoll.
  unfold awaitActive. preserves_solve.
Qed.

Lemma prepareContent_preserves env f : preserves proj (prepareContent env f).
Proof.
  pose proof (uploadFileToGemini_preserves f (env_apiKey env)
                (env_upload_start env) (env_upload_bytes env)) as Hup.
  pose proof (fun n => awaitActive_preserves n (env_apiKey env)
                         (env_status_checks env)) as Hwait.
  unfold prepareContent, fileToBase64. preserves_solve.
Qed.

Lemma retryLoop_preserves part outcomes :
  forall attempt, preserves proj (retryLoop part outcomes attempt).
Proof.
  induction outcomes as [|o outcomes IH]; intros attempt; cbn [retryLoop];
    unfold announceRetry, sleep; preserves_solve.
Qed.

Lemma invokeWithRetry_preserves part outcomes :
  preserves proj (invokeWithRetry part outcomes).
Proof. apply retryLoop_preserves. Qed.
End StageOnly.

(** Only [handleFileChange] writes the selected file. *)
Lemma runAnalysis_preserves_file env : preserves file (runAnalysis env).
Proof.
  assert (Hp : forall f, preserves file (prepareContent env f))
    by (intros f; apply prepareContent_preserves; intros v m; reflexivity).
  assert (Hr : forall part, preserves file (invokeWithRetry part (env_generations env)))
    by (intros part; apply invokeWithRetry_preserves; intros v m; reflexivity).
  unfold runAnalysis, resetRun, reportFailure, analyse, selectTab.
  preserves_solve.
Qed.

(** ** File selection *)

(** Whatever the user did before, the selected file is within the limit. *)
Lemma selected_file_within_limit m :
  reachable m ->
  forall f, file (ui m) = Some f -> file_size f <= MAX_FILE_SIZE_MB * 1024 * 1024.
Proof.
  induction 1 as [|m selected Hm IH|m env Hm IH]; intros f Hf.
  - discriminate Hf.
  - destruct selected as [sel|]; [|exact (IH f Hf)].
    unfold handleFileChange in Hf.
    destruct (file_size sel >? MAX_FILE_SIZE_MB * 1024 * 1024) eqn:Hbig.
    + exact (IH f Hf).
    + cbn in Hf. injection Hf as <-.
      rewrite Z.gtb_ltb in Hbig. apply Z.ltb_ge in Hbig. exact Hbig.
  - rewrite runAnalysis_preserves_file in Hf. exact (IH f Hf).
Qed.

(** C7.  Selecting a file larger than 2000 MiB is refused on the spot: the
    handler only sets the error ("File too large (...MB).") and its detail
    ("The limit is 2000MB."), performs no request or other outside effect,
    and leaves the selected file as it was.  Hence the file never becomes
    the selected one, the only file on which [runAnalysis] chooses a
    strategy. *)
Theorem oversized_file_rejected f m :
  2000 * 1024 * 1024 < file_size f ->
  let run := handleFileChange (Some f) m in
  fst run = Returned tt /\
  trace (snd run) = trace m /\
  file (ui (snd run)) = file (ui m) /\
  error (ui (snd run)) =
    Some (lit "File too large (" ++ megabytes_toFixed1 (file_size f) ++ lit "MB).") /\
  errorDetails (ui (snd run)) = Some (lit "The limit is 2000MB.") /\
  (reachable m -> file (ui (snd run)) <> Some f).
Proof.
  intros Hbig. cbv zeta. unfold handleFileChange.
  replace (file_size f >? MAX_FILE_SIZE_MB * 1024 * 1024) with true
    by (symmetry; rewrite Z.gtb_ltb; apply Z.ltb_lt; exact Hbig).
  cbn [setError setErrorDetails modify bind fst snd ui trace error errorDetails file].
  repeat split.
  intros Hm Hf. apply (selected_file_within_limit m Hm) in Hf.
  unfold MAX_FILE_SIZE_MB in Hf. lia.
Qed.

Lemma oversized_file_rejected_witness :
  let run := handleFileChange (Some (clip 2001)) (mkMachine initialUi []) in
  fst run = Returned tt /\
  trace (snd run) = [] /\
  file (ui (snd run)) = None /\
  error (ui (snd run)) = Some (lit "File too large (2001.0MB).") /\
  errorDetails (ui (snd run)) = Some (lit "The limit is 2000MB.") /\
  (reachable (mkMachine initialUi []) -> file (ui (snd run)) <> Some (clip 2001)).
Proof.
  apply (oversized_file_rejected (clip 2001) (mkMachine initialUi [])).
  simpl. lia.
Defined.

(** ** The run as a whole *)

(** Up to two retryable failures followed by a success give the text of
    the successful response. *)
Lemma invokeWithRetry_succeeds part errs r rest m :
  Forall (fun e => isRetryable e = true) errs ->
  (length errs <= 2)%nat ->
  fst (invokeWithRetry part (map Rejected errs ++ Fulfilled r :: rest) m)
    = Returned (text_or_empty r).
Proof.
  intros Hall Hlen. unfold invokeWithRetry.
  destruct errs as [|e1 [|e2 [|e3 errs]]]; cbn [map app]; simpl in Hlen; try lia.
  - rewrite retryLoop_fulfilled by (unfold MAX_RETRIES; lia). reflexivity.
  - inversion Hall as [|? ? H1 _]; subst.
    rewrite (retryLoop_retry _ _ _ 0) by ((unfold MAX_RETRIES; lia) || assumption).
    rewrite retryLoop_fulfilled by (unfold MAX_RETRIES; lia). reflexivity.
  - inversion Hall as [|? ? H1 Hall1]; subst.
    inversion Hall1 as [|? ? H2 _]; subst.
    rewrite (retryLoop_retry _ _ _ 0) by ((unfold MAX_RETRIES; lia) || assumption).
    rewrite (retryLoop_retry _ _ _ (0 + 1)) by ((unfold MAX_RETRIES; lia) || assumption).
    rewrite retryLoop_fulfilled by (unfold MAX_RETRIES; lia). reflexivity.
Qed.

(** With a file selected and an API key, a run is the reset followed by
    the guarded body. *)
Lemma runAnalysis_started env f m :
  file (ui m) = Some f ->
  env_apiKey env <> [] ->
  runAnalysis env m =
  tryCatchFinally
    (contentPart <- prepareContent env f ;;
     setLoadingStage (lit "Analyzing movements & structure...") ;;
     analyse env contentPart)
    reportFailure
    (setIsAnalyzing false)
    (snd (resetRun m)).
Proof.
  intros Hf Hkey. unfold runAnalysis. unfold bind at 1. cbn [get_ui].
  rewrite Hf. destruct (env_apiKey env) as [|c key]; [contradiction|].
  reflexivity.
Qed.

(** What the [catch] and [finally] clauses leave behind. *)
Lemma failed_run_state (body : M unit) e m m' :
  body m = (Thrown e, m') ->
  let run := tryCatchFinally body reportFailure (setIsAnalyzing false) m in
  fst run = Returned tt /\
  error (ui (snd run)) = Some (lit "Analysis Failed") /\
  errorDetails (ui (snd run)) = Some (message_or_json e) /\
  isAnalyzing (ui (snd run)) = false /\
  analysisData (ui (snd run)) = analysisData (ui m') /\
  rawResponse (ui (snd run)) = rawResponse (ui m') /\
  trace (snd run) = trace m' ++ [ConsoleError (lit "Analysis Error") e].
Proof.
  intros Hb. cbv zeta. unfold tryCatchFinally. rewrite Hb.
  repeat split.
Qed.

(** C10.  When the inference call succeeds (at once, or after one or two
    retryable failures) with an empty or absent text, the run does not
    extract anything: it stores the empty raw response, throws
    "Empty response from AI.", and ends in the failed state, with error
    "Analysis Failed", that message as detail, and no analysis data. *)
Theorem empty_response_fails_run env f m part errs r rest :
  file (ui m) = Some f ->
  env_apiKey env <> [] ->
  fst (prepareContent env f (snd (resetRun m))) = Returned part ->
  env_generations env = map Rejected errs ++ Fulfilled r :: rest ->
  Forall (fun e => isRetryable e = true) errs ->
  (length errs <= 2)%nat ->
  r = None \/ r = Some [] ->
  let run := runAnalysis env m in
  fst run = Returned tt /\
  error (ui (snd run)) = Some (lit "Analysis Failed") /\
  errorDetails (ui (snd run)) = Some (lit "Empty response from AI.") /\
  analysisData (ui (snd run)) = None /\
  rawResponse (ui (snd run)) = [] /\
  isAnalyzing (ui (snd run)) = false.
Proof.
  intros Hf Hkey Hprep Hgens Hall Hlen Hr. cbv zeta.
  rewrite (runAnalysis_started env f m Hf Hkey).
  set (m0 := snd (resetRun m)) in *.
  assert (Hdata0 : analysisData (ui m0) = None) by reflexivity.
  destruct (prepareContent env f m0) as [res m2] eqn:Hp. cbn [fst] in Hprep. subst res.
  assert (Hdata2 : analysisData (ui m2) = None).
  { rewrite <- Hdata0. change m2 with (snd (Returned part, m2)). rewrite <- Hp.
    apply prepareContent_preserves; intros v x; reflexivity. }
  set (m3 := snd (setLoadingStage (lit "Analyzing movements & structure...") m2)).
  assert (Hdata3 : analysisData (ui m3) = None) by exact Hdata2.
  pose proof (invokeWithRetry_succeeds part errs r rest m3 Hall Hlen) as Hres.
  rewrite <- Hgens in Hres.
  assert (Hempty : text_or_empty r = []) by (destruct Hr as [-> | ->]; reflexivity).
  rewrite Hempty in Hres.
  destruct (invokeWithRetry part (env_generations env) m3) as [res m4] eqn:Hinv.
  cbn [fst] in Hres. subst res.
  assert (Hdata4 : analysisData (ui m4) = None).
  { rewrite <- Hdata3. change m4 with (snd (Returned (@nil N), m4)). rewrite <- Hinv.
    apply invokeWithRetry_preserves; intros v x; reflexivity. }
  assert (Hbody :
    (contentPart <- prepareContent env f ;;
     setLoadingStage (lit "Analyzing movements & structure...") ;;
     analyse env contentPart) m0 =
    (Thrown (Error (lit "Empty response from AI.")), snd (setRawResponse [] m4))).
  { unfold bind at 1. rewrite Hp. unfold bind at 1.
    change (setLoadingStage (lit "Analyzing movements & structure...") m2)
      with (Returned tt, m3).
    cbv iota. unfold analyse, bind at 1. rewrite Hinv. reflexivity. }
  destruct (failed_run_state _ _ _ _ Hbody) as [H1 [H2 [H3 [H4 [H5 [H6 _]]]]]].
  repeat split; try assumption.
  rewrite H5. exact Hdata4.
Qed.

Lemma empty_response_fails_run_witness :
  let env := mkEnv (lit "key") None None [] (Some (Fulfilled (lit "data:video/mp4;base64,AAAA")))
               [Rejected (mkError (Some 503) None None (lit "{}")); Fulfilled None]
               (fun _ => false) in
  let m := snd (handleFileChange (Some (clip 5)) (mkMachine initialUi [])) in
  let run := runAnalysis env m in
  fst run = Returned tt /\
  error (ui (snd run)) = Some (lit "Analysis Failed") /\
  errorDetails (ui (snd run)) = Some (lit "Empty response from AI.") /\
  analysisData (ui (snd run)) = None /\
  rawResponse (ui (snd run)) = [] /\
  isAnalyzing (ui (snd run)) = false.
Proof.
  apply (empty_response_fails_run
           (mkEnv (lit "key") None None [] (Some (Fulfilled (lit "data:video/mp4;base64,AAAA")))
              [Rejected (mkError (Some 503) None None (lit "{}")); Fulfilled None]
              (fun _ => false))
           (clip 5)
           (snd (handleFileChange (Some (clip 5)) (mkMachine initialUi [])))
           (InlineData (lit "video/mp4") (Some (lit "AAAA")))
           [mkError (Some 503) None None (lit "{}")] None []).
  - reflexivity.
  - discriminate.
  - reflexivity.
  - reflexivity.
  - repeat constructor.
  - simpl. lia.
  - left. reflexivity.
Defined.

(** ** Extraction *)

(** C9, as the code has it.  When the direct parse, the parse of the
    fenced interior and the parse of the text between the first opening and
    the last closing brace all fail, [tryParseJSON] returns nothing: it
    throws an [Error] with the fixed message
    "Could not parse JSON from response.".  The error does not hold the raw
    text; [runAnalysis] has stored the text in [rawResponse] before it
    called the extractor, and it is still there after the failure, while no
    analysis data is stored. *)
Theorem extraction_failure t env part rest m :
  JSON_parse t = None ->
  (forall inner, regex_match fence_pattern t = Some (Some inner) ->
                 JSON_parse inner = None) ->
  (indexOf (chr "{") t <> -1 -> lastIndexOf (chr "}") t <> -1 ->
   JSON_parse (substring t (indexOf (chr "{") t) (lastIndexOf (chr "}") t + 1)) = None) ->
  t <> [] ->
  env_generations env = Fulfilled (Some t) :: rest ->
  tryParseJSON t = Thrown (Error (lit "Could not parse JSON from response.")) /\
  (let run := analyse env part m in
   fst run = Thrown (Error (lit "Could not parse JSON from response.")) /\
   rawResponse (ui (snd run)) = t /\
   analysisData (ui (snd run)) = analysisData (ui m)).
Proof.
  intros Hdirect Hfence Hbraces Hne Hgens.
  assert (Hthrow : tryParseJSON t = Thrown (Error (lit "Could not parse JSON from response."))).
  { unfold tryParseJSON, try_parse. rewrite Hdirect.
    destruct (regex_match fence_pattern t) as [[inner|]|] eqn:Hm.
    1: rewrite (Hfence inner eq_refl).
    all: destruct (indexOf (chr "{") t =? -1) eqn:Ho;
      destruct (lastIndexOf (chr "}") t =? -1) eqn:Hc; cbn [negb andb];
      try reflexivity;
      apply Z.eqb_neq in Ho; apply Z.eqb_neq in Hc;
      rewrite (Hbraces Ho Hc); reflexivity. }
  split; [exact Hthrow|]. cbv zeta.
  assert (Hrun : analyse env part m =
            (Thrown (Error (lit "Could not parse JSON from response.")),
             snd (setRawResponse t
                    (mkMachine (ui m) (trace m ++ [Net (GenerateContent part)]))))).
  { unfold analyse, invokeWithRetry. rewrite Hgens.
    unfold bind at 1. rewrite retryLoop_fulfilled by (unfold MAX_RETRIES; lia).
    destruct t as [|c t']; [contradiction|].
    cbn [text_or_empty]. unfold bind at 1. cbn [setRawResponse modify].
    unfold bind at 1. unfold lift. rewrite Hthrow. reflexivity. }
  rewrite Hrun. repeat split.
Qed.

Lemma extraction_failure_witness :
  let env := mkEnv (lit "key") None None [] None
               [Fulfilled (Some (lit "I could not watch the video."))]
               (fun _ => false) in
  let part := InlineData (lit "video/mp4") (Some (lit "AAAA")) in
  tryParseJSON (lit "I could not watch the video.")
    = Thrown (Error (lit "Could not parse JSON from response.")) /\
  (let run := analyse env part (mkMachine initialUi []) in
   fst run = Thrown (Error (lit "Could not parse JSON from response.")) /\
   rawResponse (ui (snd run)) = lit "I could not watch the video." /\
   analysisData (ui (snd run)) = analysisData initialUi).
Proof.
  apply (extraction_failure (lit "I could not watch the video.")
           (mkEnv (lit "key") None None [] None
              [Fulfilled (Some (lit "I could not watch the video."))]
              (fun _ => false))
           (InlineData (lit "video/mp4") (Some (lit "AAAA"))) []
           (mkMachine initialUi [])).
  - reflexivity.
  - intros inner H. discriminate H.
  - intros H. exfalso. apply H. reflexivity.
  - discriminate.
  - reflexivity.
Defined.

(** C9, as stated, fails: two different raw texts are answered with one
    and the same error value, whose message mentions neither; the error
    therefore cannot carry the raw text. *)
Lemma extraction_error_without_raw_text :
  tryParseJSON (lit "first reply") = tryParseJSON (lit "second reply") /\
  lit "first reply" <> lit "second reply" /\
  exists e,
    tryParseJSON (lit "first reply") = Thrown e /\
    err_message e = Some (lit "Could not parse JSON from response.") /\
    message_includes e (lit "first reply") = false /\
    includes (err_json e) (lit "first reply") = false.
Proof.
  split; [reflexivity|]. split; [discriminate|].
  eexists. split; [reflexivity|]. repeat split.
Qed.


(** ** [JSON.parse]: the fuel is enough *)

Lemma skip_ws_length t : (length (skip_ws t) <= length t)%nat.
Proof.
  induction t as [|c t IH]; cbn [skip_ws]; [lia|].
  destruct (is_json_ws c); cbn [length]; lia.
Qed.

Lemma skip_ws_cons t c r : skip_ws t = c :: r -> (length r < length t)%nat.
Proof.
  intros H. pose proof (skip_ws_length t) as Hl. rewrite H in Hl.
  cbn [length] in Hl. lia.
Qed.

Lemma parse_string_body_length t :
  forall s r, parse_string_body t = Some (s, r) -> (length r < length t)%nat.
Proof.
  assert (H : forall n t, (length t <= n)%nat ->
            forall s r, parse_string_body t = Some (s, r) -> (length r < length t)%nat).
  { induction n as [|n IH]; intros u Hn s r Hp.
    - destruct u; [discriminate Hp | cbn [length] in Hn; lia].
    - destruct u as [|c t1]; [discriminate Hp|]. cbn [parse_string_body] in Hp.
      cbn [length] in Hn |- *.
      destruct (N.eqb c quote).
      { injection Hp as _ <-. lia. }
      destruct (N.eqb c backslash).
      { destruct t1 as [|e t2]; [discriminate Hp|]. cbn [length] in Hn |- *.
        destruct (N.eqb e (chr "u")).
        - destruct t2 as [|h1 [|h2 [|h3 [|h4 t3]]]]; try discriminate Hp.
          destruct (hex_digit h1), (hex_digit h2), (hex_digit h3), (hex_digit h4);
            try discriminate Hp.
          destruct (parse_string_body t3) as [[s' r']|] eqn:Hrec; [|discriminate Hp].
          injection Hp as _ <-. cbn [length] in Hn |- *.
          apply IH in Hrec; lia.
        - destruct (unescape e); [|discriminate Hp].
          destruct (parse_string_body t2) as [[s' r']|] eqn:Hrec; [|discriminate Hp].
          injection Hp as _ <-. apply IH in Hrec; lia. }
      destruct (N.ltb c 32); [discriminate Hp|].
      destruct (parse_string_body t1) as [[s' r']|] eqn:Hrec; [|discriminate Hp].
      injection Hp as _ <-. apply IH in Hrec; lia. }
  intros s r. apply (H (length t)). lia.
Qed.

Lemma digits_length t :
  forall acc count a c r,
    digits acc count t = (a, c, r) -> (length r <= length t)%nat.
Proof.
  induction t as [|x t IH]; intros acc count a c r H; cbn [digits] in H.
  - injection H as _ _ <-. lia.
  - destruct (digit x).
    + apply IH in H. cbn [length]. lia.
    + injection H as _ _ <-. lia.
Qed.

Lemma take_sign_length t sign r :
  take_sign t = (sign, r) -> (length r <= length t)%nat.
Proof.
  unfold take_sign. destruct t as [|c t']; [intros H; injection H as _ <-; lia|].
  destruct (N.eqb c (chr "-")); intros H; injection H as _ <-; cbn [length]; lia.
Qed.

Lemma take_int_length t v r :
  take_int t = Some (v, r) -> (length r < length t)%nat.
Proof.
  unfold take_int. destruct t as [|c t']; [discriminate|].
  destruct (digit c) as [d|]; [|discriminate].
  destruct (d =? 0).
  - intros H. injection H as _ <-. cbn [length]. lia.
  - destruct (digits d 1 t') as [[int cnt] t1] eqn:Hd.
    intros H. injection H as _ <-. apply digits_length in Hd. cbn [length]. lia.
Qed.

Lemma take_frac_length int t m count r :
  take_frac int t = Some (m, count, r) -> (length r <= length t)%nat.
Proof.
  unfold take_frac. destruct t as [|p t']; [intros H; injection H as _ _ <-; lia|].
  destruct (N.eqb p (chr ".")); [|intros H; injection H as _ _ <-; lia].
  destruct (digits int 0 t') as [[m' c'] t1] eqn:Hd.
  destruct (c' =? 0); [discriminate|].
  intros H. injection H as _ _ <-. apply digits_length in Hd. cbn [length]. lia.
Qed.

Lemma take_exp_length t e r :
  take_exp t = Some (e, r) -> (length r <= length t)%nat.
Proof.
  unfold take_exp. destruct t as [|x t']; [intros H; injection H as _ <-; lia|].
  destruct (N.eqb x (chr "e") || N.eqb x (chr "E"));
    [|intros H; injection H as _ <-; lia].
  destruct (take_exp_sign t') as [esign r1] eqn:Hs.
  assert (Hr1 : (length r1 <= length t')%nat).
  { unfold take_exp_sign in Hs. destruct t' as [|s t'']; [injection Hs as _ <-; lia|].
    destruct (N.eqb s (chr "-")); [injection Hs as _ <-; cbn [length]; lia|].
    destruct (N.eqb s (chr "+")); injection Hs as _ <-; cbn [length]; lia. }
  destruct (digits 0 0 r1) as [[ev ecount] t1] eqn:Hd.
  destruct (ecount =? 0); [discriminate|].
  intros H. injection H as _ <-. apply digits_length in Hd. cbn [length]. lia.
Qed.

Lemma parse_number_length t v r :
  parse_number t = Some (v, r) -> (length r < length t)%nat.
Proof.
  unfold parse_number.
  destruct (take_sign t) as [sign t0] eqn:Hs. apply take_sign_length in Hs.
  destruct (take_int t0) as [[int t1]|] eqn:Hi; [|discriminate].
  apply take_int_length in Hi.
  destruct (take_frac int t1) as [[[m count] t2]|] eqn:Hf; [|discriminate].
  apply take_frac_length in Hf.
  destruct (take_exp t2) as [[e t3]|] eqn:He; [|discriminate].
  apply take_exp_length in He.
  intros H. injection H as _ <-. lia.
Qed.

Lemma parse_fuel_enough fuel :
  (forall t, (2 * length t < fuel)%nat -> consumed (parse_value fuel t) t) /\
  (forall acc t, (2 * length t + 1 < fuel)%nat ->
                 consumed (parse_elements fuel acc t) t) /\
  (forall acc t, (2 * length t + 1 < fuel)%nat ->
                 consumed (parse_members fuel acc t) t).
Proof.
  induction fuel as [|n [IHv [IHe IHm]]].
  - repeat split; intros; lia.
  - split; [|split].
    + (* parse_value *)
      intros t Hf. cbn [parse_value].
      destruct (skip_ws t) as [|c t1] eqn:Hws; [exact I|].
      apply skip_ws_cons in Hws.
      destruct (N.eqb c (chr "{")).
      { destruct (skip_ws t1) as [|c2 t2] eqn:Hws2; [exact I|].
        apply skip_ws_cons in Hws2.
        destruct (N.eqb c2 (chr "}")); [cbn; lia|].
        specialize (IHm [] t1 ltac:(lia)).
        destruct (parse_members n [] t1) as [[v r]| |]; cbn in IHm |- *; auto; lia. }
      destruct (N.eqb c (chr "[")).
      { destruct (skip_ws t1) as [|c2 t2] eqn:Hws2; [exact I|].
        apply skip_ws_cons in Hws2.
        destruct (N.eqb c2 (chr "]")); [cbn; lia|].
        specialize (IHe [] t1 ltac:(lia)).
        destruct (parse_elements n [] t1) as [[v r]| |]; cbn in IHe |- *; auto; lia. }
      destruct (N.eqb c quote).
      { destruct (parse_string_body t1) as [[s r]|] eqn:Hs; [|exact I].
        apply parse_string_body_length in Hs. cbn. lia. }
      destruct (starts_with (lit "true") (c :: t1)).
      { cbn [consumed]. pose proof (length_skipn 4 (c :: t1)) as Hl.
        cbn [length] in Hl |- *. rewrite Hl. lia. }
      destruct (starts_with (lit "false") (c :: t1)).
      { cbn [consumed]. pose proof (length_skipn 5 (c :: t1)) as Hl.
        cbn [length] in Hl |- *. rewrite Hl. lia. }
      destruct (starts_with (lit "null") (c :: t1)).
      { cbn [consumed]. pose proof (length_skipn 4 (c :: t1)) as Hl.
        cbn [length] in Hl |- *. rewrite Hl. lia. }
      destruct (parse_number (c :: t1)) as [[v r]|] eqn:Hn; [|exact I].
      apply parse_number_length in Hn. cbn [length] in Hn. cbn. lia.
    + (* parse_elements *)
      intros acc t Hf. cbn [parse_elements].
      specialize (IHv t ltac:(lia)).
      destruct (parse_value n t) as [[v rest]| |]; cbn [consumed] in IHv |- *; auto.
      destruct (skip_ws rest) as [|c rest'] eqn:Hws; [exact I|].
      apply skip_ws_cons in Hws.
      destruct (N.eqb c (chr ",")).
      { specialize (IHe (acc ++ [v]) rest' ltac:(lia)).
        destruct (parse_elements n (acc ++ [v]) rest') as [[v' r]| |];
          cbn in IHe |- *; auto; lia. }
      destruct (N.eqb c (chr "]")); [cbn; lia | exact I].
    + (* parse_members *)
      intros acc t Hf. cbn [parse_members].
      destruct (skip_ws t) as [|c t1] eqn:Hws; [exact I|].
      apply skip_ws_cons in Hws.
      destruct (N.eqb c quote); [|exact I].
      destruct (parse_string_body t1) as [[k rest]|] eqn:Hs; [|exact I].
      apply parse_string_body_length in Hs.
      destruct (skip_ws rest) as [|c2 rest2] eqn:Hws2; [exact I|].
      apply skip_ws_cons in Hws2.
      destruct (N.eqb c2 (chr ":")); [|exact I].
      specialize (IHv rest2 ltac:(lia)).
      destruct (parse_value n rest2) as [[v rest3]| |]; cbn [consumed] in IHv |- *; auto.
      destruct (skip_ws rest3) as [|c3 rest4] eqn:Hws3; [exact I|].
      apply skip_ws_cons in Hws3.
      destruct (N.eqb c3 (chr ",")).
      { specialize (IHm (set_member k v acc) rest4 ltac:(lia)).
        destruct (parse_members n (set_member k v acc) rest4) as [[v' r]| |];
          cbn in IHm |- *; auto; lia. }
      destruct (N.eqb c3 (chr "}")); [cbn; lia | exact I].
Qed.

(** [JSON_parse] gives its parser enough fuel: [None] always stands for a
    syntax error. *)
Lemma JSON_parse_fuel t : parse_value (2 * length t + 1) t <> OutOfFuel.
Proof.
  intros H. pose proof (proj1 (parse_fuel_enough (2 * length t + 1)) t ltac:(lia)) as Hc.
  rewrite H in Hc. exact Hc.
Qed.

(** ** The fence pattern *)

(** The matcher on [fence_pattern], step by step. *)
Lemma rmatch_fence_pattern t :
  rmatch fence_pattern t None (fun _ cap => Some cap) =
  if starts_with (lit "```") t then
    let t1 := skipn 3 t in
    match (if starts_with (lit "json") t1 then after_tag (skipn 4 t1) else None) with
    | Some x => Some x
    | None => after_tag t1
    end
  else None.
Proof. reflexivity. Qed.

Lemma no_fence_at c t :
  c <> chr "`" -> starts_with (lit "```") (c :: t) = false.
Proof.
  intros Hc. change (lit "```") with [chr "`"; chr "`"; chr "`"].
  cbn [starts_with]. destruct (N.eqb_spec (chr "`") c) as [<-|_]; [contradiction|].
  reflexivity.
Qed.

(** A text without a backtick has no fence. *)
Lemma regex_match_no_backtick t :
  ~ In (chr "`") t -> regex_match fence_pattern t = None.
Proof.
  induction t as [|c t IH]; intros Hn.
  - reflexivity.
  - cbn [regex_match]. rewrite rmatch_fence_pattern.
    rewrite no_fence_at by (intros ->; apply Hn; left; reflexivity).
    apply IH. intros Hin. apply Hn. right. exact Hin.
Qed.

(** The lazy star stops at the first place where the rest of the pattern
    matches. *)
Lemma lazy_star_stops {X} (k : text -> option X) s rest x :
  (forall a b, s = a ++ b -> b <> [] -> k (b ++ rest) = None) ->
  k rest = Some x ->
  star false any_char (s ++ rest) k = Some x.
Proof.
  induction s as [|c s IH]; intros Hfail Hok.
  - cbn [app]. destruct rest as [|c r]; cbn [star any_char]; rewrite Hok; reflexivity.
  - cbn [app star any_char].
    pose proof (Hfail [] (c :: s) eq_refl ltac:(discriminate)) as H0.
    cbn [app] in H0. rewrite H0.
    apply IH; [|exact Hok].
    intros a b Hs Hb. apply (Hfail (c :: a) b); [rewrite Hs; reflexivity | exact Hb].
Qed.

Lemma last_app_suffix (a b : text) : b <> [] -> last (a ++ b) 0%N = last b 0%N.
Proof.
  intros Hb. induction a as [|c a IH]; [reflexivity|].
  cbn [app]. destruct (a ++ b) eqn:Hab.
  - destruct a; [contradiction | discriminate Hab].
  - rewrite <- IH. reflexivity.
Qed.

(** ** Positions *)

Lemma indexOf_first c prefix t :
  ~ In c prefix -> indexOf c (prefix ++ c :: t) = Z.of_nat (length prefix).
Proof.
  induction prefix as [|x p IH]; intros Hn.
  - cbn [app indexOf]. rewrite N.eqb_refl. reflexivity.
  - cbn [app indexOf]. destruct (N.eqb_spec x c) as [->|_].
    + exfalso. apply Hn. left. reflexivity.
    + rewrite IH by (intros Hin; apply Hn; right; exact Hin).
      replace (Z.of_nat (length p) =? -1) with false by (symmetry; apply Z.eqb_neq; lia).
      cbn [length]. lia.
Qed.

Lemma lastIndexOf_absent c t : ~ In c t -> lastIndexOf c t = -1.
Proof.
  induction t as [|x t IH]; intros Hn; [reflexivity|].
  cbn [lastIndexOf]. rewrite IH by (intros Hin; apply Hn; right; exact Hin).
  cbn. destruct (N.eqb_spec x c) as [->|_]; [|reflexivity].
  exfalso. apply Hn. left. reflexivity.
Qed.

Lemma lastIndexOf_last c t suffix :
  ~ In c suffix -> lastIndexOf c (t ++ c :: suffix) = Z.of_nat (length t).
Proof.
  intros Hn. induction t as [|x t IH].
  - cbn [app lastIndexOf]. rewrite lastIndexOf_absent by exact Hn.
    cbn. rewrite N.eqb_refl. reflexivity.
  - cbn [app lastIndexOf]. rewrite IH.
    replace (Z.of_nat (length t) =? -1) with false by (symmetry; apply Z.eqb_neq; lia).
    cbn [length]. lia.
Qed.

Lemma substring_middle (prefix s suffix : text) :
  substring (prefix ++ s ++ suffix)
    (Z.of_nat (length prefix)) (Z.of_nat (length prefix + length s)) = s.
Proof.
  unfold substring. rewrite !length_app.
  set (p := length prefix). set (n := length s). set (q := length suffix).
  replace (Z.min (Z.max (Z.of_nat p) 0) (Z.of_nat (p + (n + q)))) with (Z.of_nat p) by lia.
  replace (Z.min (Z.max (Z.of_nat (p + n)) 0) (Z.of_nat (p + (n + q))))
    with (Z.of_nat (p + n)) by lia.
  replace (Z.min (Z.of_nat p) (Z.of_nat (p + n))) with (Z.of_nat p) by lia.
  replace (Z.max (Z.of_nat p) (Z.of_nat (p + n))) with (Z.of_nat (p + n)) by lia.
  replace (Z.to_nat (Z.of_nat (p + n) - Z.of_nat p)) with n by lia.
  rewrite Nat2Z.id. subst p n q.
  rewrite skipn_app, skipn_all, Nat.sub_diag. cbn [skipn app].
  rewrite firstn_app, firstn_all, Nat.sub_diag. cbn [firstn]. apply app_nil_r.
Qed.

(** ** [JSON.parse]: how a document cannot start *)

Lemma JSON_parse_backtick t : JSON_parse (chr "`" :: t) = None.
Proof.
  unfold JSON_parse. cbn [length]. rewrite Nat.add_1_r. reflexivity.
Qed.

Lemma no_json_tag_at c t :
  c <> chr "j" -> starts_with (lit "json") (c :: t) = false.
Proof.
  intros Hc. change (lit "json") with [chr "j"; chr "s"; chr "o"; chr "n"].
  cbn [starts_with]. destruct (N.eqb_spec (chr "j") c) as [<-|_]; [contradiction|].
  reflexivity.
Qed.

Lemma regex_match_here r t cap :
  rmatch r t None (fun _ c => Some c) = Some cap -> regex_match r t = Some cap.
Proof. intros H. destruct t; cbn [regex_match]; rewrite H; reflexivity. Qed.

(** Decides that a character is not in an explicit text. *)
Ltac not_in_text :=
  let H := fresh in
  intros H; vm_compute in H;
  repeat (destruct H as [H|H]; [discriminate H|]); exact H.

(** ** [JSON.parse]: more fuel changes nothing *)

Lemma parse_fuel_step fuel :
  (forall t, parse_value fuel t <> OutOfFuel ->
             parse_value (S fuel) t = parse_value fuel t) /\
  (forall acc t, parse_elements fuel acc t <> OutOfFuel ->
                 parse_elements (S fuel) acc t = parse_elements fuel acc t) /\
  (forall acc t, parse_members fuel acc t <> OutOfFuel ->
                 parse_members (S fuel) acc t = parse_members fuel acc t).
Proof.
  induction fuel as [|n [IHv [IHe IHm]]].
  - repeat split; intros; exfalso; auto.
  - split; [|split].
    + intros t H. cbn [parse_value] in H.
      change (parse_value (S (S n)) t) with
        (match skip_ws t with
         | [] => SyntaxError
         | c :: t1 =>
             if N.eqb c (chr "{") then
               match skip_ws t1 with
               | c2 :: t2 =>
                   if N.eqb c2 (chr "}") then Parsed (JObj [], t2)
                   else parse_members (S n) [] t1
               | [] => SyntaxError
               end
             else if N.eqb c (chr "[") then
               match skip_ws t1 with
               | c2 :: t2 =>
                   if N.eqb c2 (chr "]") then Parsed (JArr [], t2)
                   else parse_elements (S n) [] t1
               | [] => SyntaxError
               end
             else if N.eqb c quote then
               match parse_string_body t1 with
               | Some (s, rest) => Parsed (JStr s, rest)
               | None => SyntaxError
               end
             else if starts_with (lit "true") (c :: t1) then
               Parsed (JBool true, skipn 4 (c :: t1))
             else if starts_with (lit "false") (c :: t1) then
               Parsed (JBool false, skipn 5 (c :: t1))
             else if starts_with (lit "null") (c :: t1) then
               Parsed (JNull, skipn 4 (c :: t1))
             else of_option (parse_number (c :: t1))
         end).
      cbn [parse_value].
      destruct (skip_ws t) as [|c t1]; [reflexivity|].
      destruct (N.eqb c (chr "{")).
      { destruct (skip_ws t1) as [|c2 t2]; [reflexivity|].
        destruct (N.eqb c2 (chr "}")); [reflexivity|]. apply IHm. exact H. }
      destruct (N.eqb c (chr "[")).
      { destruct (skip_ws t1) as [|c2 t2]; [reflexivity|].
        destruct (N.eqb c2 (chr "]")); [reflexivity|]. apply IHe. exact H. }
      reflexivity.
    + intros acc t H. cbn [parse_elements] in H.
      change (parse_elements (S (S n)) acc t) with
        (match parse_value (S n) t with
         | Parsed (v, rest) =>
             match skip_ws rest with
             | c :: rest' =>
                 if N.eqb c (chr ",") then parse_elements (S n) (acc ++ [v]) rest'
                 else if N.eqb c (chr "]") then Parsed (JArr (acc ++ [v]), rest')
                 else SyntaxError
             | [] => SyntaxError
             end
         | SyntaxError => SyntaxError
         | OutOfFuel => OutOfFuel
         end).
      cbn [parse_elements].
      assert (Hv : parse_value n t <> OutOfFuel).
      { intros Hv. rewrite Hv in H. apply H. reflexivity. }
      rewrite (IHv t Hv).
      destruct (parse_value n t) as [[v rest]| |]; try reflexivity.
      destruct (skip_ws rest) as [|c rest']; [reflexivity|].
      destruct (N.eqb c (chr ",")); [apply IHe; exact H|]. reflexivity.
    + intros acc t H. cbn [parse_members] in H.
      change (parse_members (S (S n)) acc t) with
        (match skip_ws t with
         | c :: t1 =>
             if N.eqb c quote then
               match parse_string_body t1 with
               | Some (k, rest) =>
                   match skip_ws rest with
                   | c2 :: rest2 =>
                       if N.eqb c2 (chr ":") then
                         match parse_value (S n) rest2 with
                         | Parsed (v, rest3) =>
                             match skip_ws rest3 with
                             | c3 :: rest4 =>
                                 if N.eqb c3 (chr ",") then
                                   parse_members (S n) (set_member k v acc) rest4
                                 else if N.eqb c3 (chr "}") then
                                   Parsed (JObj (set_member k v acc), rest4)
                                 else SyntaxError
                             | [] => SyntaxError
                             end
                         | SyntaxError => SyntaxError
                         | OutOfFuel => OutOfFuel
                         end
                       else SyntaxError
                   | [] => SyntaxError
                   end
               | None => SyntaxError
               end
             else SyntaxError
         | [] => SyntaxError
         end).
      cbn [parse_members].
      destruct (skip_ws t) as [|c t1]; [reflexivity|].
      destruct (N.eqb c quote); [|reflexivity].
      destruct (parse_string_body t1) as [[k rest]|]; [|reflexivity].
      destruct (skip_ws rest) as [|c2 rest2]; [reflexivity|].
      destruct (N.eqb c2 (chr ":")); [|reflexivity].
      assert (Hv : parse_value n rest2 <> OutOfFuel).
      { intros Hv. rewrite Hv in H. apply H. reflexivity. }
      rewrite (IHv rest2 Hv).
      destruct (parse_value n rest2) as [[v rest3]| |]; try reflexivity.
      destruct (skip_ws rest3) as [|c3 rest4]; [reflexivity|].
      destruct (N.eqb c3 (chr ",")); [apply IHm; exact H|]. reflexivity.
Qed.

Lemma parse_value_more fuel k t :
  parse_value fuel t <> OutOfFuel ->
  parse_value (k + fuel) t = parse_value fuel t.
Proof.
  intros H. induction k as [|k IH]; [reflexivity|].
  cbn [Nat.add]. rewrite (proj1 (parse_fuel_step (k + fuel))); [exact IH|].
  rewrite IH. exact H.
Qed.

Lemma parse_value_fuel_le fuel fuel' t x :
  parse_value fuel t = Parsed x -> (fuel <= fuel')%nat ->
  parse_value fuel' t = Parsed x.
Proof.
  intros H Hle. replace fuel' with ((fuel' - fuel) + fuel)%nat by lia.
  rewrite parse_value_more; [exact H|]. rewrite H. discriminate.
Qed.

(** [JSON.parse] accepts [t] as [v] exactly when the parser, with some
    fuel, reads [v] and leaves white space only. *)
Lemma JSON_parse_iff t v :
  JSON_parse t = Some v <->
  exists fuel r, parse_value fuel t = Parsed (v, r) /\ skip_ws r = [].
Proof.
  unfold JSON_parse. split.
  - intros H. destruct (parse_value (2 * length t + 1) t) as [[v' r]| |] eqn:Hp;
      try discriminate H.
    destruct (skip_ws r) eqn:Hr; [|discriminate H]. injection H as ->.
    exists (2 * length t + 1)%nat, r. split; assumption.
  - intros (fuel & r & Hp & Hr).
    pose proof (JSON_parse_fuel t) as Hf.
    assert (Hsame : parse_value (2 * length t + 1) t = Parsed (v, r)).
    { pose proof (parse_value_fuel_le fuel (Nat.max fuel (2 * length t + 1)) t (v, r) Hp
                    ltac:(lia)) as Hbig.
      rewrite <- Hbig.
      replace (Nat.max fuel (2 * length t + 1))
        with ((Nat.max fuel (2 * length t + 1) - (2 * length t + 1))
              + (2 * length t + 1))%nat by lia.
      symmetry. apply parse_value_more. exact Hf. }
    rewrite Hsame, Hr. reflexivity.
Qed.

(** ** White space *)

Lemma json_ws_is_space c : is_json_ws c = true -> is_space c = true.
Proof.
  unfold is_json_ws, is_space. intros H.
  repeat (apply orb_prop in H; destruct H as [H|H]);
    apply N.eqb_eq in H; subst c; reflexivity.
Qed.

Lemma skip_ws_split t c t1 :
  skip_ws t = c :: t1 ->
  exists lead, t = lead ++ c :: t1 /\
               Forall (fun x => is_json_ws x = true) lead /\ is_json_ws c = false.
Proof.
  induction t as [|x t IH]; cbn [skip_ws]; [discriminate|].
  destruct (is_json_ws x) eqn:Hx.
  - intros H. destruct (IH H) as (lead & -> & Hl & Hc).
    exists (x :: lead). repeat split; [constructor; assumption | exact Hc].
  - intros H. injection H as -> ->. exists []. repeat split; [constructor | exact Hx].
Qed.

Lemma skip_ws_lead lead c x :
  Forall (fun x => is_json_ws x = true) lead -> is_json_ws c = false ->
  skip_ws (lead ++ c :: x) = c :: x.
Proof.
  induction 1 as [|y lead Hy _ IH]; intros Hc; cbn [app skip_ws].
  - rewrite Hc. reflexivity.
  - rewrite Hy. apply IH. exact Hc.
Qed.

Lemma skip_ws_app p c q x :
  skip_ws p = c :: q -> skip_ws (p ++ x) = c :: q ++ x.
Proof.
  intros H. destruct (skip_ws_split p c q H) as (lead & -> & Hl & Hc).
  rewrite <- app_assoc. cbn [app]. apply skip_ws_lead; assumption.
Qed.

Lemma skip_ws_idem t : skip_ws (skip_ws t) = skip_ws t.
Proof.
  induction t as [|c t IH]; [reflexivity|]. cbn [skip_ws].
  destruct (is_json_ws c) eqn:Hc; [exact IH|]. cbn [skip_ws]. rewrite Hc. reflexivity.
Qed.

Lemma parse_value_skip_ws fuel t : parse_value fuel (skip_ws t) = parse_value fuel t.
Proof. destruct fuel; [reflexivity|]. cbn [parse_value]. rewrite skip_ws_idem. reflexivity. Qed.

Lemma last_cons_nonempty (c : N) q d : q <> [] -> last (c :: q) d = last q d.
Proof. destruct q; [contradiction|reflexivity]. Qed.

Lemma last_snoc (p : text) c d : last (p ++ [c]) d = c.
Proof. apply last_last. Qed.

Lemma last_skip_ws p c q : skip_ws p = c :: q -> last p 0%N = last (c :: q) 0%N.
Proof.
  intros H. destruct (skip_ws_split p c q H) as (lead & -> & _ & _).
  apply last_app_suffix. discriminate.
Qed.

(** ** What a string is read from *)

Lemma parse_string_body_rest t :
  forall s r, parse_string_body t = Some (s, r) ->
  exists p, t = p ++ r /\ last p 0%N = quote /\ p <> [] /\
            forall r2, parse_string_body (p ++ r2) = Some (s, r2).
Proof.
  assert (H : forall n t, (length t <= n)%nat ->
            forall s r, parse_string_body t = Some (s, r) ->
            exists p, t = p ++ r /\ last p 0%N = quote /\ p <> [] /\
                      forall r2, parse_string_body (p ++ r2) = Some (s, r2)).
  { induction n as [|n IH]; intros u Hn s r Hp.
    - destruct u; [discriminate Hp | cbn [length] in Hn; lia].
    - destruct u as [|c t1]; [discriminate Hp|]. cbn [parse_string_body] in Hp.
      cbn [length] in Hn.
      destruct (N.eqb c quote) eqn:Hq.
      { injection Hp as <- <-. apply N.eqb_eq in Hq. subst c.
        exists [quote]. split; [reflexivity|]. split; [reflexivity|].
        split; [discriminate|]. intros r2. cbn [app parse_string_body].
        rewrite N.eqb_refl. reflexivity. }
      destruct (N.eqb c backslash) eqn:Hb.
      { destruct t1 as [|e t2]; [discriminate Hp|]. cbn [length] in Hn.
        destruct (N.eqb e (chr "u")) eqn:Hu.
        - destruct t2 as [|h1 [|h2 [|h3 [|h4 t3]]]]; try discriminate Hp.
          destruct (hex_digit h1) as [d1|] eqn:H1; [|discriminate Hp].
          destruct (hex_digit h2) as [d2|] eqn:H2; [|discriminate Hp].
          destruct (hex_digit h3) as [d3|] eqn:H3; [|discriminate Hp].
          destruct (hex_digit h4) as [d4|] eqn:H4; [|discriminate Hp].
          destruct (parse_string_body t3) as [[s' r']|] eqn:Hrec; [|discriminate Hp].
          injection Hp as <- <-. cbn [length] in Hn.
          destruct (IH t3 ltac:(lia) s' r' Hrec) as (p & -> & Hlast & Hne & Hrep).
          exists (c :: e :: h1 :: h2 :: h3 :: h4 :: p).
          split; [reflexivity|]. split.
          { rewrite <- Hlast.
            change (c :: e :: h1 :: h2 :: h3 :: h4 :: p)
              with ([c; e; h1; h2; h3; h4] ++ p).
            apply last_app_suffix. exact Hne. }
          split; [discriminate|].
          intros r2. cbn [app parse_string_body]. rewrite Hq, Hb, Hu, H1, H2, H3, H4.
          rewrite Hrep. reflexivity.
        - destruct (unescape e) as [u|] eqn:He; [|discriminate Hp].
          destruct (parse_string_body t2) as [[s' r']|] eqn:Hrec; [|discriminate Hp].
          injection Hp as <- <-.
          destruct (IH t2 ltac:(lia) s' r' Hrec) as (p & -> & Hlast & Hne & Hrep).
          exists (c :: e :: p).
          split; [reflexivity|]. split.
          { rewrite <- Hlast. change (c :: e :: p) with ([c; e] ++ p).
            apply last_app_suffix. exact Hne. }
          split; [discriminate|].
          intros r2. cbn [app parse_string_body]. rewrite Hq, Hb, Hu, He.
          rewrite Hrep. reflexivity. }
      destruct (N.ltb c 32) eqn:Hlow; [discriminate Hp|].
      destruct (parse_string_body t1) as [[s' r']|] eqn:Hrec; [|discriminate Hp].
      injection Hp as <- <-.
      destruct (IH t1 ltac:(lia) s' r' Hrec) as (p & -> & Hlast & Hne & Hrep).
      exists (c :: p).
      split; [reflexivity|]. split.
      { rewrite <- Hlast. change (c :: p) with ([c] ++ p).
        apply last_app_suffix. exact Hne. }
      split; [discriminate|].
      intros r2. cbn [app parse_string_body]. rewrite Hq, Hb, Hlow.
      rewrite Hrep. reflexivity. }
  intros s r. apply (H (length t)). lia.
Qed.

(** ** What a number is read from *)

Lemma digits_rest t :
  forall acc cnt a c r,
    digits acc cnt t = (a, c, r) ->
    exists p, t = p ++ r /\ Forall is_digit p /\ c = cnt + Z.of_nat (length p) /\
              forall r2, no_digit_ahead r2 -> digits acc cnt (p ++ r2) = (a, c, r2).
Proof.
  induction t as [|x t IH]; intros acc cnt a c r H; cbn [digits] in H.
  - injection H as <- <- <-. exists [].
    split; [reflexivity|]. split; [constructor|]. split; [cbn; lia|].
    intros [|y r2] Hq; cbn [app digits]; [reflexivity|].
    cbn in Hq. rewrite Hq. reflexivity.
  - destruct (digit x) as [d|] eqn:Hx.
    + destruct (IH _ _ _ _ _ H) as (p & -> & Hp & Hc & Hrep).
      exists (x :: p). split; [reflexivity|]. split; [|split].
      * constructor; [unfold is_digit; rewrite Hx; discriminate | exact Hp].
      * cbn [length]. lia.
      * intros r2 Hq. cbn [app digits]. rewrite Hx. apply Hrep. exact Hq.
    + injection H as <- <- <-. exists [].
      split; [reflexivity|]. split; [constructor|]. split; [cbn; lia|].
      intros [|y r2] Hq; cbn [app digits]; [reflexivity|].
      cbn in Hq. rewrite Hq. reflexivity.
Qed.

Lemma digit_plain c d :
  digit c = Some d -> is_space c = false /\ c <> chr "`" /\ (48 <= c <= 57)%N.
Proof.
  unfold digit. destruct (N.leb 48 c) eqn:H1; [|discriminate].
  destruct (N.leb c 57) eqn:H2; [|discriminate]. intros _.
  apply N.leb_le in H1, H2.
  assert (Hr : (48 <= c <= 57)%N) by lia.
  split; [|split; [|exact Hr]].
  - unfold is_space.
    repeat (apply orb_false_intro);
      try (apply N.eqb_neq; lia).
    apply andb_false_intro1. apply N.leb_gt. lia.
  - change (chr "`") with 96%N. lia.
Qed.

Lemma quiet_no_digit r : quiet r -> no_digit_ahead r.
Proof.
  destruct r as [|c r]; [trivial|]. unfold quiet, continues_number, no_digit_ahead.
  destruct (digit c); [discriminate | reflexivity].
Qed.

Lemma quiet_no_point r c r' : quiet r -> r = c :: r' ->
  N.eqb c (chr ".") = false /\ (N.eqb c (chr "e") || N.eqb c (chr "E")) = false.
Proof.
  intros H ->. unfold quiet, continues_number in H.
  destruct (digit c); [discriminate|].
  destruct (N.eqb c (chr ".")); [discriminate H|]. split; [reflexivity | exact H].
Qed.

Lemma quiet_not_point r : quiet r -> not_point r.
Proof.
  destruct r as [|c r]; [trivial|]. intros H.
  apply (quiet_no_point (c :: r) c r H eq_refl).
Qed.

Lemma last_app_or (x y : text) :
  last (x ++ y) 0%N = match y with [] => last x 0%N | _ => last y 0%N end.
Proof.
  destruct y as [|c y]; [rewrite app_nil_r; reflexivity|].
  apply last_app_suffix. discriminate.
Qed.

Lemma Forall_last_digit p : p <> [] -> Forall is_digit p -> is_digit (last p 0%N).
Proof.
  intros Hne H. induction H as [|c p Hc Hp IH]; [contradiction|].
  destruct p as [|c' p']; [exact Hc|]. apply IH. discriminate.
Qed.

Lemma take_exp_rest t e r :
  take_exp t = Some (e, r) ->
  exists p, t = p ++ r /\
    (forall r2, quiet r2 ->
       take_exp (p ++ r2) = Some (e, r2) /\
       no_digit_ahead (p ++ r2) /\ not_point (p ++ r2)) /\
    (p <> [] -> is_digit (last p 0%N)).
Proof.
  unfold take_exp. destruct t as [|x t'].
  - intros H. injection H as <- <-. exists []. split; [reflexivity|]. split.
    + intros r2 Hq. cbn [app]. split; [|split; [apply quiet_no_digit | apply quiet_not_point]; exact Hq].
      destruct r2 as [|c r2]; [reflexivity|].
      destruct (quiet_no_point (c :: r2) c r2 Hq eq_refl) as [_ He]. rewrite He. reflexivity.
    + intros H. contradiction.
  - destruct (N.eqb x (chr "e") || N.eqb x (chr "E")) eqn:Hx.
    + destruct (take_exp_sign t') as [esign r1] eqn:Hs.
      destruct (digits 0 0 r1) as [[ev ecount] t1] eqn:Hd.
      destruct (ecount =? 0) eqn:Hc; [discriminate|].
      intros H. injection H as <- <-.
      destruct (digits_rest r1 _ _ _ _ _ Hd) as (pd & -> & Hpd & Hcnt & Hrep).
      assert (Hpdne : pd <> []).
      { intros ->. cbn in Hcnt. apply Z.eqb_neq in Hc. lia. }
      assert (Hsign : exists sg, t' = sg ++ pd ++ t1 /\
                forall y, take_exp_sign (sg ++ pd ++ y) = (esign, pd ++ y)).
      { unfold take_exp_sign in Hs. destruct t' as [|s0 t''].
        - injection Hs as <- Hr. destruct pd; [contradiction | discriminate Hr].
        - destruct (N.eqb s0 (chr "-")) eqn:Hm.
          + injection Hs as <- <-. exists [s0]. split; [reflexivity|].
            intros y. cbn [app take_exp_sign]. rewrite Hm. reflexivity.
          + destruct (N.eqb s0 (chr "+")) eqn:Hpl.
            * injection Hs as <- <-. exists [s0]. split; [reflexivity|].
              intros y. cbn [app take_exp_sign]. rewrite Hm, Hpl. reflexivity.
            * injection Hs as <- Hr. exists []. split; [exact Hr|].
              intros y. cbn [app]. destruct pd as [|d0 pd']; [contradiction|].
              cbn [app] in Hr |- *. injection Hr as -> _.
              cbn [take_exp_sign]. rewrite Hm, Hpl. reflexivity. }
      destruct Hsign as (sg & -> & Hsg).
      exists (x :: sg ++ pd). split; [cbn [app]; rewrite <- app_assoc; reflexivity|]. split.
      * intros r2 Hq. split; [|split].
        -- cbn [app]. rewrite Hx. rewrite <- app_assoc. rewrite Hsg.
           rewrite (Hrep r2 (quiet_no_digit r2 Hq)). rewrite Hc. reflexivity.
        -- cbn [app no_digit_ahead]. unfold digit.
           apply orb_prop in Hx. destruct Hx as [Hx|Hx]; apply N.eqb_eq in Hx; subst x;
             reflexivity.
        -- cbn [app not_point].
           apply orb_prop in Hx. destruct Hx as [Hx|Hx]; apply N.eqb_eq in Hx; subst x;
             reflexivity.
      * intros _. change (x :: sg ++ pd) with ([x] ++ sg ++ pd).
        rewrite app_assoc, last_app_or. destruct pd as [|d0 pd']; [contradiction|].
        apply Forall_last_digit; [discriminate | exact Hpd].
    + intros H. injection H as <- <-. exists []. split; [reflexivity|]. split.
      * intros r2 Hq. cbn [app].
        split; [|split; [apply quiet_no_digit | apply quiet_not_point]; exact Hq].
        destruct r2 as [|c r2]; [reflexivity|].
        destruct (quiet_no_point (c :: r2) c r2 Hq eq_refl) as [_ He]. rewrite He. reflexivity.
      * intros H. contradiction.
Qed.

Lemma take_frac_rest int t m cnt r :
  take_frac int t = Some (m, cnt, r) ->
  exists p, t = p ++ r /\
    (forall y, no_digit_ahead y -> not_point y ->
       take_frac int (p ++ y) = Some (m, cnt, y) /\ no_digit_ahead (p ++ y)) /\
    (p <> [] -> is_digit (last p 0%N)).
Proof.
  unfold take_frac. destruct t as [|x t'].
  - intros H. injection H as <- <- <-. exists []. split; [reflexivity|]. split.
    + intros y Hd Hp. cbn [app]. split; [|exact Hd].
      destruct y as [|c y]; [reflexivity|]. unfold not_point in Hp. rewrite Hp. reflexivity.
    + intros H. contradiction.
  - destruct (N.eqb x (chr ".")) eqn:Hx.
    + destruct (digits int 0 t') as [[m' c'] t1] eqn:Hd.
      destruct (c' =? 0) eqn:Hc; [discriminate|].
      intros H. injection H as <- <- <-.
      destruct (digits_rest t' _ _ _ _ _ Hd) as (pd & -> & Hpd & Hcnt & Hrep).
      assert (Hpdne : pd <> []).
      { intros ->. cbn in Hcnt. apply Z.eqb_neq in Hc. lia. }
      exists (x :: pd). split; [reflexivity|]. split.
      * intros y Hy Hp. split.
        -- cbn [app]. rewrite Hx, (Hrep y Hy), Hc. reflexivity.
        -- cbn [app no_digit_ahead]. apply N.eqb_eq in Hx. subst x. reflexivity.
      * intros _. change (x :: pd) with ([x] ++ pd). rewrite last_app_or.
        destruct pd as [|d0 pd']; [contradiction|].
        apply Forall_last_digit; [discriminate | exact Hpd].
    + intros H. injection H as <- <- <-. exists []. split; [reflexivity|]. split.
      * intros y Hd Hp. cbn [app]. split; [|exact Hd].
        destruct y as [|c y]; [reflexivity|]. unfold not_point in Hp. rewrite Hp. reflexivity.
      * intros H. contradiction.
Qed.

Lemma take_int_rest t int r :
  take_int t = Some (int, r) ->
  exists p, t = p ++ r /\ p <> [] /\ is_digit (hd 0%N p) /\ is_digit (last p 0%N) /\
    forall y, no_digit_ahead y -> take_int (p ++ y) = Some (int, y).
Proof.
  unfold take_int. destruct t as [|c t']; [discriminate|].
  destruct (digit c) as [d|] eqn:Hc; [|discriminate].
  assert (Hdc : is_digit c) by (unfold is_digit; rewrite Hc; discriminate).
  destruct (d =? 0) eqn:Hd.
  - intros H. injection H as <- <-. exists [c].
    split; [reflexivity|]. split; [discriminate|]. split; [exact Hdc|].
    split; [exact Hdc|]. intros y _. cbn [app]. rewrite Hc, Hd. reflexivity.
  - destruct (digits d 1 t') as [[int' cnt] t1] eqn:Hds.
    intros H. injection H as <- <-.
    destruct (digits_rest t' _ _ _ _ _ Hds) as (pd & -> & Hpd & _ & Hrep).
    exists (c :: pd). split; [reflexivity|]. split; [discriminate|].
    split; [exact Hdc|]. split.
    + apply Forall_last_digit; [discriminate | constructor; assumption].
    + intros y Hy. cbn [app]. rewrite Hc, Hd, (Hrep y Hy). reflexivity.
Qed.

Lemma normalise_number m e : exists m' e', normalise m e = JNum m' e'.
Proof.
  unfold normalise. destruct (m =? 0); [eexists _, _; reflexivity|].
  destruct (strip_zeros _ m e) as [m' e']. eexists _, _; reflexivity.
Qed.

(** What a number is read from: a sign, digits, and then only digits, a
    point or an exponent mark. *)
Lemma parse_number_rest t v r :
  parse_number t = Some (v, r) ->
  exists p, t = p ++ r /\ p <> [] /\
            (hd 0%N p = chr "-" \/ is_digit (hd 0%N p)) /\
            is_digit (last p 0%N) /\
            (exists m e, v = JNum m e) /\
            forall r2, quiet r2 -> parse_number (p ++ r2) = Some (v, r2).
Proof.
  unfold parse_number.
  destruct (take_sign t) as [sign t0] eqn:Hs.
  destruct (take_int t0) as [[int t1]|] eqn:Hi; [|discriminate].
  destruct (take_frac int t1) as [[[m count] t2]|] eqn:Hf; [|discriminate].
  destruct (take_exp t2) as [[e t3]|] eqn:He; [|discriminate].
  intros H. injection H as <- <-.
  destruct (take_int_rest _ _ _ Hi) as (pi & -> & Hpine & Hpihd & Hpilast & Hirep).
  destruct (take_frac_rest _ _ _ _ _ Hf) as (pf & -> & Hfrep & Hpflast).
  destruct (take_exp_rest _ _ _ He) as (pe & -> & Herep & Hpelast).
  assert (Hsign : exists ps, t = ps ++ pi ++ pf ++ pe ++ t3 /\
            (ps = [] \/ ps = [chr "-"]) /\
            forall y, take_sign (ps ++ pi ++ y) = (sign, pi ++ y)).
  { unfold take_sign in Hs. destruct t as [|c t'].
    - injection Hs as <- Hr. destruct pi; [contradiction | discriminate Hr].
    - destruct (N.eqb c (chr "-")) eqn:Hm.
      + injection Hs as <- <-. apply N.eqb_eq in Hm. subst c.
        exists [chr "-"]. split; [reflexivity|]. split; [right; reflexivity|].
        intros y. reflexivity.
      + injection Hs as <- Hr. exists []. split; [exact Hr|]. split; [left; reflexivity|].
        intros y. destruct pi as [|d0 pi']; [contradiction|].
        cbn [app] in Hr |- *. injection Hr as -> _.
        cbn [take_sign]. rewrite Hm. reflexivity. }
  destruct Hsign as (ps & -> & Hps & Hsrep).
  exists (ps ++ pi ++ pf ++ pe).
  split; [rewrite <- !app_assoc; reflexivity|].
  split; [destruct ps; [destruct pi; [contradiction|discriminate]|discriminate]|].
  split.
  { destruct Hps as [-> | ->]; [right|left; reflexivity].
    destruct pi as [|d0 pi']; [contradiction|]. exact Hpihd. }
  split.
  { rewrite !app_assoc, last_app_or. destruct pe as [|x pe'].
    - rewrite last_app_or. destruct pf as [|x pf'].
      + rewrite last_app_or.
        destruct pi as [|d0 pi']; [contradiction | exact Hpilast].
      + apply Hpflast. discriminate.
    - apply Hpelast. discriminate. }
  split; [apply normalise_number|].
  intros r2 Hq.
  destruct (Herep r2 Hq) as (He2 & Hnd & Hnp).
  destruct (Hfrep (pe ++ r2) Hnd Hnp) as (Hf2 & Hnd2).
  rewrite <- !app_assoc. rewrite Hsrep, (Hirep _ Hnd2), Hf2, He2. reflexivity.
Qed.

Ltac assoc := repeat (cbn [app]; rewrite <- app_assoc); cbn [app]; try reflexivity.

Lemma starts_with_split p t :
  starts_with p t = true -> t = p ++ skipn (length p) t.
Proof.
  revert t. induction p as [|x p IH]; intros t H; [reflexivity|].
  destruct t as [|y t]; [discriminate H|]. cbn [starts_with] in H.
  apply andb_prop in H. destruct H as [Hx Hp]. apply N.eqb_eq in Hx. subst y.
  cbn [app length skipn]. rewrite <- (IH t Hp). reflexivity.
Qed.

Lemma ws_not_continues c : is_json_ws c = true -> continues_number c = false.
Proof.
  unfold is_json_ws. intros H.
  repeat (apply orb_prop in H; destruct H as [H|H]);
    apply N.eqb_eq in H; subst c; reflexivity.
Qed.

Lemma quiet_lead lead c x :
  Forall (fun y => is_json_ws y = true) lead -> continues_number c = false ->
  quiet (lead ++ c :: x).
Proof.
  intros Hl Hc. destruct Hl as [|y lead Hy _]; cbn [app quiet]; [exact Hc|].
  apply ws_not_continues. exact Hy.
Qed.

Lemma number_head_plain c :
  c = chr "-" \/ is_digit c ->
  is_space c = false /\
  N.eqb c (chr "{") = false /\ N.eqb c (chr "[") = false /\ N.eqb c quote = false /\
  forall x, starts_with (lit "true") (c :: x) = false /\
            starts_with (lit "false") (c :: x) = false /\
            starts_with (lit "null") (c :: x) = false.
Proof.
  intros [-> | H].
  - repeat split; reflexivity.
  - unfold is_digit in H. destruct (digit c) as [d|] eqn:Hd; [|contradiction].
    destruct (digit_plain c d Hd) as (Hs & _ & Hr).
    split; [exact Hs|].
    assert (Hne : forall k, (k < 48 \/ 57 < k)%N -> N.eqb c k = false)
      by (intros k Hk; apply N.eqb_neq; lia).
    split; [apply Hne; change (chr "{") with 123%N; lia|].
    split; [apply Hne; change (chr "[") with 91%N; lia|].
    split; [apply Hne; unfold quote; lia|].
    intros x.
    change (lit "true") with [116%N; 114%N; 117%N; 101%N].
    change (lit "false") with [102%N; 97%N; 108%N; 115%N; 101%N].
    change (lit "null") with [110%N; 117%N; 108%N; 108%N].
    cbn [starts_with].
    rewrite !(N.eqb_sym _ c).
    rewrite (Hne 116%N), (Hne 102%N), (Hne 110%N) by lia.
    repeat split; reflexivity.
Qed.

Lemma text_of_intro v p c q :
  skip_ws p = c :: q -> opening v c -> closing v (last p 0%N) -> text_of v p.
Proof. intros H Ho Hc. split; [exists c, q; split; assumption | exact Hc]. Qed.

(** ** What the parser reads does not depend on what follows it *)

Lemma parse_rest fuel :
  (forall t v r, parse_value fuel t = Parsed (v, r) ->
     exists p, t = p ++ r /\ text_of v p /\
       forall r2, quiet r2 -> parse_value fuel (p ++ r2) = Parsed (v, r2)) /\
  (forall acc t v r, parse_elements fuel acc t = Parsed (v, r) ->
     exists p, t = p ++ r /\ (exists c q, skip_ws p = c :: q) /\
       last p 0%N = chr "]" /\ (exists items, v = JArr items) /\
       forall r2, parse_elements fuel acc (p ++ r2) = Parsed (v, r2)) /\
  (forall acc t v r, parse_members fuel acc t = Parsed (v, r) ->
     exists p, t = p ++ r /\ (exists c q, skip_ws p = c :: q) /\
       last p 0%N = chr "}" /\ (exists members, v = JObj members) /\
       forall r2, parse_members fuel acc (p ++ r2) = Parsed (v, r2)).
Proof.
  induction fuel as [|n [IHv [IHe IHm]]].
  - repeat split; intros; discriminate.
  - split; [|split].
    + (* parse_value *)
      intros t v r H. cbn [parse_value] in H.
      destruct (skip_ws t) as [|c t1] eqn:Hws; [discriminate H|].
      destruct (skip_ws_split t c t1 Hws) as (lead & -> & Hlead & Hc).
      destruct (N.eqb c (chr "{")) eqn:Ho.
      { apply N.eqb_eq in Ho. subst c.
        destruct (skip_ws t1) as [|c2 t2] eqn:Hws2; [discriminate H|].
        destruct (N.eqb c2 (chr "}")) eqn:Hcl.
        - injection H as <- <-. apply N.eqb_eq in Hcl. subst c2.
          destruct (skip_ws_split t1 _ t2 Hws2) as (lead2 & -> & Hlead2 & Hc2).
          exists (lead ++ chr "{" :: lead2 ++ [chr "}"]).
          split; [assoc|]. split.
          + apply (text_of_intro _ _ (chr "{") (lead2 ++ [chr "}"])).
            * apply skip_ws_lead; assumption.
            * reflexivity.
            * change (lead ++ chr "{" :: lead2 ++ [chr "}"])
                with (lead ++ (chr "{" :: lead2) ++ [chr "}"]).
              rewrite app_assoc, last_snoc. reflexivity.
          + intros r2 _.
            replace ((lead ++ chr "{" :: lead2 ++ [chr "}"]) ++ r2)
              with (lead ++ chr "{" :: lead2 ++ chr "}" :: r2) by assoc.
            cbn [parse_value]. rewrite (skip_ws_lead lead) by assumption.
            change (N.eqb (chr "{") (chr "{")) with true. cbv iota.
            rewrite (skip_ws_lead lead2) by assumption. reflexivity.
        - destruct (IHm [] t1 v r H) as (p1 & -> & (c1 & q1 & Hp1) & Hlast & Hobj & Hrep).
          rewrite (skip_ws_app p1 c1 q1 r Hp1) in Hws2. injection Hws2 as <- <-.
          destruct Hobj as [members ->].
          exists (lead ++ chr "{" :: p1). split; [assoc|]. split.
          + apply (text_of_intro _ _ (chr "{") p1).
            * apply skip_ws_lead; assumption.
            * reflexivity.
            * change (lead ++ chr "{" :: p1) with (lead ++ [chr "{"] ++ p1).
              rewrite app_assoc, last_app_or.
              destruct p1 as [|x p1']; [discriminate Hp1 | exact Hlast].
          + intros r2 _.
            replace ((lead ++ chr "{" :: p1) ++ r2) with (lead ++ chr "{" :: p1 ++ r2)
              by assoc.
            cbn [parse_value]. rewrite (skip_ws_lead lead) by assumption.
            change (N.eqb (chr "{") (chr "{")) with true. cbv iota.
            rewrite (skip_ws_app p1 c1 q1 r2 Hp1), Hcl. apply Hrep. }
      destruct (N.eqb c (chr "[")) eqn:Hb.
      { apply N.eqb_eq in Hb. subst c.
        destruct (skip_ws t1) as [|c2 t2] eqn:Hws2; [discriminate H|].
        destruct (N.eqb c2 (chr "]")) eqn:Hcl.
        - injection H as <- <-. apply N.eqb_eq in Hcl. subst c2.
          destruct (skip_ws_split t1 _ t2 Hws2) as (lead2 & -> & Hlead2 & Hc2).
          exists (lead ++ chr "[" :: lead2 ++ [chr "]"]).
          split; [assoc|]. split.
          + apply (text_of_intro _ _ (chr "[") (lead2 ++ [chr "]"])).
            * apply skip_ws_lead; assumption.
            * reflexivity.
            * change (lead ++ chr "[" :: lead2 ++ [chr "]"])
                with (lead ++ (chr "[" :: lead2) ++ [chr "]"]).
              rewrite app_assoc, last_snoc. split; [reflexivity | discriminate].
          + intros r2 _.
            replace ((lead ++ chr "[" :: lead2 ++ [chr "]"]) ++ r2)
              with (lead ++ chr "[" :: lead2 ++ chr "]" :: r2) by assoc.
            cbn [parse_value]. rewrite (skip_ws_lead lead) by assumption.
            change (N.eqb (chr "[") (chr "{")) with false.
            change (N.eqb (chr "[") (chr "[")) with true. cbv iota.
            rewrite (skip_ws_lead lead2) by assumption. reflexivity.
        - destruct (IHe [] t1 v r H) as (p1 & -> & (c1 & q1 & Hp1) & Hlast & Harr & Hrep).
          rewrite (skip_ws_app p1 c1 q1 r Hp1) in Hws2. injection Hws2 as <- <-.
          destruct Harr as [items ->].
          exists (lead ++ chr "[" :: p1). split; [assoc|]. split.
          + apply (text_of_intro _ _ (chr "[") p1).
            * apply skip_ws_lead; assumption.
            * reflexivity.
            * change (lead ++ chr "[" :: p1) with (lead ++ [chr "["] ++ p1).
              rewrite app_assoc, last_app_or.
              destruct p1 as [|x p1']; [discriminate Hp1|]. rewrite Hlast.
              split; [reflexivity | discriminate].
          + intros r2 _.
            replace ((lead ++ chr "[" :: p1) ++ r2) with (lead ++ chr "[" :: p1 ++ r2)
              by assoc.
            cbn [parse_value]. rewrite (skip_ws_lead lead) by assumption.
            change (N.eqb (chr "[") (chr "{")) with false.
            change (N.eqb (chr "[") (chr "[")) with true. cbv iota.
            rewrite (skip_ws_app p1 c1 q1 r2 Hp1), Hcl. apply Hrep. }
      destruct (N.eqb c quote) eqn:Hq.
      { apply N.eqb_eq in Hq. subst c.
        destruct (parse_string_body t1) as [[s rest]|] eqn:Hs; [|discriminate H].
        injection H as <- <-.
        destruct (parse_string_body_rest t1 s rest Hs) as (p1 & -> & Hlast & Hne & Hrep).
        exists (lead ++ quote :: p1). split; [assoc|]. split.
        - apply (text_of_intro _ _ quote p1).
          + apply skip_ws_lead; assumption.
          + reflexivity.
          + change (lead ++ quote :: p1) with (lead ++ [quote] ++ p1).
            rewrite app_assoc, last_app_or.
            destruct p1 as [|x p1']; [contradiction|]. rewrite Hlast.
            split; [reflexivity | discriminate].
        - intros r2 _.
          replace ((lead ++ quote :: p1) ++ r2) with (lead ++ quote :: p1 ++ r2) by assoc.
          cbn [parse_value]. rewrite (skip_ws_lead lead) by assumption.
          change (N.eqb quote (chr "{")) with false.
          change (N.eqb quote (chr "[")) with false.
          change (N.eqb quote quote) with true. cbv iota.
          rewrite Hrep. reflexivity. }
      destruct (starts_with (lit "true") (c :: t1)) eqn:Htrue.
      { injection H as <- <-. apply starts_with_split in Htrue.
        set (r := skipn 4 (c :: t1)) in *.
        change (length (lit "true")) with 4%nat in Htrue. fold r in Htrue.
        rewrite Htrue. change (lit "true" ++ r) with (chr "t" :: lit "rue" ++ r) in *.
        injection Htrue as -> _.
        exists (lead ++ lit "true"). split; [assoc|]. split.
        - apply (text_of_intro _ _ (chr "t") (lit "rue")).
          + apply (skip_ws_lead lead (chr "t") (lit "rue")); [exact Hlead | reflexivity].
          + reflexivity.
          + rewrite last_app_or. split; [reflexivity | discriminate].
        - intros r2 _. rewrite <- app_assoc.
          change (lit "true" ++ r2) with (chr "t" :: lit "rue" ++ r2).
          cbn [parse_value]. rewrite (skip_ws_lead lead) by (assumption || reflexivity).
          reflexivity. }
      destruct (starts_with (lit "false") (c :: t1)) eqn:Hfalse.
      { injection H as <- <-. apply starts_with_split in Hfalse.
        set (r := skipn 5 (c :: t1)) in *.
        change (length (lit "false")) with 5%nat in Hfalse. fold r in Hfalse.
        rewrite Hfalse. change (lit "false" ++ r) with (chr "f" :: lit "alse" ++ r) in *.
        injection Hfalse as -> _.
        exists (lead ++ lit "false"). split; [assoc|]. split.
        - apply (text_of_intro _ _ (chr "f") (lit "alse")).
          + apply (skip_ws_lead lead (chr "f") (lit "alse")); [exact Hlead | reflexivity].
          + reflexivity.
          + rewrite last_app_or. split; [reflexivity | discriminate].
        - intros r2 _. rewrite <- app_assoc.
          change (lit "false" ++ r2) with (chr "f" :: lit "alse" ++ r2).
          cbn [parse_value]. rewrite (skip_ws_lead lead) by (assumption || reflexivity).
          reflexivity. }
      destruct (starts_with (lit "null") (c :: t1)) eqn:Hnull.
      { injection H as <- <-. apply starts_with_split in Hnull.
        set (r := skipn 4 (c :: t1)) in *.
        change (length (lit "null")) with 4%nat in Hnull. fold r in Hnull.
        rewrite Hnull. change (lit "null" ++ r) with (chr "n" :: lit "ull" ++ r) in *.
        injection Hnull as -> _.
        exists (lead ++ lit "null"). split; [assoc|]. split.
        - apply (text_of_intro _ _ (chr "n") (lit "ull")).
          + apply (skip_ws_lead lead (chr "n") (lit "ull")); [exact Hlead | reflexivity].
          + reflexivity.
          + rewrite last_app_or. split; [reflexivity | discriminate].
        - intros r2 _. rewrite <- app_assoc.
          change (lit "null" ++ r2) with (chr "n" :: lit "ull" ++ r2).
          cbn [parse_value]. rewrite (skip_ws_lead lead) by (assumption || reflexivity).
          reflexivity. }
      destruct (parse_number (c :: t1)) as [[v' r']|] eqn:Hn; [|discriminate H].
      cbn [of_option] in H. injection H as -> ->.
      destruct (parse_number_rest _ _ _ Hn)
        as (p1 & Hp1 & Hne & Hhd & Hlast & (m & e & ->) & Hrep).
      destruct p1 as [|c' p1']; [contradiction|].
      cbn [app] in Hp1. injection Hp1 as <- ->. cbn [hd] in Hhd.
      destruct (number_head_plain c Hhd) as (Hsp & _ & _ & _ & Hkw).
      exists (lead ++ c :: p1'). split; [assoc|]. split.
      * apply (text_of_intro _ _ c p1').
        -- apply skip_ws_lead; assumption.
        -- exact Hsp.
        -- change (lead ++ c :: p1') with (lead ++ (c :: p1')).
           rewrite last_app_or. unfold is_digit in Hlast.
           destruct (digit (last (c :: p1') 0%N)) as [d|] eqn:Hd; [|contradiction].
           destruct (digit_plain _ d Hd) as (H1 & H2 & _). split; assumption.
      * intros r2 Hq2.
        replace ((lead ++ c :: p1') ++ r2) with (lead ++ c :: p1' ++ r2) by assoc.
        cbn [parse_value]. rewrite (skip_ws_lead lead) by assumption.
        rewrite Ho, Hb, Hq.
        destruct (Hkw (p1' ++ r2)) as (-> & -> & ->).
        change (c :: p1' ++ r2) with ((c :: p1') ++ r2).
        rewrite (Hrep r2 Hq2). reflexivity.
    + (* parse_elements *)
      intros acc t v r H. cbn [parse_elements] in H.
      destruct (parse_value n t) as [[v1 rest]| |] eqn:Hv; try discriminate H.
      destruct (IHv t v1 rest Hv) as (p1 & -> & [(c1 & q1 & Hp1 & _) _] & Hrep1).
      destruct (skip_ws rest) as [|c rest'] eqn:Hws; [discriminate H|].
      destruct (skip_ws_split rest c rest' Hws) as (ws & -> & Hwsl & Hc).
      destruct (N.eqb c (chr ",")) eqn:Hcomma.
      * destruct (IHe _ _ _ _ H) as (p2 & -> & (c2 & q2 & Hp2) & Hlast & Harr & Hrep2).
        apply N.eqb_eq in Hcomma. subst c.
        exists (p1 ++ ws ++ chr "," :: p2). split; [assoc|].
        split; [exists c1, (q1 ++ ws ++ chr "," :: p2); apply skip_ws_app; exact Hp1|].
        split.
        { rewrite app_assoc. change (chr "," :: p2) with ([chr ","] ++ p2).
          rewrite app_assoc, last_app_or.
          destruct p2 as [|x p2']; [discriminate Hp2 | exact Hlast]. }
        split; [exact Harr|].
        intros r2.
        replace ((p1 ++ ws ++ chr "," :: p2) ++ r2)
          with (p1 ++ (ws ++ chr "," :: p2 ++ r2)) by assoc.
        cbn [parse_elements].
        rewrite Hrep1 by (apply quiet_lead; [exact Hwsl | reflexivity]).
        rewrite (skip_ws_lead ws) by assumption.
        change (N.eqb (chr ",") (chr ",")) with true. cbv iota. apply Hrep2.
      * destruct (N.eqb c (chr "]")) eqn:Hclose; [|discriminate H].
        injection H as <- <-. apply N.eqb_eq in Hclose. subst c.
        exists (p1 ++ ws ++ [chr "]"]). split; [assoc|].
        split; [exists c1, (q1 ++ ws ++ [chr "]"]); apply skip_ws_app; exact Hp1|].
        split; [rewrite app_assoc; apply last_snoc|].
        split; [eexists; reflexivity|].
        intros r2.
        replace ((p1 ++ ws ++ [chr "]"]) ++ r2)
          with (p1 ++ (ws ++ chr "]" :: r2)) by assoc.
        cbn [parse_elements].
        rewrite Hrep1 by (apply quiet_lead; [exact Hwsl | reflexivity]).
        rewrite (skip_ws_lead ws) by assumption. reflexivity.
    + (* parse_members *)
      intros acc t v r H. cbn [parse_members] in H.
      destruct (skip_ws t) as [|c t1] eqn:Hws; [discriminate H|].
      destruct (skip_ws_split t c t1 Hws) as (lead & -> & Hlead & Hc).
      destruct (N.eqb c quote) eqn:Hq; [|discriminate H].
      destruct (parse_string_body t1) as [[k rest]|] eqn:Hs; [|discriminate H].
      destruct (parse_string_body_rest t1 k rest Hs) as (pk & -> & _ & Hkne & Hrepk).
      destruct (skip_ws rest) as [|c2 rest2] eqn:Hws2; [discriminate H|].
      destruct (skip_ws_split rest c2 rest2 Hws2) as (ws2 & -> & Hws2l & Hc2).
      destruct (N.eqb c2 (chr ":")) eqn:Hcolon; [|discriminate H].
      destruct (parse_value n rest2) as [[v1 rest3]| |] eqn:Hv; try discriminate H.
      destruct (IHv rest2 v1 rest3 Hv) as (p1 & -> & _ & Hrep1).
      destruct (skip_ws rest3) as [|c3 rest4] eqn:Hws3; [discriminate H|].
      destruct (skip_ws_split rest3 c3 rest4 Hws3) as (ws3 & -> & Hws3l & Hc3).
      assert (Hhead : forall x, skip_ws (lead ++ c :: x) = c :: x)
        by (intros x; apply skip_ws_lead; assumption).
      destruct (N.eqb c3 (chr ",")) eqn:Hcomma.
      * destruct (IHm _ _ _ _ H) as (p2 & -> & (c4 & q4 & Hp2) & Hlast & Hobj & Hrep2).
        apply N.eqb_eq in Hcomma. subst c3.
        exists (lead ++ c :: pk ++ ws2 ++ c2 :: p1 ++ ws3 ++ chr "," :: p2).
        split; [assoc|].
        split; [eexists _, _; apply Hhead|].
        split.
        { replace (lead ++ c :: pk ++ ws2 ++ c2 :: p1 ++ ws3 ++ chr "," :: p2)
            with ((lead ++ c :: pk ++ ws2 ++ c2 :: p1 ++ ws3 ++ [chr ","]) ++ p2) by assoc.
          rewrite last_app_or.
          destruct p2 as [|x p2']; [discriminate Hp2 | exact Hlast]. }
        split; [exact Hobj|].
        intros r2.
        replace ((lead ++ c :: pk ++ ws2 ++ c2 :: p1 ++ ws3 ++ chr "," :: p2) ++ r2)
          with (lead ++ c :: pk ++ (ws2 ++ c2 :: p1 ++ (ws3 ++ chr "," :: p2 ++ r2)))
          by assoc.
        cbn [parse_members]. rewrite Hhead, Hq, Hrepk.
        rewrite (skip_ws_lead ws2) by assumption. rewrite Hcolon.
        rewrite Hrep1 by (apply quiet_lead; [exact Hws3l | reflexivity]).
        rewrite (skip_ws_lead ws3) by assumption.
        change (N.eqb (chr ",") (chr ",")) with true. cbv iota. apply Hrep2.
      * destruct (N.eqb c3 (chr "}")) eqn:Hclose; [|discriminate H].
        injection H as <- <-. apply N.eqb_eq in Hclose. subst c3.
        exists (lead ++ c :: pk ++ ws2 ++ c2 :: p1 ++ ws3 ++ [chr "}"]).
        split; [assoc|].
        split; [eexists _, _; apply Hhead|].
        split.
        { replace (lead ++ c :: pk ++ ws2 ++ c2 :: p1 ++ ws3 ++ [chr "}"])
            with ((lead ++ c :: pk ++ ws2 ++ c2 :: p1 ++ ws3) ++ [chr "}"]) by assoc.
          apply last_snoc. }
        split; [eexists; reflexivity|].
        intros r2.
        replace ((lead ++ c :: pk ++ ws2 ++ c2 :: p1 ++ ws3 ++ [chr "}"]) ++ r2)
          with (lead ++ c :: pk ++ (ws2 ++ c2 :: p1 ++ (ws3 ++ chr "}" :: r2)))
          by assoc.
        cbn [parse_members]. rewrite Hhead, Hq, Hrepk.
        rewrite (skip_ws_lead ws2) by assumption. rewrite Hcolon.
        rewrite Hrep1 by (apply quiet_lead; [exact Hws3l | reflexivity]).
        rewrite (skip_ws_lead ws3) by assumption. reflexivity.
Qed.

(** ** Texts: prefixes, white space and fences *)

Lemma starts_with_app_long p x y :
  (length p <= length x)%nat -> starts_with p (x ++ y) = starts_with p x.
Proof.
  revert x. induction p as [|a p IH]; intros x H; [reflexivity|].
  destruct x as [|b x]; [cbn [length] in H; lia|].
  cbn [app starts_with]. rewrite IH by (cbn [length] in H; lia). reflexivity.
Qed.

Lemma starts_with_app_true p x y :
  starts_with p x = true -> starts_with p (x ++ y) = true.
Proof.
  revert x. induction p as [|a p IH]; intros x H; [reflexivity|].
  destruct x as [|b x]; [discriminate H|].
  cbn [app starts_with] in *. apply andb_prop in H. destruct H as [H1 H2].
  rewrite H1, (IH x H2). reflexivity.
Qed.

Lemma includes_here t n : starts_with n t = true -> includes t n = true.
Proof. intros H. destruct t; cbn [includes]; rewrite H; reflexivity. Qed.

Lemma includes_suffix pre z n :
  includes z n = true -> includes (pre ++ z) n = true.
Proof.
  intros H. induction pre as [|c pre IH]; [exact H|].
  cbn [app includes]. rewrite IH. apply orb_true_r.
Qed.

Lemma includes_prefix x y n :
  includes x n = true -> includes (x ++ y) n = true.
Proof.
  induction x as [|c x IH]; intros H.
  - cbn [includes] in H. rewrite orb_false_r in H.
    destruct n; [|discriminate H]. destruct y; reflexivity.
  - cbn [includes] in H. apply orb_prop in H. destruct H as [H|H].
    + apply includes_here. apply (starts_with_app_true n (c :: x) y H).
    + cbn [app includes]. rewrite (IH H). apply orb_true_r.
Qed.

Lemma space_not_backtick c : is_space c = true -> c <> chr "`".
Proof. intros H ->. discriminate H. Qed.

Lemma no_fence_at_space c t : is_space c = true -> starts_with (lit "```") (c :: t) = false.
Proof. intros H. apply no_fence_at. apply space_not_backtick. exact H. Qed.

Lemma trim_start_split t :
  exists w, t = w ++ trim_start t /\ Forall (fun c => is_space c = true) w /\
            (trim_start t = [] \/ is_space (hd 0%N (trim_start t)) = false).
Proof.
  induction t as [|c t (w & Ht & Hw & Hh)].
  - exists []. repeat split; [constructor | left; reflexivity].
  - cbn [trim_start]. destruct (is_space c) eqn:Hc.
    + exists (c :: w). split; [cbn [app]; rewrite <- Ht; reflexivity|].
      split; [constructor; assumption | exact Hh].
    + exists []. split; [reflexivity|]. split; [constructor | right; exact Hc].
Qed.

Lemma trim_start_spaces w x :
  Forall (fun c => is_space c = true) w -> trim_start (w ++ x) = trim_start x.
Proof. induction 1 as [|c w Hc _ IH]; [reflexivity|]. cbn [app trim_start]. rewrite Hc. exact IH. Qed.

Lemma trim_start_plain c x : is_space c = false -> trim_start (c :: x) = c :: x.
Proof. intros H. cbn [trim_start]. rewrite H. reflexivity. Qed.

Lemma trim_start_app t c q x :
  trim_start t = c :: q -> trim_start (t ++ x) = c :: q ++ x.
Proof.
  intros H. destruct (trim_start_split t) as (w & Ht & Hw & Hh).
  rewrite H in Hh. destruct Hh as [Hh|Hh]; [discriminate Hh|]. cbn [hd] in Hh.
  rewrite Ht, H, <- app_assoc, trim_start_spaces by exact Hw.
  cbn [app]. apply trim_start_plain. exact Hh.
Qed.

Lemma trim_end_split t :
  exists w, t = trim_end t ++ w /\ Forall (fun c => is_space c = true) w /\
            (trim_end t = [] \/ is_space (last (trim_end t) 0%N) = false).
Proof.
  unfold trim_end. destruct (trim_start_split (rev t)) as (w & Ht & Hw & Hh).
  exists (rev w). split; [|split].
  - rewrite <- rev_app_distr, <- Ht, rev_involutive. reflexivity.
  - apply Forall_rev. exact Hw.
  - destruct (trim_start (rev t)) as [|c q]; [left; reflexivity|].
    destruct Hh as [Hh|Hh]; [discriminate Hh|]. right.
    cbn [rev]. rewrite last_snoc. exact Hh.
Qed.

Lemma trim_end_spaces x w :
  Forall (fun c => is_space c = true) w ->
  x <> [] -> is_space (last x 0%N) = false ->
  trim_end (x ++ w) = x.
Proof.
  intros Hw Hne Hlast. unfold trim_end. rewrite rev_app_distr.
  rewrite trim_start_spaces by (apply Forall_rev; exact Hw).
  destruct (rev x) as [|c q] eqn:Hr.
  - apply (f_equal (@rev N)) in Hr. rewrite rev_involutive in Hr. contradiction.
  - assert (Hx : x = rev q ++ [c])
      by (rewrite <- (rev_involutive x), Hr; reflexivity).
    rewrite Hx, last_snoc in Hlast. rewrite trim_start_plain by exact Hlast.
    rewrite Hx. reflexivity.
Qed.

(** ** The fence pattern, in general *)

(** The closing fence: a fence after white space. *)
Lemma closing_fence_spec {X} (x : X) t :
  closing_fence x t = if starts_with (lit "```") (trim_start t) then Some x else None.
Proof.
  unfold closing_fence. induction t as [|c t IH]; [reflexivity|].
  cbn [star trim_start]. destruct (is_space c) eqn:Hc; [|reflexivity].
  rewrite IH. rewrite (no_fence_at_space c t Hc).
  destruct (starts_with (lit "```") (trim_start t)); reflexivity.
Qed.

(** The greedy white space before the capture. *)
Lemma greedy_space {X} (k : text -> option X) t x :
  k (trim_start t) = Some x -> star true is_space t k = Some x.
Proof.
  induction t as [|c t IH]; intros H; [exact H|].
  cbn [star]. cbn [trim_start] in H. destruct (is_space c); [|exact H].
  rewrite (IH H). reflexivity.
Qed.

(** The capture is the text before the first fence, without its trailing
    white space. *)
Lemma lazy_capture a b :
  includes (a ++ lit "``") (lit "```") = false ->
  let body := a ++ lit "```" ++ b in
  star false any_char body
    (fun t' => closing_fence (Some (firstn (length body - length t') body)) t')
  = Some (Some (trim_end a)).
Proof.
  intros Hfirst body.
  destruct (trim_end_split a) as (w & Ha & Hw & Hlast).
  set (a0 := trim_end a) in *.
  assert (Hbody : body = a0 ++ (w ++ lit "```" ++ b)).
  { unfold body. rewrite Ha at 1. rewrite <- app_assoc. reflexivity. }
  rewrite Hbody. apply lazy_star_stops.
  - intros a' b' Hsplit Hb'. rewrite closing_fence_spec.
    assert (Hlb : is_space (last b' 0%N) = false).
    { destruct Hlast as [Hnil|Hl].
      - rewrite Hnil in Hsplit. destruct a'; [|discriminate Hsplit].
        cbn [app] in Hsplit. subst b'. contradiction.
      - rewrite Hsplit, last_app_or in Hl. destruct b'; [contradiction | exact Hl]. }
    destruct (trim_start_split b') as (sp & Hb & Hsp & Hh).
    destruct (trim_start b') as [|c q] eqn:Htb.
    { exfalso. rewrite app_nil_r in Hb. subst sp.
      destruct b' as [|x b'']; [contradiction|].
      assert (Hall : forall l : text, l <> [] -> Forall (fun c => is_space c = true) l ->
                       is_space (last l 0%N) = true).
      { intros l Hl Hf. induction Hf as [|y l Hy Hf IH]; [contradiction|].
        destruct l as [|z l']; [exact Hy|]. apply IH. discriminate. }
      rewrite (Hall _ Hb' Hsp) in Hlb. discriminate Hlb. }
    rewrite (trim_start_app b' c q _ Htb).
    destruct (starts_with (lit "```") (c :: q ++ w ++ lit "```" ++ b)) eqn:Hs;
      [exfalso|reflexivity].
    assert (Hshort : starts_with (lit "```") ((c :: q) ++ w ++ lit "``") = true).
    { rewrite <- (starts_with_app_long (lit "```") ((c :: q) ++ w ++ lit "``") (chr "`" :: b))
        by (rewrite !length_app; change (length (lit "``")) with 2%nat;
            change (length (lit "```")) with 3%nat; cbn [length]; lia).
      replace (((c :: q) ++ w ++ lit "``") ++ chr "`" :: b)
        with (c :: q ++ w ++ lit "```" ++ b) by assoc.
      exact Hs. }
    assert (Hin : includes (a ++ lit "``") (lit "```") = true).
    { replace (a ++ lit "``") with ((a' ++ sp) ++ ((c :: q) ++ w ++ lit "``")).
      - apply includes_suffix, includes_here. exact Hshort.
      - rewrite Ha. fold a0. rewrite Hsplit, Hb. assoc. }
    rewrite Hin in Hfirst. discriminate Hfirst.
  - rewrite closing_fence_spec, (trim_start_spaces w) by exact Hw.
    change (trim_start (lit "```" ++ b)) with (lit "```" ++ b).
    change (starts_with (lit "```") (lit "```" ++ b)) with true. cbv iota.
    rewrite length_app, Nat.add_sub, firstn_app, firstn_all, Nat.sub_diag.
    cbn [firstn]. rewrite app_nil_r. reflexivity.
Qed.

Lemma before_fence_split t :
  includes t (lit "```") = true ->
  exists b, t = before_fence t ++ lit "```" ++ b /\
            includes (before_fence t ++ lit "``") (lit "```") = false.
Proof.
  induction t as [|c t IH]; intros H; [discriminate H|].
  cbn [before_fence]. destruct (starts_with (lit "```") (c :: t)) eqn:Hs.
  - exists (skipn 3 (c :: t)). split; [|reflexivity].
    apply (starts_with_split (lit "```") (c :: t) Hs).
  - cbn [includes] in H. rewrite Hs in H. cbn [orb] in H.
    destruct (IH H) as (b & Ht & Hfirst).
    exists b. split; [cbn [app]; rewrite <- Ht; reflexivity|].
    cbn [app includes]. rewrite Hfirst, orb_false_r.
    destruct (starts_with (lit "```") (c :: before_fence t ++ lit "``")) eqn:Hs2;
      [|reflexivity].
    exfalso. rewrite Ht in Hs.
    replace (c :: before_fence t ++ lit "```" ++ b)
      with ((c :: before_fence t ++ lit "``") ++ chr "`" :: b) in Hs by assoc.
    rewrite (starts_with_app_true _ _ _ Hs2) in Hs. discriminate Hs.
Qed.

(** ** Accepted texts *)

Lemma skip_ws_nil t : skip_ws t = [] -> Forall (fun c => is_json_ws c = true) t.
Proof.
  induction t as [|c t IH]; [constructor|]. cbn [skip_ws].
  destruct (is_json_ws c) eqn:Hc; [|discriminate].
  intros H. constructor; [exact Hc | exact (IH H)].
Qed.

Lemma skip_ws_all t x :
  Forall (fun c => is_json_ws c = true) t -> skip_ws (t ++ x) = skip_ws x.
Proof. induction 1 as [|c t Hc _ IH]; [reflexivity|]. cbn [app skip_ws]. rewrite Hc. exact IH. Qed.

Lemma skip_ws_lead_split t :
  exists lead, t = lead ++ skip_ws t /\ Forall (fun c => is_json_ws c = true) lead.
Proof.
  induction t as [|c t (lead & Ht & Hl)].
  - exists []. split; [reflexivity | constructor].
  - cbn [skip_ws]. destruct (is_json_ws c) eqn:Hc.
    + exists (c :: lead). split; [cbn [app]; rewrite <- Ht; reflexivity|].
      constructor; assumption.
    + exists []. split; [reflexivity | constructor].
Qed.

Lemma json_ws_spaces l :
  Forall (fun c => is_json_ws c = true) l -> Forall (fun c => is_space c = true) l.
Proof. apply Forall_impl. intros c. apply json_ws_is_space. Qed.

Lemma JSON_parse_skip_ws s v : JSON_parse s = Some v -> JSON_parse (skip_ws s) = Some v.
Proof.
  intros H. apply JSON_parse_iff in H. destruct H as (fuel & r & Hp & Hr).
  apply JSON_parse_iff. exists fuel, r. rewrite parse_value_skip_ws. split; assumption.
Qed.

Lemma opening_plain v c : opening v c -> is_space c = false.
Proof. destruct v; cbn [opening]; try (intros H; exact H). intros ->. reflexivity. Qed.

Lemma closing_plain v c : closing v c -> is_space c = false /\ c <> chr "`".
Proof.
  destruct v; cbn [closing]; try (intros H; exact H).
  intros ->. split; [reflexivity | discriminate].
Qed.

(** An accepted text is white space around the text of the value, which
    is accepted on its own. *)
Lemma JSON_parse_core s D :
  JSON_parse s = Some D ->
  exists c q r,
    skip_ws s = (c :: q) ++ r /\
    Forall (fun x => is_json_ws x = true) r /\
    opening D c /\ closing D (last (c :: q) 0%N) /\
    JSON_parse (c :: q) = Some D.
Proof.
  intros H. apply JSON_parse_iff in H. destruct H as (fuel & r & Hp & Hr).
  destruct (proj1 (parse_rest fuel) s D r Hp)
    as (p & -> & [(c & q & Hsk & Hopen) Hclose] & Hrep).
  exists c, q, r. split; [apply skip_ws_app; exact Hsk|].
  split; [apply skip_ws_nil; exact Hr|].
  split; [exact Hopen|].
  split; [rewrite <- (last_skip_ws p c q Hsk); exact Hclose|].
  apply JSON_parse_iff. exists fuel, [].
  split; [|reflexivity].
  rewrite <- Hsk, parse_value_skip_ws. rewrite <- (app_nil_r p) at 1.
  apply Hrep. exact I.
Qed.

(** Nothing that is accepted stays accepted when more than white space
    follows it. *)
Lemma JSON_parse_extend c x v :
  JSON_parse c = Some v -> quiet x -> skip_ws x <> [] ->
  JSON_parse (c ++ x) = None.
Proof.
  intros H Hq Hx. apply JSON_parse_iff in H. destruct H as (fuel & r & Hp & Hr).
  destruct (proj1 (parse_rest fuel) c v r Hp) as (p & -> & _ & Hrep).
  assert (Hrx : quiet (r ++ x)).
  { destruct r as [|y r']; [exact Hq|]. cbn [app quiet].
    apply ws_not_continues. apply skip_ws_nil in Hr. inversion Hr; assumption. }
  pose proof (Hrep (r ++ x) Hrx) as Hext.
  destruct (JSON_parse ((p ++ r) ++ x)) as [v'|] eqn:Hj; [exfalso|reflexivity].
  apply JSON_parse_iff in Hj. destruct Hj as (fuel' & r' & Hp' & Hr').
  rewrite <- app_assoc in Hp'.
  pose proof (parse_value_fuel_le _ (Nat.max fuel fuel') _ _ Hext ltac:(lia)) as H1.
  pose proof (parse_value_fuel_le _ (Nat.max fuel fuel') _ _ Hp' ltac:(lia)) as H2.
  rewrite H1 in H2. injection H2 as _ <-.
  rewrite skip_ws_all in Hr' by (apply skip_ws_nil; exact Hr). contradiction.
Qed.

Lemma space_not_continues c : is_space c = true -> continues_number c = false.
Proof.
  intros H. unfold continues_number. destruct (digit c) as [d|] eqn:Hd.
  - destruct (digit_plain c d Hd) as (Hs & _). rewrite Hs in H. discriminate H.
  - destruct (N.eqb_spec c (chr ".")) as [->|_]; [discriminate H|].
    destruct (N.eqb_spec c (chr "e")) as [->|_]; [discriminate H|].
    destruct (N.eqb_spec c (chr "E")) as [->|_]; [discriminate H|]. reflexivity.
Qed.

(** ** Fences in accepted texts *)

Lemma includes_after_ws lead z :
  Forall (fun c => is_json_ws c = true) lead ->
  includes (lead ++ z) (lit "```") = includes z (lit "```").
Proof.
  induction 1 as [|c lead Hc _ IH]; [reflexivity|].
  cbn [app includes]. rewrite IH.
  rewrite no_fence_at_space by (apply json_ws_is_space; exact Hc). reflexivity.
Qed.

Lemma spaces_no_fence w :
  Forall (fun c => is_space c = true) w -> includes (w ++ lit "``") (lit "```") = false.
Proof.
  induction 1 as [|c w Hc _ IH]; [reflexivity|].
  cbn [app includes]. rewrite IH, no_fence_at_space by exact Hc. reflexivity.
Qed.

Lemma no_fence_extend core w :
  includes core (lit "```") = false ->
  core <> [] -> last core 0%N <> chr "`" ->
  Forall (fun c => is_space c = true) w ->
  includes (core ++ w ++ lit "``") (lit "```") = false.
Proof.
  intros Hin Hne Hlast Hw. induction core as [|c x IH]; [contradiction|].
  cbn [includes] in Hin. apply orb_false_elim in Hin. destruct Hin as [Hhere Hrest].
  cbn [app includes]. apply orb_false_intro.
  - destruct x as [|d x'].
    + cbn [app]. apply no_fence_at. exact Hlast.
    + destruct x' as [|e x''].
      * cbn [app]. cbn [last] in Hlast.
        change (lit "```") with [chr "`"; chr "`"; chr "`"]. cbn [starts_with].
        destruct (N.eqb_spec (chr "`") d) as [<-|_]; [contradiction|].
        rewrite andb_false_r. reflexivity.
      * change (c :: (d :: e :: x'') ++ w ++ lit "``")
          with ((c :: d :: e :: x'') ++ w ++ lit "``").
        rewrite starts_with_app_long
          by (change (length (lit "```")) with 3%nat; cbn [length]; lia).
        exact Hhere.
  - destruct x as [|d x'].
    + cbn [app]. apply spaces_no_fence. exact Hw.
    + apply IH; [exact Hrest | discriminate | exact Hlast].
Qed.

Lemma before_fence_unique x b :
  includes (x ++ lit "``") (lit "```") = false ->
  before_fence (x ++ lit "```" ++ b) = x.
Proof.
  induction x as [|c x IH]; intros H.
  - destruct b; reflexivity.
  - cbn [app includes] in H. apply orb_false_elim in H. destruct H as [Hhere Hrest].
    cbn [app before_fence].
    assert (Hs : starts_with (lit "```") (c :: x ++ lit "```" ++ b) = false).
    { replace (c :: x ++ lit "```" ++ b) with ((c :: x ++ lit "``") ++ chr "`" :: b)
        by assoc.
      rewrite starts_with_app_long; [exact Hhere|].
      cbn [length]. rewrite length_app. change (length (lit "``")) with 2%nat.
      change (length (lit "```")) with 3%nat. lia. }
    rewrite Hs, (IH Hrest). reflexivity.
Qed.

(** The fenced block around an accepted text: what the pattern captures. *)
Lemma fenced_capture s D tag ws1 ws2 :
  JSON_parse s = Some D ->
  tag = [] \/ tag = lit "json" ->
  Forall (fun c => is_space c = true) ws1 ->
  Forall (fun c => is_space c = true) ws2 ->
  regex_match fence_pattern (lit "```" ++ tag ++ ws1 ++ s ++ ws2 ++ lit "```")
  = Some (Some (trim_end (before_fence (skip_ws s ++ ws2 ++ lit "```")))).
Proof.
  intros Hs Htag Hws1 Hws2.
  destruct (JSON_parse_core s D Hs) as (c & q & r & Hsk & Hr & Hopen & Hclose & Hcore).
  destruct (skip_ws_lead_split s) as (lead & Hlead & Hleadws).
  set (body := skip_ws s ++ ws2 ++ lit "```").
  assert (Hbody : trim_start (ws1 ++ s ++ ws2 ++ lit "```") = body).
  { rewrite trim_start_spaces by exact Hws1.
    rewrite Hlead at 1. rewrite <- app_assoc.
    rewrite trim_start_spaces by (apply json_ws_spaces; exact Hleadws).
    unfold body. rewrite Hsk. cbn [app]. apply trim_start_plain.
    apply (opening_plain D c Hopen). }
  assert (Hfence : includes body (lit "```") = true).
  { unfold body. rewrite app_assoc. apply includes_suffix. reflexivity. }
  destruct (before_fence_split body Hfence) as (b & Hsplit & Hfirst).
  assert (Hcap : after_tag (ws1 ++ s ++ ws2 ++ lit "```")
                 = Some (Some (trim_end (before_fence body)))).
  { unfold after_tag. apply greedy_space. rewrite Hbody.
    pose proof (lazy_capture (before_fence body) b Hfirst) as Hl.
    cbv zeta in Hl. rewrite <- Hsplit in Hl. exact Hl. }
  assert (Hhead : starts_with (lit "json") (ws1 ++ s ++ ws2 ++ lit "```") = false).
  { destruct ws1 as [|w ws1'].
    - cbn [app]. rewrite Hlead.
      destruct lead as [|l lead'].
      + cbn [app]. rewrite Hsk. cbn [app]. apply no_json_tag_at.
        intros ->. pose proof (proj1 (JSON_parse_iff _ _) Hcore) as (fuel & r' & Hp & _).
        destruct fuel; [discriminate Hp|]. discriminate Hp.
      + cbn [app]. apply no_json_tag_at. intros ->.
        inversion Hleadws as [|? ? Hl _]. discriminate Hl.
    - cbn [app]. apply no_json_tag_at. intros ->.
      inversion Hws1 as [|? ? Hw _]. discriminate Hw. }
  apply regex_match_here. rewrite rmatch_fence_pattern.
  destruct Htag as [-> | ->].
  - cbn [app]. change (starts_with (lit "```") (lit "```" ++ ws1 ++ s ++ ws2 ++ lit "```"))
      with true. cbv iota zeta.
    change (skipn 3 (lit "```" ++ ws1 ++ s ++ ws2 ++ lit "```"))
      with (ws1 ++ s ++ ws2 ++ lit "```").
    rewrite Hhead, Hcap. reflexivity.
  - change (starts_with (lit "```") (lit "```" ++ lit "json" ++ ws1 ++ s ++ ws2 ++ lit "```"))
      with true. cbv iota zeta.
    change (skipn 3 (lit "```" ++ lit "json" ++ ws1 ++ s ++ ws2 ++ lit "```"))
      with (lit "json" ++ ws1 ++ s ++ ws2 ++ lit "```").
    change (starts_with (lit "json") (lit "json" ++ ws1 ++ s ++ ws2 ++ lit "```")) with true.
    cbv iota.
    change (skipn 4 (lit "json" ++ ws1 ++ s ++ ws2 ++ lit "```"))
      with (ws1 ++ s ++ ws2 ++ lit "```").
    rewrite Hcap. reflexivity.
Qed.

(** Without a fence in the text, the capture is the text of the value. *)
Lemma fenced_capture_plain s D ws2 c q r :
  skip_ws s = (c :: q) ++ r ->
  Forall (fun x => is_json_ws x = true) r ->
  closing D (last (c :: q) 0%N) ->
  includes s (lit "```") = false ->
  Forall (fun c => is_space c = true) ws2 ->
  trim_end (before_fence (skip_ws s ++ ws2 ++ lit "```")) = c :: q.
Proof.
  intros Hsk Hr Hclose Hno Hws2.
  destruct (closing_plain D _ Hclose) as [Hsp Hbt].
  assert (Hw : Forall (fun c => is_space c = true) (r ++ ws2))
    by (apply Forall_app; split; [apply json_ws_spaces; exact Hr | exact Hws2]).
  assert (Hcore : includes (c :: q) (lit "```") = false).
  { destruct (includes (c :: q) (lit "```")) eqn:Hi; [|reflexivity].
    destruct (skip_ws_lead_split s) as (lead & Hlead & Hleadws).
    rewrite Hlead, includes_after_ws, Hsk in Hno by exact Hleadws.
    rewrite (includes_prefix _ r _ Hi) in Hno. discriminate Hno. }
  rewrite Hsk. rewrite <- app_assoc, (app_assoc r ws2).
  replace ((c :: q) ++ (r ++ ws2) ++ lit "```")
    with (((c :: q) ++ r ++ ws2) ++ lit "```" ++ []) by (rewrite app_nil_r; assoc).
  rewrite before_fence_unique.
  - apply trim_end_spaces; [exact Hw | discriminate | exact Hsp].
  - rewrite <- app_assoc. apply no_fence_extend; [exact Hcore | discriminate | exact Hbt | exact Hw].
Qed.

(** With a fence in the text, the capture is cut at the first fence and
    is not accepted. *)
Lemma fenced_capture_cut s D ws2 :
  JSON_parse s = Some D ->
  includes s (lit "```") = true ->
  JSON_parse (trim_end (before_fence (skip_ws s ++ ws2 ++ lit "```"))) = None.
Proof.
  intros Hs Hyes.
  destruct (skip_ws_lead_split s) as (lead & Hlead & Hleadws).
  assert (Hin : includes (skip_ws s) (lit "```") = true).
  { rewrite Hlead, includes_after_ws in Hyes by exact Hleadws. exact Hyes. }
  destruct (before_fence_split _ Hin) as (b & Hsplit & Hfirst).
  set (a := before_fence (skip_ws s)) in *.
  assert (Ha : before_fence (skip_ws s ++ ws2 ++ lit "```") = a).
  { rewrite Hsplit. rewrite <- !app_assoc.
    replace (a ++ lit "```" ++ b ++ ws2 ++ lit "```")
      with (a ++ lit "```" ++ (b ++ ws2 ++ lit "```")) by reflexivity.
    apply before_fence_unique. exact Hfirst. }
  rewrite Ha.
  destruct (trim_end_split a) as (w & Haw & Hw & _).
  destruct (JSON_parse (trim_end a)) as [v|] eqn:Hc; [exfalso|reflexivity].
  assert (Hnone : JSON_parse (trim_end a ++ (w ++ lit "```" ++ b)) = None).
  { apply (JSON_parse_extend _ _ v Hc).
    - destruct Hw as [|y w' Hy _]; cbn [app quiet]; [reflexivity|].
      apply space_not_continues. exact Hy.
    - intros Hnil. apply skip_ws_nil in Hnil.
      rewrite Forall_forall in Hnil.
      specialize (Hnil (chr "`")). 
      assert (Hmem : In (chr "`") (w ++ lit "```" ++ b)).
      { apply in_or_app. right. left. reflexivity. }
      specialize (Hnil Hmem). discriminate Hnil. }
  rewrite app_assoc, <- Haw, <- Hsplit in Hnone.
  rewrite (JSON_parse_skip_ws s D Hs) in Hnone. discriminate Hnone.
Qed.

(** ** Serialised numbers *)

Lemma digit_digit_char d : 0 <= d <= 9 -> digit (digit_char d) = Some d.
Proof.
  intros H.
  assert (Hd : d = 0 \/ d = 1 \/ d = 2 \/ d = 3 \/ d = 4 \/ d = 5 \/ d = 6 \/
               d = 7 \/ d = 8 \/ d = 9) by lia.
  repeat (destruct Hd as [->|Hd]; [reflexivity|]). subst d. reflexivity.
Qed.

Lemma nat_digits_value fuel :
  forall n, 0 <= n < 10 * 2 ^ Z.of_nat fuel ->
  forall rest,
    digits 0 0 (nat_digits fuel n ++ rest)
    = digits n (Z.of_nat (length (nat_digits fuel n))) rest.
Proof.
  induction fuel as [|fuel IH]; intros n Hn rest.
  - cbn [nat_digits app digits length]. rewrite digit_digit_char by (cbn in Hn; lia).
    reflexivity.
  - cbn [nat_digits]. destruct (n <? 10) eqn:Hlt.
    + apply Z.ltb_lt in Hlt. cbn [app digits length].
      rewrite digit_digit_char by lia. reflexivity.
    + apply Z.ltb_ge in Hlt.
      assert (Hpow : 2 ^ Z.of_nat (S fuel) = 2 * 2 ^ Z.of_nat fuel)
        by (rewrite Nat2Z.inj_succ, Z.pow_succ_r by lia; reflexivity).
      assert (Hdiv : 0 <= n / 10 < 10 * 2 ^ Z.of_nat fuel).
      { split; [apply Z.div_pos; lia|].
        apply Z.div_lt_upper_bound; [lia|]. rewrite Hpow in Hn.
        pose proof (Z.pow_pos_nonneg 2 (Z.of_nat fuel) ltac:(lia) ltac:(lia)). nia. }
      rewrite <- app_assoc. cbn [app]. rewrite (IH _ Hdiv). cbn [digits].
      rewrite digit_digit_char
        by (pose proof (Z.mod_pos_bound n 10 ltac:(lia)); lia).
      rewrite length_app. cbn [length].
      replace (10 * (n / 10) + n mod 10) with n by (rewrite <- Z.div_mod; lia).
      replace (Z.of_nat (length (nat_digits fuel (n / 10))) + 1)
        with (Z.of_nat (length (nat_digits fuel (n / 10)) + 1)) by lia.
      reflexivity.
Qed.

Lemma nat_digits_head fuel :
  forall n, 0 <= n < 10 * 2 ^ Z.of_nat fuel ->
  exists d q, nat_digits fuel n = digit_char d :: q /\ 0 <= d <= 9 /\ (d = 0 -> n = 0).
Proof.
  induction fuel as [|fuel IH]; intros n Hn.
  - exists n, []. cbn in Hn. repeat split; lia || reflexivity.
  - cbn [nat_digits]. destruct (n <? 10) eqn:Hlt.
    + apply Z.ltb_lt in Hlt. exists n, []. repeat split; lia || reflexivity.
    + apply Z.ltb_ge in Hlt.
      assert (Hpow : 2 ^ Z.of_nat (S fuel) = 2 * 2 ^ Z.of_nat fuel)
        by (rewrite Nat2Z.inj_succ, Z.pow_succ_r by lia; reflexivity).
      assert (Hdiv : 0 <= n / 10 < 10 * 2 ^ Z.of_nat fuel).
      { split; [apply Z.div_pos; lia|].
        apply Z.div_lt_upper_bound; [lia|]. rewrite Hpow in Hn.
        pose proof (Z.pow_pos_nonneg 2 (Z.of_nat fuel) ltac:(lia) ltac:(lia)). nia. }
      destruct (IH _ Hdiv) as (d & q & Hq & Hd & Hz).
      exists d, (q ++ [digit_char (n mod 10)]). rewrite Hq.
      split; [reflexivity|]. split; [exact Hd|].
      intros H0. specialize (Hz H0).
      assert (n / 10 > 0) by (apply Z.lt_gt, Z.div_str_pos; lia). lia.
Qed.

Lemma nat_text_bound n : 0 <= n -> 0 <= n < 10 * 2 ^ Z.of_nat (Z.to_nat (Z.log2 n)).
Proof.
  intros Hn. split; [exact Hn|].
  rewrite Z2Nat.id by apply Z.log2_nonneg.
  destruct (Z.eq_dec n 0) as [->|Hne]; [reflexivity|].
  pose proof (Z.log2_spec n ltac:(lia)) as [_ Hup].
  rewrite Z.pow_succ_r in Hup by apply Z.log2_nonneg. lia.
Qed.

(** Reading back the digits of a number. *)
Lemma digits_nat_text n rest :
  0 <= n -> no_digit_ahead rest ->
  exists len, 0 < len /\ digits 0 0 (nat_text n ++ rest) = (n, len, rest).
Proof.
  intros Hn Hrest. unfold nat_text.
  rewrite (nat_digits_value _ n (nat_text_bound n Hn)).
  exists (Z.of_nat (length (nat_digits (Z.to_nat (Z.log2 n)) n))). split.
  - destruct (nat_digits_head _ n (nat_text_bound n Hn)) as (d & q & -> & _).
    cbn [length]. lia.
  - destruct rest as [|c rest']; cbn [digits]; [reflexivity|].
    cbn in Hrest. rewrite Hrest. reflexivity.
Qed.

Lemma take_int_nat_text n rest :
  0 <= n -> no_digit_ahead rest ->
  take_int (nat_text n ++ rest) = Some (n, rest).
Proof.
  intros Hn Hrest.
  destruct (digits_nat_text n rest Hn Hrest) as (len & _ & Hd).
  unfold nat_text in *.
  destruct (nat_digits_head _ n (nat_text_bound n Hn)) as (d & q & Hq & Hdr & Hz).
  rewrite Hq in *. cbn [app take_int]. rewrite digit_digit_char by exact Hdr.
  destruct (d =? 0) eqn:H0.
  - apply Z.eqb_eq in H0. specialize (Hz H0). subst n d.
    assert (Hq0 : q = []).
    { destruct (Z.to_nat (Z.log2 0)); cbn in Hq; injection Hq as <-; reflexivity. }
    subst q. reflexivity.
  - cbn [app digits] in Hd. rewrite digit_digit_char in Hd by exact Hdr.
    change (10 * 0 + d) with d in Hd. change (0 + 1) with 1 in Hd.
    rewrite Hd. reflexivity.
Qed.

Lemma nat_text_head n :
  0 <= n -> exists c q, nat_text n = c :: q /\ is_digit c.
Proof.
  intros Hn. unfold nat_text.
  destruct (nat_digits_head _ n (nat_text_bound n Hn)) as (d & q & -> & Hd & _).
  exists (digit_char d), q. split; [reflexivity|].
  unfold is_digit. rewrite digit_digit_char by exact Hd. discriminate.
Qed.

Lemma normalise_normal m e :
  (m = 0 -> e = 0) -> (m <> 0 -> m mod 10 <> 0) -> normalise m e = JNum m e.
Proof.
  intros H0 Hn. unfold normalise. destruct (m =? 0) eqn:Hm.
  - apply Z.eqb_eq in Hm. subst m. rewrite (H0 eq_refl). reflexivity.
  - apply Z.eqb_neq in Hm. specialize (Hn Hm).
    destruct (Z.to_nat (Z.log2 (Z.abs m))) as [|k]; cbn [strip_zeros]; [reflexivity|].
    replace (m mod 10 =? 0) with false by (symmetry; apply Z.eqb_neq; exact Hn).
    reflexivity.
Qed.

Lemma parse_number_text m e r2 :
  (m = 0 -> e = 0) -> (m <> 0 -> m mod 10 <> 0) -> quiet r2 ->
  parse_number (number_text m e ++ r2) = Some (JNum m e, r2).
Proof.
  intros H0 Hn Hq. unfold number_text, parse_number.
  set (epart := if e =? 0 then []
                else chr "e" :: (if e <? 0 then [chr "-"] else []) ++ nat_text (Z.abs e)).
  assert (Hnd : no_digit_ahead (epart ++ r2)).
  { unfold epart. destruct (e =? 0); [apply quiet_no_digit; exact Hq | reflexivity]. }
  assert (Hnp : not_point (epart ++ r2)).
  { unfold epart. destruct (e =? 0); [apply quiet_not_point; exact Hq | reflexivity]. }
  assert (Hsign : take_sign (((if m <? 0 then [chr "-"] else []) ++ nat_text (Z.abs m) ++ epart) ++ r2)
                  = (if m <? 0 then -1 else 1, nat_text (Z.abs m) ++ epart ++ r2)).
  { destruct (m <? 0).
    - cbn [app]. rewrite <- app_assoc. reflexivity.
    - cbn [app]. rewrite <- app_assoc.
      destruct (nat_text_head (Z.abs m) (Z.abs_nonneg m)) as (c & q & Hc & Hdig).
      rewrite Hc. cbn [app take_sign].
      destruct (number_head_plain c (or_intror Hdig)) as (_ & _ & _ & _ & _).
      unfold is_digit in Hdig. destruct (digit c) as [d|] eqn:Hd; [|contradiction].
      destruct (digit_plain c d Hd) as (_ & _ & Hr).
      replace (N.eqb c (chr "-")) with false
        by (symmetry; apply N.eqb_neq; change (chr "-") with 45%N; lia).
      reflexivity. }
  rewrite Hsign.
  rewrite (take_int_nat_text (Z.abs m) (epart ++ r2) (Z.abs_nonneg m) Hnd).
  assert (Hfrac : take_frac (Z.abs m) (epart ++ r2) = Some (Z.abs m, 0, epart ++ r2)).
  { unfold take_frac. destruct (epart ++ r2) as [|p r]; [reflexivity|].
    unfold not_point in Hnp. rewrite Hnp. reflexivity. }
  rewrite Hfrac.
  assert (Hexp : take_exp (epart ++ r2) = Some (e, r2)).
  { unfold epart. destruct (e =? 0) eqn:He.
    - apply Z.eqb_eq in He. subst e. cbn [app]. unfold take_exp.
      destruct r2 as [|c r]; [reflexivity|].
      destruct (quiet_no_point (c :: r) c r Hq eq_refl) as [_ Hce]. rewrite Hce.
      reflexivity.
    - apply Z.eqb_neq in He. cbn [app]. unfold take_exp.
      change (N.eqb (chr "e") (chr "e") || N.eqb (chr "e") (chr "E")) with true.
      cbv iota.
      destruct (digits_nat_text (Z.abs e) r2 (Z.abs_nonneg e) (quiet_no_digit r2 Hq))
        as (len & Hlen & Hd).
      destruct (e <? 0) eqn:Hneg.
      + apply Z.ltb_lt in Hneg. rewrite <- app_assoc. cbn [app take_exp_sign].
        change (N.eqb (chr "-") (chr "-")) with true. cbv iota.
        rewrite Hd. replace (len =? 0) with false by (symmetry; apply Z.eqb_neq; lia).
        f_equal. f_equal. lia.
      + apply Z.ltb_ge in Hneg. rewrite <- app_assoc. cbn [app].
        destruct (nat_text_head (Z.abs e) (Z.abs_nonneg e)) as (c & q & Hc & Hdig).
        assert (Hes : take_exp_sign (nat_text (Z.abs e) ++ r2)
                      = (1, nat_text (Z.abs e) ++ r2)).
        { rewrite Hc. cbn [app take_exp_sign].
          unfold is_digit in Hdig. destruct (digit c) as [d|] eqn:Hdc; [|contradiction].
          destruct (digit_plain c d Hdc) as (_ & _ & Hr).
          replace (N.eqb c (chr "-")) with false
            by (symmetry; apply N.eqb_neq; change (chr "-") with 45%N; lia).
          replace (N.eqb c (chr "+")) with false
            by (symmetry; apply N.eqb_neq; change (chr "+") with 43%N; lia).
          reflexivity. }
        rewrite Hes, Hd.
        replace (len =? 0) with false by (symmetry; apply Z.eqb_neq; lia).
        f_equal. f_equal. lia. }
  rewrite Hexp. f_equal. f_equal.
  replace ((if m <? 0 then -1 else 1) * Z.abs m) with m
    by (destruct (m <? 0) eqn:Hm; [apply Z.ltb_lt in Hm | apply Z.ltb_ge in Hm]; lia).
  rewrite Z.sub_0_r. apply normalise_normal; assumption.
Qed.

Lemma number_text_head m e :
  exists c q, number_text m e = c :: q /\ (c = chr "-" \/ is_digit c).
Proof.
  unfold number_text. destruct (m <? 0).
  - eexists _, _. split; [reflexivity | left; reflexivity].
  - destruct (nat_text_head (Z.abs m) (Z.abs_nonneg m)) as (c & q & Hc & Hdig).
    rewrite Hc. eexists _, _. split; [reflexivity | right; exact Hdig].
Qed.

Lemma parse_elements_fuel_le fuel fuel' acc t x :
  parse_elements fuel acc t = Parsed x -> (fuel <= fuel')%nat ->
  parse_elements fuel' acc t = Parsed x.
Proof.
  intros H Hle. replace fuel' with ((fuel' - fuel) + fuel)%nat by lia.
  induction (fuel' - fuel)%nat as [|k IH]; [exact H|].
  cbn [Nat.add]. rewrite (proj1 (proj2 (parse_fuel_step (k + fuel)))); [exact IH|].
  rewrite IH. discriminate.
Qed.

Lemma parse_members_fuel_le fuel fuel' acc t x :
  parse_members fuel acc t = Parsed x -> (fuel <= fuel')%nat ->
  parse_members fuel' acc t = Parsed x.
Proof.
  intros H Hle. replace fuel' with ((fuel' - fuel) + fuel)%nat by lia.
  induction (fuel' - fuel)%nat as [|k IH]; [exact H|].
  cbn [Nat.add]. rewrite (proj2 (proj2 (parse_fuel_step (k + fuel)))); [exact IH|].
  rewrite IH. discriminate.
Qed.

(** ** Serialised strings *)

Lemma hex_digit_hex_char k : (k < 16)%N -> hex_digit (hex_char k) = Some k.
Proof.
  intros H.
  assert (Hk : (k = 0 \/ k = 1 \/ k = 2 \/ k = 3 \/ k = 4 \/ k = 5 \/ k = 6 \/ k = 7 \/
                k = 8 \/ k = 9 \/ k = 10 \/ k = 11 \/ k = 12 \/ k = 13 \/ k = 14 \/
                k = 15)%N) by lia.
  repeat (destruct Hk as [->|Hk]; [reflexivity|]). subst k. reflexivity.
Qed.

Lemma parse_escaped s rest :
  parse_string_body (concat (map escape s) ++ quote :: rest) = Some (s, rest).
Proof.
  induction s as [|c s IH].
  - cbn [map concat app parse_string_body]. rewrite N.eqb_refl. reflexivity.
  - cbn [map concat]. rewrite <- app_assoc. unfold escape at 1.
    destruct (N.eqb c quote) eqn:Hq.
    { apply N.eqb_eq in Hq. subst c. cbn [app parse_string_body].
      change (N.eqb backslash quote) with false.
      change (N.eqb backslash backslash) with true.
      change (N.eqb quote (chr "u")) with false.
      change (unescape quote) with (Some quote). cbv iota.
      rewrite IH. reflexivity. }
    destruct (N.eqb c backslash) eqn:Hb.
    { apply N.eqb_eq in Hb. subst c. cbn [app parse_string_body].
      change (N.eqb backslash quote) with false.
      change (N.eqb backslash backslash) with true.
      change (N.eqb backslash (chr "u")) with false.
      change (unescape backslash) with (Some backslash). cbv iota.
      rewrite IH. reflexivity. }
    destruct (N.ltb c 32) eqn:Hlow.
    { apply N.ltb_lt in Hlow. cbn [app parse_string_body].
      change (N.eqb backslash quote) with false.
      change (N.eqb backslash backslash) with true.
      change (N.eqb (chr "u") (chr "u")) with true.
      change (hex_digit (chr "0")) with (Some 0%N). cbv iota.
      rewrite (hex_digit_hex_char (c / 16))
        by (apply N.Div0.div_lt_upper_bound; lia).
      rewrite (hex_digit_hex_char (c mod 16)) by (apply N.mod_lt; lia).
      rewrite IH. f_equal. f_equal. f_equal.
      pose proof (N.div_mod c 16 ltac:(lia)). lia. }
    cbn [app parse_string_body]. rewrite Hq, Hb, Hlow, IH. reflexivity.
Qed.

(** ** Arrays and objects *)

Lemma json_induction (P : json -> Prop) :
  P JNull -> (forall b, P (JBool b)) -> (forall m e, P (JNum m e)) ->
  (forall s, P (JStr s)) ->
  (forall items, Forall P items -> P (JArr items)) ->
  (forall members, Forall (fun member => P (snd member)) members -> P (JObj members)) ->
  forall v, P v.
Proof.
  intros Hnull Hbool Hnum Hstr Harr Hobj. fix IH 1.
  intros [ | b | m e | s | items | members].
  - exact Hnull.
  - apply Hbool.
  - apply Hnum.
  - apply Hstr.
  - apply Harr. induction items as [|x items IHl]; constructor; [apply IH | exact IHl].
  - apply Hobj. induction members as [|[k x] members IHl]; constructor;
      [apply IH | exact IHl].
Qed.

Lemma skip_ws_plain c x : is_json_ws c = false -> skip_ws (c :: x) = c :: x.
Proof. intros H. cbn [skip_ws]. rewrite H. reflexivity. Qed.

(** A value does not start with a closing bracket. *)
Lemma parse_value_head fuel t x :
  parse_value fuel t = Parsed x ->
  exists c t1, skip_ws t = c :: t1 /\
               N.eqb c (chr "]") = false /\ N.eqb c (chr "}") = false.
Proof.
  destruct fuel; [discriminate|]. cbn [parse_value].
  destruct (skip_ws t) as [|c t1]; [discriminate|].
  intros H. exists c, t1. split; [reflexivity|].
  split.
  - destruct (N.eqb_spec c (chr "]")) as [->|_]; [|reflexivity]. discriminate H.
  - destruct (N.eqb_spec c (chr "}")) as [->|_]; [|reflexivity]. discriminate H.
Qed.

Lemma elements_parse items :
  items <> [] -> Forall reads_back items ->
  exists fuel, forall acc r2,
    parse_elements fuel acc (sep_join (chr ",") (map serialize items) ++ chr "]" :: r2)
    = Parsed (JArr (acc ++ items), r2).
Proof.
  intros Hne H. induction H as [|x items [fx Hx] Hitems IH]; [contradiction|].
  destruct items as [|y items'].
  - exists (S fx). intros acc r2. cbn [map sep_join parse_elements].
    rewrite Hx by reflexivity. reflexivity.
  - destruct (IH ltac:(discriminate)) as [fr Hr].
    exists (S (Nat.max fx fr)). intros acc r2.
    change (sep_join (chr ",") (map serialize (x :: y :: items')))
      with (serialize x ++ chr "," :: sep_join (chr ",") (map serialize (y :: items'))).
    rewrite <- app_assoc. cbn [app parse_elements].
    pose proof (Hx (chr "," :: sep_join (chr ",") (map serialize (y :: items'))
                      ++ chr "]" :: r2) eq_refl) as Hv.
    rewrite (parse_value_fuel_le fx (Nat.max fx fr) _ _ Hv) by lia.
    rewrite (skip_ws_plain (chr ",")) by reflexivity.
    change (N.eqb (chr ",") (chr ",")) with true. cbv iota.
    rewrite (parse_elements_fuel_le fr _ _ _ _ (Hr (acc ++ [x]) r2)) by lia.
    rewrite <- app_assoc. reflexivity.
Qed.

Lemma set_member_fresh k v acc :
  ~ In k (map fst acc) -> set_member k v acc = acc ++ [(k, v)].
Proof.
  induction acc as [|[k' v'] acc IH]; intros Hn; [reflexivity|].
  cbn [set_member]. destruct (text_eqb k' k) eqn:He.
  - apply text_eqb_eq in He. subst k'. exfalso. apply Hn. left. reflexivity.
  - rewrite IH; [reflexivity|]. intros Hin. apply Hn. right. exact Hin.
Qed.

Lemma members_parse members :
  members <> [] -> Forall (fun member => reads_back (snd member)) members ->
  exists fuel, forall acc r2,
    NoDup (map fst (acc ++ members)) ->
    parse_members fuel acc (sep_join (chr ",") (map member_text members) ++ chr "}" :: r2)
    = Parsed (JObj (acc ++ members), r2).
Proof.
  intros Hne H. induction H as [|[k x] members [fx Hx] Hmembers IH]; [contradiction|].
  cbn [snd] in Hx.
  assert (Hkey : forall acc rest fuel,
            parse_members (S fuel) acc (member_text (k, x) ++ rest) =
            match parse_value fuel (serialize x ++ rest) with
            | Parsed (v, rest3) =>
                match skip_ws rest3 with
                | c3 :: rest4 =>
                    if N.eqb c3 (chr ",") then parse_members fuel (set_member k v acc) rest4
                    else if N.eqb c3 (chr "}") then
                      Parsed (JObj (set_member k v acc), rest4)
                    else SyntaxError
                | [] => SyntaxError
                end
            | SyntaxError => SyntaxError
            | OutOfFuel => OutOfFuel
            end).
  { intros acc rest fuel. unfold member_text, string_text. cbn [fst snd].
    cbn [app parse_members]. rewrite (skip_ws_plain quote) by reflexivity.
    rewrite N.eqb_refl. rewrite <- !app_assoc. cbn [app].
    rewrite parse_escaped. rewrite (skip_ws_plain (chr ":")) by reflexivity.
    change (N.eqb (chr ":") (chr ":")) with true. cbv iota. reflexivity. }
  assert (Hfresh : forall acc rest, NoDup (map fst (acc ++ (k, x) :: rest)) ->
            set_member k x acc = acc ++ [(k, x)]).
  { intros acc rest Hnd. apply set_member_fresh.
    rewrite map_app in Hnd. cbn [map fst] in Hnd.
    apply NoDup_remove_2 in Hnd. intros Hin. apply Hnd.
    apply in_or_app. left. exact Hin. }
  destruct members as [|m2 members'].
  - exists (S fx). intros acc r2 Hnd.
    change (sep_join (chr ",") (map member_text [(k, x)])) with (member_text (k, x)).
    rewrite Hkey. rewrite Hx by reflexivity.
    rewrite (skip_ws_plain (chr "}")) by reflexivity.
    change (N.eqb (chr "}") (chr ",")) with false.
    change (N.eqb (chr "}") (chr "}")) with true. cbv iota.
    rewrite (Hfresh acc [] Hnd). reflexivity.
  - destruct (IH ltac:(discriminate)) as [fr Hr].
    exists (S (Nat.max fx fr)). intros acc r2 Hnd.
    change (sep_join (chr ",") (map member_text ((k, x) :: m2 :: members')))
      with (member_text (k, x) ++ chr "," ::
              sep_join (chr ",") (map member_text (m2 :: members'))).
    rewrite <- app_assoc, Hkey. cbn [app].
    pose proof (Hx (chr "," :: sep_join (chr ",") (map member_text (m2 :: members'))
                      ++ chr "}" :: r2) eq_refl) as Hv.
    rewrite (parse_value_fuel_le fx (Nat.max fx fr) _ _ Hv) by lia.
    rewrite (skip_ws_plain (chr ",")) by reflexivity.
    change (N.eqb (chr ",") (chr ",")) with true. cbv iota.
    rewrite (Hfresh acc _ Hnd).
    assert (Hnd' : NoDup (map fst ((acc ++ [(k, x)]) ++ m2 :: members')))
      by (rewrite <- app_assoc; exact Hnd).
    rewrite (parse_members_fuel_le fr _ _ _ _ (Hr (acc ++ [(k, x)]) r2 Hnd')) by lia.
    rewrite <- app_assoc. reflexivity.
Qed.

(** ** Round trip *)

Lemma serialize_reads_back v : document v -> reads_back v.
Proof.
  induction v as [ | b | m e | s | items IH | members IH] using json_induction;
    intros Hdoc.
  - exists 1%nat. intros r2 _. reflexivity.
  - exists 1%nat. intros r2 _. destruct b; reflexivity.
  - inversion Hdoc as [ | | m' e' H0 Hn | | | ]; subst.
    exists 1%nat. intros r2 Hq. change (serialize (JNum m e)) with (number_text m e).
    destruct (number_text_head m e) as (c & q & Hc & Hhd).
    destruct (number_head_plain c Hhd) as (Hsp & Ho & Hb & Hqt & Hkw).
    pose proof (parse_number_text m e r2 H0 Hn Hq) as Hp.
    rewrite Hc in *. cbn [app parse_value] in *.
    assert (Hws : is_json_ws c = false).
    { destruct (is_json_ws c) eqn:Hw; [|reflexivity].
      apply json_ws_is_space in Hw. rewrite Hw in Hsp. discriminate Hsp. }
    rewrite skip_ws_plain by exact Hws. rewrite Ho, Hb, Hqt.
    destruct (Hkw (q ++ r2)) as (-> & -> & ->). rewrite Hp. reflexivity.
  - exists 1%nat. intros r2 _. unfold serialize, string_text.
    cbn [app parse_value]. rewrite (skip_ws_plain quote) by reflexivity.
    change (N.eqb quote (chr "{")) with false.
    change (N.eqb quote (chr "[")) with false.
    change (N.eqb quote quote) with true. cbv iota.
    rewrite <- app_assoc. cbn [app]. rewrite parse_escaped. reflexivity.
  - inversion Hdoc as [ | | | | items' Hall | ]; subst.
    assert (Hrb : Forall reads_back items).
    { rewrite Forall_forall in *. intros x Hx. apply (IH x Hx). apply (Hall x Hx). }
    destruct items as [|x items'].
    + exists 1%nat. intros r2 _. reflexivity.
    + destruct (elements_parse (x :: items') ltac:(discriminate) Hrb) as [fuel Hel].
      exists (S fuel). intros r2 _.
      change (serialize (JArr (x :: items')))
        with (chr "[" :: sep_join (chr ",") (map serialize (x :: items')) ++ [chr "]"]).
      cbn [app]. rewrite <- app_assoc.
      cbn [app parse_value]. rewrite (skip_ws_plain (chr "[")) by reflexivity.
      change (N.eqb (chr "[") (chr "{")) with false.
      change (N.eqb (chr "[") (chr "[")) with true. cbv iota.
      pose proof (Hel [] r2) as Hp. cbn [app] in Hp.
      assert (Hhead : exists c2 t2,
                skip_ws (sep_join (chr ",") (map serialize (x :: items')) ++ chr "]" :: r2)
                = c2 :: t2 /\ N.eqb c2 (chr "]") = false).
      { destruct fuel; [discriminate Hp|]. cbn [parse_elements] in Hp.
        destruct (parse_value fuel _) as [[v1 rest1]| |] eqn:Hv; try discriminate Hp.
        destruct (parse_value_head _ _ _ Hv) as (c2 & t2 & Hsk & Hc & _).
        exists c2, t2. split; assumption. }
      destruct Hhead as (c2 & t2 & -> & ->). exact Hp.
  - inversion Hdoc as [ | | | | | members' Hnd Hall]; subst.
    assert (Hrb : Forall (fun member => reads_back (snd member)) members).
    { rewrite Forall_forall in *. intros x Hx. apply (IH x Hx). apply (Hall x Hx). }
    destruct members as [|x members'].
    + exists 1%nat. intros r2 _. reflexivity.
    + destruct (members_parse (x :: members') ltac:(discriminate) Hrb) as [fuel Hel].
      exists (S fuel). intros r2 _.
      change (serialize (JObj (x :: members')))
        with (chr "{" :: sep_join (chr ",") (map member_text (x :: members')) ++ [chr "}"]).
      cbn [app]. rewrite <- app_assoc.
      cbn [app parse_value]. rewrite (skip_ws_plain (chr "{")) by reflexivity.
      change (N.eqb (chr "{") (chr "{")) with true. cbv iota.
      pose proof (Hel [] r2 Hnd) as Hp. cbn [app] in Hp.
      assert (Hhead : exists c2 t2,
                skip_ws (sep_join (chr ",") (map member_text (x :: members')) ++ chr "}" :: r2)
                = c2 :: t2 /\ N.eqb c2 (chr "}") = false).
      { destruct x as [k v]. destruct members'; cbn [map sep_join];
          unfold member_text at 1, string_text; cbn [fst app];
          rewrite (skip_ws_plain quote) by reflexivity;
          eexists _, _; split; reflexivity. }
      destruct Hhead as (c2 & t2 & Hsk & Hc).
      rewrite Hsk, Hc. exact Hp.
Qed.

(** Every document is read back from its serialisation. *)
Lemma serialize_round_trip D : document D -> JSON_parse (serialize D) = Some D.
Proof.
  intros Hdoc. destruct (serialize_reads_back D Hdoc) as [fuel Hp].
  apply JSON_parse_iff. exists fuel, []. split; [|reflexivity].
  rewrite <- (app_nil_r (serialize D)). apply Hp. exact I.
Qed.

Lemma spaces_without c l :
  is_space c = false -> Forall (fun x => is_space x = true) l -> ~ In c l.
Proof.
  intros Hc Hl Hin. rewrite Forall_forall in Hl. rewrite (Hl c Hin) in Hc. discriminate Hc.
Qed.

(** The third strategy: an accepted object text between a prefix without
    an opening brace and a suffix without a closing brace is what the
    slice from the first opening to the last closing brace gives back,
    unless one of the first two strategies returns another value. *)
Lemma extraction_between_braces s D prefix body suffix :
  JSON_parse s = Some D ->
  s = chr "{" :: body ++ [chr "}"] ->
  ~ In (chr "{") prefix ->
  ~ In (chr "}") suffix ->
  JSON_parse (prefix ++ s ++ suffix) = None \/
  JSON_parse (prefix ++ s ++ suffix) = Some D ->
  (forall inner,
     regex_match fence_pattern (prefix ++ s ++ suffix) = Some (Some inner) ->
     JSON_parse inner = None \/ JSON_parse inner = Some D) ->
  tryParseJSON (prefix ++ s ++ suffix) = Returned D.
Proof.
  intros Hs Hobj Hpre Hsuf Hwhole Hfence.
  unfold tryParseJSON, try_parse.
  destruct Hwhole as [Hwhole|Hwhole]; rewrite Hwhole; [|reflexivity].
  assert (Hstep2 :
    match regex_match fence_pattern (prefix ++ s ++ suffix) with
    | Some (Some inner) => JSON_parse inner
    | _ => None
    end = None \/
    match regex_match fence_pattern (prefix ++ s ++ suffix) with
    | Some (Some inner) => JSON_parse inner
    | _ => None
    end = Some D).
  { destruct (regex_match fence_pattern (prefix ++ s ++ suffix)) as [[inner|]|];
      [apply Hfence; reflexivity | left; reflexivity | left; reflexivity]. }
  destruct Hstep2 as [Hstep2|Hstep2]; rewrite Hstep2; [|reflexivity]. cbv zeta.
  assert (Hopen : indexOf (chr "{") (prefix ++ s ++ suffix) = Z.of_nat (length prefix)).
  { rewrite Hobj. cbn [app]. apply indexOf_first. exact Hpre. }
  assert (Hclose : lastIndexOf (chr "}") (prefix ++ s ++ suffix) + 1
                   = Z.of_nat (length prefix + length s)).
  { rewrite Hobj.
    replace (prefix ++ (chr "{" :: body ++ [chr "}"]) ++ suffix)
      with ((prefix ++ chr "{" :: body) ++ chr "}" :: suffix)
      by (rewrite <- !app_assoc; cbn [app]; rewrite <- app_assoc; reflexivity).
    rewrite lastIndexOf_last by exact Hsuf.
    rewrite !length_app. cbn [length]. rewrite length_app. cbn [length]. lia. }
  rewrite Hclose, Hopen.
  replace (Z.of_nat (length prefix) =? -1) with false
    by (symmetry; apply Z.eqb_neq; lia).
  assert (Hlen : (0 < length s)%nat) by (rewrite Hobj; cbn [length]; lia).
  replace (lastIndexOf (chr "}") (prefix ++ s ++ suffix) =? -1) with false
    by (symmetry; apply Z.eqb_neq; lia).
  cbn [negb andb]. rewrite substring_middle, Hs. reflexivity.
Qed.

(** The text of an accepted object runs from its opening to its closing
    brace, between white space. *)
Lemma object_text s members :
  JSON_parse s = Some (JObj members) ->
  exists lead body r,
    s = lead ++ (chr "{" :: body ++ [chr "}"]) ++ r /\
    Forall (fun c => is_json_ws c = true) lead /\
    Forall (fun c => is_json_ws c = true) r /\
    JSON_parse (chr "{" :: body ++ [chr "}"]) = Some (JObj members).
Proof.
  intros Hs.
  destruct (JSON_parse_core s _ Hs) as (c & q & r & Hsk & Hr & Hopen & Hclose & Hcore).
  cbn [opening closing] in Hopen, Hclose. subst c.
  destruct (skip_ws_lead_split s) as (lead & Hlead & Hleadws).
  assert (Hqne : q <> []) by (intros ->; discriminate Hclose).
  destruct (exists_last Hqne) as (body & x & Hx). rewrite Hx in Hclose.
  change (chr "{" :: body ++ [x]) with ((chr "{" :: body) ++ [x]) in Hclose.
  rewrite last_snoc in Hclose. subst x q.
  exists lead, body, r. split; [rewrite Hlead at 1; rewrite Hsk; reflexivity|].
  split; [exact Hleadws|]. split; [exact Hr | exact Hcore].
Qed.

(** An accepted object between a prefix and a suffix. *)
Lemma extraction_from_prose s members prefix suffix :
  JSON_parse s = Some (JObj members) ->
  ~ In (chr "{") prefix ->
  ~ In (chr "}") suffix ->
  JSON_parse (prefix ++ s ++ suffix) = None \/
  JSON_parse (prefix ++ s ++ suffix) = Some (JObj members) ->
  (forall inner,
     regex_match fence_pattern (prefix ++ s ++ suffix) = Some (Some inner) ->
     JSON_parse inner = None \/ JSON_parse inner = Some (JObj members)) ->
  tryParseJSON (prefix ++ s ++ suffix) = Returned (JObj members).
Proof.
  intros Hs Hpre Hsuf Hwhole Hfence.
  destruct (object_text s members Hs) as (lead & body & r & Htext & Hlead & Hr & Hcore).
  assert (Heq : prefix ++ s ++ suffix
                = (prefix ++ lead) ++ (chr "{" :: body ++ [chr "}"]) ++ (r ++ suffix)).
  { rewrite Htext. assoc. }
  rewrite Heq in Hwhole, Hfence |- *.
  apply (extraction_between_braces _ _ _ body);
    [exact Hcore | reflexivity | | | exact Hwhole | exact Hfence].
  - intros Hi. apply in_app_or in Hi. destruct Hi as [Hi|Hi]; [exact (Hpre Hi)|].
    revert Hi. apply spaces_without; [reflexivity | apply json_ws_spaces; exact Hlead].
  - intros Hi. apply in_app_or in Hi. destruct Hi as [Hi|Hi]; [|exact (Hsuf Hi)].
    revert Hi. apply spaces_without; [reflexivity | apply json_ws_spaces; exact Hr].
Qed.

(** An accepted text in a fenced block. *)
Lemma extraction_from_fence s D tag ws1 ws2 :
  JSON_parse s = Some D ->
  tag = [] \/ tag = lit "json" ->
  Forall (fun c => is_space c = true) ws1 ->
  Forall (fun c => is_space c = true) ws2 ->
  includes s (lit "```") = false \/ (exists members, D = JObj members) ->
  tryParseJSON (lit "```" ++ tag ++ ws1 ++ s ++ ws2 ++ lit "```") = Returned D.
Proof.
  intros Hs Htag Hws1 Hws2 Hcase.
  destruct (JSON_parse_core s D Hs) as (c & q & r & Hsk & Hr & Hopen & Hclose & Hcore).
  pose proof (fenced_capture s D tag ws1 ws2 Hs Htag Hws1 Hws2) as Hcap.
  assert (Hwhole : JSON_parse (lit "```" ++ tag ++ ws1 ++ s ++ ws2 ++ lit "```") = None)
    by apply JSON_parse_backtick.
  destruct (includes s (lit "```")) eqn:Hin.
  - (* a fence inside the text: the slice between the braces *)
    destruct Hcase as [Hcase|[members ->]]; [discriminate Hcase|].
    assert (Htext : lit "```" ++ tag ++ ws1 ++ s ++ ws2 ++ lit "```"
                    = (lit "```" ++ tag ++ ws1) ++ s ++ (ws2 ++ lit "```")) by assoc.
    rewrite Htext in Hcap, Hwhole |- *.
    apply extraction_from_prose; [exact Hs | | | left; exact Hwhole |].
    + intros Hi. apply in_app_or in Hi. destruct Hi as [Hi|Hi]; [revert Hi; not_in_text|].
      apply in_app_or in Hi. destruct Hi as [Hi|Hi].
      { destruct Htag as [-> | ->]; revert Hi; not_in_text. }
      revert Hi. apply spaces_without; [reflexivity | exact Hws1].
    + intros Hi. apply in_app_or in Hi. destruct Hi as [Hi|Hi]; [|revert Hi; not_in_text].
      revert Hi. apply spaces_without; [reflexivity | exact Hws2].
    + intros inner Hinner. rewrite Hcap in Hinner. injection Hinner as <-. left.
      apply (fenced_capture_cut s (JObj members) ws2 Hs Hin).
  - (* no fence inside the text: the fenced interior *)
    unfold tryParseJSON, try_parse. rewrite Hwhole, Hcap.
    rewrite (fenced_capture_plain s D ws2 c q r Hsk Hr Hclose Hin Hws2).
    rewrite Hcore. reflexivity.
Qed.

(** C8, as the code has it.  Every document [D] is read back from its
    serialisation, by [JSON.parse] and so by [tryParseJSON].  More
    generally, let [s] be any text that [JSON.parse] accepts as [D].  Then
    [tryParseJSON] returns [D] on [s] itself.  On [s] inside a fenced
    block, tagged json or not and with any white space between the fences
    and [s], it returns [D] when [s] holds no run of three backticks or [D]
    is an object; when [s] does hold such a run, the interior that the
    pattern captures is cut at it and is never accepted, so that only the
    slice between the braces can still give a value.  On [s] between a
    prefix and a suffix it returns [D] when [D] is an object, the prefix
    has no opening brace, the suffix has no closing brace, and neither the
    whole text nor the interior of a fenced block in it is accepted as
    another value. *)
Theorem extraction_round_trip s D tag ws1 ws2 prefix suffix :
  (document D ->
   JSON_parse (serialize D) = Some D /\ tryParseJSON (serialize D) = Returned D) /\
  (JSON_parse s = Some D ->
   tryParseJSON s = Returned D /\
   ((tag = [] \/ tag = lit "json") ->
    Forall (fun c => is_space c = true) ws1 ->
    Forall (fun c => is_space c = true) ws2 ->
    (includes s (lit "```") = false \/ (exists members, D = JObj members) ->
     tryParseJSON (lit "```" ++ tag ++ ws1 ++ s ++ ws2 ++ lit "```") = Returned D) /\
    (includes s (lit "```") = true ->
     forall inner,
       regex_match fence_pattern (lit "```" ++ tag ++ ws1 ++ s ++ ws2 ++ lit "```")
         = Some (Some inner) ->
       JSON_parse inner = None)) /\
   ((exists members, D = JObj members) ->
    ~ In (chr "{") prefix ->
    ~ In (chr "}") suffix ->
    JSON_parse (prefix ++ s ++ suffix) = None \/
    JSON_parse (prefix ++ s ++ suffix) = Some D ->
    (forall inner,
       regex_match fence_pattern (prefix ++ s ++ suffix) = Some (Some inner) ->
       JSON_parse inner = None \/ JSON_parse inner = Some D) ->
    tryParseJSON (prefix ++ s ++ suffix) = Returned D)).
Proof.
  split.
  - intros Hdoc. pose proof (serialize_round_trip D Hdoc) as Hrt.
    split; [exact Hrt|]. unfold tryParseJSON, try_parse. rewrite Hrt. reflexivity.
  - intros Hs. split; [|split].
    + unfold tryParseJSON, try_parse. rewrite Hs. reflexivity.
    + intros Htag Hws1 Hws2. split.
      * intros Hcase. apply extraction_from_fence; assumption.
      * intros Hin inner Hinner.
        rewrite (fenced_capture s D tag ws1 ws2 Hs Htag Hws1 Hws2) in Hinner.
        injection Hinner as <-. apply (fenced_capture_cut s D ws2 Hs Hin).
    + intros [members ->] Hpre Hsuf Hwhole Hfence.
      apply extraction_from_prose; assumption.
Qed.

Lemma extraction_round_trip_witness :
  let D := JObj [(lit "a", JStr (lit "```")); (lit "n", JNum (-15) (-1))] in
  serialize D = json_lit "{'a':'```','n':-15e-1}" /\
  JSON_parse (serialize D) = Some D /\
  tryParseJSON (serialize D) = Returned D /\
  tryParseJSON (lit "```" ++ lit "json" ++ [10%N] ++ serialize D ++ [10%N] ++ lit "```")
    = Returned D /\
  tryParseJSON (lit "Here is the analysis: " ++ serialize D ++ lit " Hope it helps.")
    = Returned D.
Proof.
  cbv zeta.
  assert (Hdoc : document (JObj [(lit "a", JStr (lit "```")); (lit "n", JNum (-15) (-1))])).
  { constructor.
    - repeat constructor; cbn; intuition discriminate.
    - repeat constructor; cbn; intros; discriminate. }
  destruct (extraction_round_trip
              (serialize (JObj [(lit "a", JStr (lit "```")); (lit "n", JNum (-15) (-1))]))
              (JObj [(lit "a", JStr (lit "```")); (lit "n", JNum (-15) (-1))])
              (lit "json") [10%N] [10%N]
              (lit "Here is the analysis: ") (lit " Hope it helps.")) as [Hser Hgen].
  destruct (Hser Hdoc) as [Hrt Hdirect].
  destruct (Hgen Hrt) as [_ [Hfence Hprose]].
  destruct (Hfence (or_intror eq_refl) ltac:(repeat constructor) ltac:(repeat constructor))
    as [Hfenced _].
  split; [reflexivity|]. split; [exact Hrt|]. split; [exact Hdirect|]. split.
  - apply Hfenced. right. eexists. reflexivity.
  - apply Hprose.
    + eexists. reflexivity.
    + not_in_text.
    + not_in_text.
    + left. reflexivity.
    + intros inner H. discriminate H.
Defined.

(** C8, as stated, fails.  Between arbitrary prose: a brace in the prose
    moves the slice and nothing is extracted; a fence inside a string of the
    document is taken for a fenced block and another value is extracted.
    In a fenced block: a document that is not an object and holds a fence in
    a string is cut at that fence and nothing is extracted. *)
Lemma extraction_breaks_on_prose :
  JSON_parse (json_lit "{'a':1}") = Some (JObj [(lit "a", JNum 1 0)]) /\
  tryParseJSON (lit "Use {braces}: " ++ json_lit "{'a':1}" ++ lit "")
    = Thrown (Error (lit "Could not parse JSON from response.")) /\
  JSON_parse (json_lit "{'a':'```1```'}") = Some (JObj [(lit "a", JStr (lit "```1```"))]) /\
  tryParseJSON (lit "Result: " ++ json_lit "{'a':'```1```'}" ++ lit " (done)")
    = Returned (JNum 1 0) /\
  JNum 1 0 <> JObj [(lit "a", JStr (lit "```1```"))] /\
  JSON_parse (json_lit "['```']") = Some (JArr [JStr (lit "```")]) /\
  tryParseJSON (lit "```" ++ lit "json" ++ [10%N] ++ json_lit "['```']" ++ [10%N] ++ lit "```")
    = Thrown (Error (lit "Could not parse JSON from response.")).
Proof.
  repeat split; try reflexivity. discriminate.
Qed.

(** ** The end-to-end scenarios of the design document *)

(** Scenario A: a 5 MB file goes inline, one inference attempt answers with
    a clean document, and the run succeeds. *)
Example scenario_inline :
  let m := snd (handleFileChange (Some (clip 5)) (mkMachine initialUi [])) in
  let run := runAnalysis sampleEnv m in
  fst run = Returned tt /\
  schedule (trace (snd run)) =
    [Net (GenerateContent (InlineData (lit "video/mp4") (Some (lit "AAAA"))))] /\
  error (ui (snd run)) = None /\
  isAnalyzing (ui (snd run)) = false /\
  activeTab (ui (snd run)) = TabPlayers /\
  analysisData (ui (snd run)) =
    JSON_parse (json_lit "{'match_context':'Unknown','player_analysis':[{'player':'No. 9'}]}").
Proof. vm_compute. repeat split. Qed.

(** Scenario B: a 50 MB file is uploaded, polled until ACTIVE, and analysed
    through its URI. *)
Example scenario_remote :
  let m := snd (handleFileChange (Some (clip 50)) (mkMachine initialUi [])) in
  let run := runAnalysis sampleEnv m in
  fst run = Returned tt /\
  schedule (trace (snd run)) =
    [Net (UploadStart (lit "key") (clip 50));
     Net (UploadBytes (lit "https://upload/session") (clip 50));
     Slept 2000; Net (FileStatus (lit "files/abc") (lit "key"));
     Slept 2000; Net (FileStatus (lit "files/abc") (lit "key"));
     Net (GenerateContent (FileData (lit "video/mp4") (lit "https://files/abc")))] /\
  error (ui (snd run)) = None /\
  isAnalyzing (ui (snd run)) = false.
Proof. vm_compute. repeat split. Qed.

(** Scenario C: the inference fails twice with status 503 and then
    succeeds; the retry counter ends at 2 and the run succeeds. *)
Example scenario_retries :
  let env := mkEnv (lit "key") None None []
               (Some (Fulfilled (lit "data:video/mp4;base64,AAAA")))
               [Rejected (mkError (Some 503) None (Some (lit "Service Unavailable")) (lit "{}"));
                Rejected (mkError (Some 503) None (Some (lit "Service Unavailable")) (lit "{}"));
                Fulfilled (Some (json_lit "{'events':[]}"))]
               (fun _ => false) in
  let m := snd (handleFileChange (Some (clip 5)) (mkMachine initialUi [])) in
  let run := runAnalysis env m in
  fst run = Returned tt /\
  delays (trace (snd run)) = [4000; 8000] /\
  retryCount (ui (snd run)) = 2 /\
  loadingStage (ui (snd run)) = lit "Retrying analysis (Attempt 3/3)..." /\
  error (ui (snd run)) = None /\
  analysisData (ui (snd run)) = Some (JObj [(lit "events", JArr [])]).
Proof. vm_compute. repeat split. Qed.

(** ** The parser and the size rendering on sample inputs *)

Example parse_document :
  JSON_parse (json_lit " {'a': [1, 2.50, -3e2, true, null, 'x\ty'], 'b': {}, 'a': 0.0} ")
  = Some (JObj [(lit "a", JNum 0 0); (lit "b", JObj [])]).
Proof. reflexivity. Qed.

Example parse_numbers :
  map JSON_parse [lit "2.50"; lit "-3e2"; lit "-0"; lit "1E+2"; lit "100"; lit "0.001"]
  = [Some (JNum 25 (-1)); Some (JNum (-3) 2); Some (JNum 0 0); Some (JNum 1 2);
     Some (JNum 1 2); Some (JNum 1 (-3))].
Proof. reflexivity. Qed.

Example parse_escapes :
  JSON_parse (json_lit "'\u20AC\n\\'") = Some (JStr [8364%N; 10%N; backslash]).
Proof. reflexivity. Qed.

Example parse_rejects :
  map JSON_parse
    [lit ""; lit "012"; lit "1."; lit "-"; lit "[1,]"; json_lit "{'a':1,}";
     json_lit "{'a' 1}"; lit "[[]"; lit "nul"; lit "truex"; json_lit "'open";
     lit "{} {}"; lit "+1"; lit ".5"]
  = repeat None 14.
Proof. reflexivity. Qed.

Example size_rendering :
  map megabytes_toFixed1 [2097152001; 2150000000; 52428; 0]
  = [lit "2000.0"; lit "2050.4"; lit "0.0"; lit "0.0"].
Proof. reflexivity. Qed.

(** * Further properties of the code *)

(** ** The retry loop, whatever the model answers *)

Lemma retryLoop_pending part a m :
  a < MAX_RETRIES ->
  retryLoop part [] a m =
  (Pending, mkMachine (ui (snd (announceRetry a m)))
              (trace m ++ [Net (GenerateContent part)])).
Proof.
  intros Ha. apply Z.ltb_lt in Ha. cbn [retryLoop]. rewrite Ha.
  unfold bind at 1. rewrite announceRetry_returns. reflexivity.
Qed.

(** Splits the first three outcomes of the model into all their cases and
    runs the loop on each. *)
Ltac retry_run :=
  repeat first
    [ rewrite retryLoop_pending by (unfold MAX_RETRIES; lia)
    | rewrite retryLoop_fulfilled by (unfold MAX_RETRIES; lia)
    | rewrite retryLoop_retry by ((unfold MAX_RETRIES; lia) || assumption)
    | rewrite retryLoop_rethrow
        by ((unfold MAX_RETRIES; lia) || (left; assumption) || (right; unfold MAX_RETRIES; lia)) ].

Ltac retry_cases outcomes :=
  let e1 := fresh "e1" in let e2 := fresh "e2" in let e3 := fresh "e3" in
  let r1 := fresh "r1" in let r2 := fresh "r2" in let r3 := fresh "r3" in
  let rest := fresh "rest" in
  destruct outcomes as [|[e1|r1] [|[e2|r2] [|[e3|r3] rest]]];
  try (destruct (isRetryable e1) eqn:?);
  try (destruct (isRetryable e2) eqn:?);
  unfold invokeWithRetry; retry_run.

(** X1.  Whatever the outcomes of the calls, the executor issues at most
    three [generateContent] calls and awaits at most the two delays 4000 ms
    and 8000 ms, in that order. *)
Theorem retry_effort_bounded part outcomes m :
  exists evs,
    trace (snd (invokeWithRetry part outcomes m)) = trace m ++ evs /\
    (length (requests evs) <= 3)%nat /\
    Forall (fun r => r = GenerateContent part) (requests evs) /\
    (delays evs = [] \/ delays evs = [4000] \/ delays evs = [4000; 8000]).
Proof.
  retry_cases outcomes; cbn [snd trace]; rewrite <- ?app_assoc;
    (eexists; split; [reflexivity|]);
    (split; [cbn; lia|]); (split; [repeat constructor|]);
    cbn; auto.
Qed.

Ltac provenance_side :=
  cbn [map app length];
  first [ reflexivity | lia | assumption
        | solve [repeat constructor; assumption]
        | solve [left; assumption] | solve [right; reflexivity] ].

(** X2.  The result of the executor tells what the model answered.  A
    returned text is the text of a successful response that came after at
    most two retryable failures; a thrown error is a failure that came after
    at most two retryable failures and either was not retryable or was the
    third failure; and the executor only stays suspended when the model
    stopped answering after at most two retryable failures. *)
Theorem retry_result_provenance part outcomes m :
  match fst (invokeWithRetry part outcomes m) with
  | Returned t =>
      exists errs r rest,
        outcomes = map Rejected errs ++ Fulfilled r :: rest /\
        Forall (fun e => isRetryable e = true) errs /\
        (length errs <= 2)%nat /\ t = text_or_empty r
  | Thrown e =>
      exists errs rest,
        outcomes = map Rejected errs ++ Rejected e :: rest /\
        Forall (fun e => isRetryable e = true) errs /\
        (length errs <= 2)%nat /\
        (isRetryable e = false \/ length errs = 2%nat)
  | Pending =>
      exists errs,
        outcomes = map Rejected errs /\
        Forall (fun e => isRetryable e = true) errs /\
        (length errs <= 2)%nat
  end.
Proof.
  retry_cases outcomes; cbn [fst].
  all: first
    [ solve [exists (@nil jsError); repeat eexists; provenance_side]
    | solve [exists [e1]; repeat eexists; provenance_side]
    | solve [exists [e1; e2]; repeat eexists; provenance_side] ].
Qed.

(** ** The upload helper, request by request *)

(** X3.  One call of the upload helper opens one session: it sends the
    session start first and at most one byte transfer after it, and the
    bytes only go to the URL that a successful start response named in its
    [x-goog-upload-url] header.  The React state is not touched. *)
Theorem upload_requests f apiKey start transfer m :
  let run := uploadFileToGemini f apiKey start transfer m in
  ui (snd run) = ui m /\
  (trace (snd run) = trace m ++ [Net (UploadStart apiKey f)] \/
   exists s url,
     start = Some (Fulfilled s) /\ start_ok s = true /\
     start_upload_url s = Some url /\ url <> [] /\
     trace (snd run) =
       trace m ++ [Net (UploadStart apiKey f); Net (UploadBytes url f)]).
Proof.
  cbv zeta. unfold uploadFileToGemini. run_monad.
  destruct start as [[e|s]|]; run_monad; auto.
  destruct (start_ok s) eqn:Hs; run_monad; auto.
  destruct (start_upload_url s) as [[|c url]|] eqn:Hu; run_monad; auto.
  split.
  - destruct transfer as [[e|b]|]; run_monad; auto.
    destruct (bytes_ok b); run_monad; auto.
    destruct (bytes_file b); run_monad; auto.
  - right. exists s, (c :: url). repeat split; auto; try discriminate.
    destruct transfer as [[e|b]|]; run_monad; rewrite <- ?app_assoc; auto.
    destruct (bytes_ok b); run_monad; rewrite <- ?app_assoc; auto.
    destruct (bytes_file b); run_monad; rewrite <- ?app_assoc; auto.
Qed.

(** ** The readiness poll, for any number of PROCESSING replies *)

Lemma pollLoop_until_value fileName apiKey n v rest m :
  state_is v (lit "PROCESSING") = false ->
  pollLoop fileName apiKey
    (repeat (statusReply (lit "PROCESSING")) n
       ++ Fulfilled (mkStatus true (Fulfilled v)) :: rest)
    (SString (lit "PROCESSING")) m =
  let m1 := mkMachine (ui m)
              (trace m ++ concat (repeat [Slept 2000; Net (FileStatus fileName apiKey)] (S n))) in
  if state_is v (lit "FAILED")
  then (Thrown (Error (lit "Video processing failed on server.")), m1)
  else (Returned v, m1).
Proof.
  intros Hv. rewrite pollLoop_processing.
  rewrite (pollLoop_step _ _ _ v) by reflexivity.
  cbv zeta. cbn [ui trace].
  replace (concat (repeat [Slept 2000; Net (FileStatus fileName apiKey)] (S n)))
    with (concat (repeat [Slept 2000; Net (FileStatus fileName apiKey)] n)
            ++ [Slept 2000; Net (FileStatus fileName apiKey)]).
  2:{ cbn [repeat]. rewrite repeat_cons, concat_app. cbn [concat].
      rewrite app_nil_r. reflexivity. }
  rewrite <- app_assoc.
  destruct (state_is v (lit "FAILED")); [reflexivity|].
  apply pollLoop_exit. exact Hv.
Qed.

(** X4.  After any number [n] of PROCESSING replies, the first reply with
    another state ends the poll, after [n + 1] sleeps of 2000 ms and
    [n + 1] status checks, a sleep before each check.  ACTIVE resolves it,
    FAILED throws "Video processing failed on server.", and every other
    state, a missing one included, throws "File state is ..." with the
    state spelled out. *)
Theorem poll_ends_on_first_other_state fileName apiKey n v rest m :
  state_is v (lit "PROCESSING") = false ->
  let run := awaitActive fileName apiKey
               (repeat (statusReply (lit "PROCESSING")) n
                  ++ Fulfilled (mkStatus true (Fulfilled v)) :: rest) m in
  fst run =
    (if state_is v (lit "FAILED")
     then Thrown (Error (lit "Video processing failed on server."))
     else if state_is v (lit "ACTIVE") then Returned tt
     else Thrown (Error (lit "File state is " ++ render_state v))) /\
  schedule (trace (snd run)) =
    schedule (trace m)
      ++ concat (repeat [Slept 2000; Net (FileStatus fileName apiKey)] (S n)) /\
  delays (trace (snd run)) = delays (trace m) ++ repeat 2000 (S n).
Proof.
  intros Hv. cbv zeta. unfold awaitActive, bind.
  rewrite (pollLoop_until_value fileName apiKey n v rest m Hv). cbv zeta.
  assert (Hs : forall k, schedule (concat (repeat [Slept 2000; Net (FileStatus fileName apiKey)] k))
                         = concat (repeat [Slept 2000; Net (FileStatus fileName apiKey)] k)).
  { induction k as [|k IH]; [reflexivity|].
    cbn [repeat concat]. unfold schedule in *. rewrite filter_app, IH. reflexivity. }
  destruct (state_is v (lit "FAILED")).
  - cbn [fst snd trace]. unfold schedule at 1. rewrite filter_app.
    fold (schedule (trace m)).
    fold (schedule (concat (repeat [Slept 2000; Net (FileStatus fileName apiKey)] (S n)))).
    rewrite Hs, delays_app, delays_repeat_polls. auto.
  - destruct (state_is v (lit "ACTIVE")); cbn [negb fst snd trace ret throw];
      unfold schedule at 1; rewrite filter_app;
      fold (schedule (trace m));
      fold (schedule (concat (repeat [Slept 2000; Net (FileStatus fileName apiKey)] (S n))));
      rewrite Hs, delays_app, delays_repeat_polls; auto.
Qed.

Lemma poll_ends_on_first_other_state_witness :
  let run := awaitActive (lit "files/abc") (lit "key")
               (repeat (statusReply (lit "PROCESSING")) 2
                  ++ Fulfilled (mkStatus true (Fulfilled SUndefined)) :: [])
               (mkMachine initialUi []) in
  fst run =
    (if state_is SUndefined (lit "FAILED")
     then Thrown (Error (lit "Video processing failed on server."))
     else if state_is SUndefined (lit "ACTIVE") then Returned tt
     else Thrown (Error (lit "File state is " ++ render_state SUndefined))) /\
  schedule (trace (snd run)) =
    schedule []
      ++ concat (repeat [Slept 2000; Net (FileStatus (lit "files/abc") (lit "key"))] 3) /\
  delays (trace (snd run)) = delays [] ++ repeat 2000 3.
Proof.
  apply (poll_ends_on_first_other_state (lit "files/abc") (lit "key") 2 SUndefined []
           (mkMachine initialUi [])).
  reflexivity.
Defined.

Lemma polls_snoc fileName apiKey n (tr : list event) :
  ((tr ++ concat (repeat [Slept 2000; Net (FileStatus fileName apiKey)] n))
     ++ [Slept 2000]) ++ [Net (FileStatus fileName apiKey)]
  = tr ++ concat (repeat [Slept 2000; Net (FileStatus fileName apiKey)] (S n)).
Proof.
  cbn [repeat]. rewrite repeat_cons, concat_app. cbn [concat app].
  rewrite <- !app_assoc. reflexivity.
Qed.

(** X5.  The poll has no time limit: as long as the server answers
    PROCESSING it goes on, one sleep and one status check per reply, and is
    still waiting after the [n]-th reply, for every [n]. *)
Theorem poll_has_no_timeout fileName apiKey n m :
  let run := awaitActive fileName apiKey (repeat (statusReply (lit "PROCESSING")) n) m in
  fst run = Pending /\
  trace (snd run) =
    trace m ++ concat (repeat [Slept 2000; Net (FileStatus fileName apiKey)] (S n)) /\
  delays (trace (snd run)) = delays (trace m) ++ repeat 2000 (S n).
Proof.
  cbv zeta. unfold awaitActive, bind.
  rewrite <- (app_nil_r (repeat (statusReply (lit "PROCESSING")) n)).
  rewrite pollLoop_processing. cbn [pollLoop].
  change (state_is (SString (lit "PROCESSING")) (lit "PROCESSING")) with true.
  cbv iota. run_monad. rewrite polls_snoc.
  repeat split. rewrite delays_app, delays_repeat_polls. reflexivity.
Qed.

(** X6.  A status check that fails as a request (the fetch rejects) or
    whose body cannot be decoded aborts the poll with that very error,
    however many PROCESSING replies came before; no further check is
    made. *)
Theorem poll_aborts_on_broken_check fileName apiKey n check e rest m :
  check = Rejected e \/
  (exists r, check = Fulfilled r /\ status_ok r = true /\ status_state r = Rejected e) ->
  let run := awaitActive fileName apiKey
               (repeat (statusReply (lit "PROCESSING")) n ++ check :: rest) m in
  fst run = Thrown e /\
  trace (snd run) =
    trace m ++ concat (repeat [Slept 2000; Net (FileStatus fileName apiKey)] (S n)).
Proof.
  intros Hcheck. cbv zeta. unfold awaitActive, bind.
  rewrite pollLoop_processing. cbn [pollLoop].
  change (state_is (SString (lit "PROCESSING")) (lit "PROCESSING")) with true.
  cbv iota.
  destruct Hcheck as [-> | [r [-> [Hok Hst]]]]; run_monad.
  - rewrite polls_snoc. split; reflexivity.
  - rewrite Hok. run_monad. rewrite Hst. run_monad.
    rewrite polls_snoc. split; reflexivity.
Qed.

Lemma poll_aborts_on_broken_check_witness :
  let run := awaitActive (lit "files/abc") (lit "key")
               (repeat (statusReply (lit "PROCESSING")) 1
                  ++ Rejected (mkError None None (Some (lit "Failed to fetch")) (lit "{}"))
                  :: [statusReply (lit "ACTIVE")])
               (mkMachine initialUi []) in
  fst run = Thrown (mkError None None (Some (lit "Failed to fetch")) (lit "{}")) /\
  trace (snd run) =
    [] ++ concat (repeat [Slept 2000; Net (FileStatus (lit "files/abc") (lit "key"))] 2).
Proof.
  apply (poll_aborts_on_broken_check (lit "files/abc") (lit "key") 1
           (Rejected (mkError None None (Some (lit "Failed to fetch")) (lit "{}")))
           (mkError None None (Some (lit "Failed to fetch")) (lit "{}"))
           [statusReply (lit "ACTIVE")] (mkMachine initialUi [])).
  left. reflexivity.
Defined.

(** ** Whole runs *)

Lemma emits_get_ui P : emits P get_ui.
Proof. intros m. exists []. simpl. rewrite app_nil_r. auto. Qed.

Lemma emits_lift {A} P (r : result A) : emits P (lift r).
Proof. intros m. exists []. simpl. rewrite app_nil_r. auto. Qed.

Lemma emits_tryCatchFinally {A} P (body : M A) handler fin :
  emits P body -> (forall e, emits P (handler e)) -> emits P fin ->
  emits P (tryCatchFinally body handler fin).
Proof.
  intros Hb Hh Hf m. unfold tryCatchFinally.
  destruct (Hb m) as [evs [Ht Hp]].
  destruct (body m) as [[a|e|] m1]; cbn [snd] in Ht.
  - destruct (emits_bind P fin (fun _ => ret a) Hf (fun _ => emits_ret P a) m1)
      as [evs' [Ht' Hp']].
    exists (evs ++ evs'). rewrite Ht', Ht, app_assoc. split; [reflexivity|].
    apply Forall_app; auto.
  - destruct (Hh e m1) as [evs1 [Ht1 Hp1]].
    destruct (handler e m1) as [[a|e'|] m2]; cbn [snd] in Ht1.
    + destruct (emits_bind P fin (fun _ => ret a) Hf (fun _ => emits_ret P a) m2)
        as [evs' [Ht' Hp']].
      exists (evs ++ evs1 ++ evs'). rewrite Ht', Ht1, Ht, !app_assoc.
      split; [reflexivity|]. repeat (apply Forall_app; split); auto.
    + destruct (emits_bind P fin (fun _ => @throw A e') Hf (fun _ => emits_throw P e') m2)
        as [evs' [Ht' Hp']].
      exists (evs ++ evs1 ++ evs'). rewrite Ht', Ht1, Ht, !app_assoc.
      split; [reflexivity|]. repeat (apply Forall_app; split); auto.
    + exists (evs ++ evs1). cbn [snd]. rewrite Ht1, Ht, app_assoc.
      split; [reflexivity|]. apply Forall_app; auto.
  - exists evs. auto.
Qed.

#[local] Hint Resolve emits_get_ui emits_lift : emits.

(** The retry loop only calls the model with the part it was given, waits
    and writes to the console. *)
Lemma retryLoop_emits (P : event -> Prop) part outcomes :
  P (Net (GenerateContent part)) ->
  (forall ms, P (Slept ms)) ->
  (forall label e, P (ConsoleWarn label e)) ->
  forall attempt, emits P (retryLoop part outcomes attempt).
Proof.
  intros Hg Hs Hw.
  induction outcomes as [|o outcomes IH]; intros attempt; cbn [retryLoop];
    unfold announceRetry, sleep;
    repeat first
      [ solve [auto with emits]
      | apply emits_modify
      | apply IH
      | progress cbv zeta
      | apply emits_bind; [|intros ?]
      | apply emits_emit; solve [auto]
      | match goal with
        | |- emits _ (if ?b then _ else _) => destruct b
        | |- emits _ (match ?x with _ => _ end) => destruct x
        end ].
Qed.

(** The [catch] clause always completes. *)
Lemma guarded_run_settles (body : M unit) m :
  let run := tryCatchFinally body reportFailure (setIsAnalyzing false) m in
  match fst run with
  | Returned _ => isAnalyzing (ui (snd run)) = false
  | Pending => body m = (Pending, snd run)
  | Thrown _ => False
  end.
Proof.
  cbv zeta. unfold tryCatchFinally.
  destruct (body m) as [[a|e|] m1]; reflexivity.
Qed.

(** X7.  A run never throws: it completes or stays suspended on the
    network.  When it completes after having started (a file is selected
    and the API key is set), [isAnalyzing] is false again; while it is
    suspended, [isAnalyzing] is true. *)
Theorem run_settles env m :
  let run := runAnalysis env m in
  match fst run with
  | Returned _ =>
      file (ui m) = None \/ env_apiKey env = [] \/ isAnalyzing (ui (snd run)) = false
  | Pending => isAnalyzing (ui (snd run)) = true
  | Thrown _ => False
  end.
Proof.
  cbv zeta. destruct (file (ui m)) as [f|] eqn:Hf.
  2:{ unfold runAnalysis, bind at 1. cbn [get_ui]. rewrite Hf. cbn. auto. }
  destruct (env_apiKey env) as [|c key] eqn:Hkey.
  { unfold runAnalysis, bind at 1. cbn [get_ui]. rewrite Hf, Hkey. cbn. auto. }
  rewrite (runAnalysis_started env f m Hf) by (rewrite Hkey; discriminate).
  set (body := (contentPart <- prepareContent env f ;;
                setLoadingStage (lit "Analyzing movements & structure...") ;;
                analyse env contentPart)).
  pose proof (guarded_run_settles body (snd (resetRun m))) as Hrun. cbv zeta in Hrun.
  destruct (fst (tryCatchFinally body reportFailure (setIsAnalyzing false)
                   (snd (resetRun m)))) eqn:Hres; auto.
  assert (Hkeep : preserves isAnalyzing body).
  { assert (Hp : preserves isAnalyzing (prepareContent env f))
      by (apply prepareContent_preserves; intros v x; reflexivity).
    assert (Hr : forall part, preserves isAnalyzing
                                (invokeWithRetry part (env_generations env)))
      by (intros part; apply invokeWithRetry_preserves; intros v x; reflexivity).
    subst body. unfold analyse, selectTab. preserves_solve. }
  specialize (Hkeep (snd (resetRun m))). rewrite Hrun in Hkeep. cbn [snd] in Hkeep.
  rewrite Hkeep. reflexivity.
Qed.

(** Without a file, or without a key, a run makes no request; without a
    file it changes nothing. *)
Lemma runAnalysis_not_started env m :
  file (ui m) = None \/ env_apiKey env = [] ->
  trace (snd (runAnalysis env m)) = trace m /\
  (file (ui m) = None -> ui (snd (runAnalysis env m)) = ui m).
Proof.
  intros H. destruct (file (ui m)) as [f|] eqn:Hf.
  - destruct H as [H|H]; [discriminate H|].
    assert (Hrun : runAnalysis env m =
              (setError (Some (lit "API Key Missing")) ;;
               setErrorDetails (Some (lit "process.env.API_KEY is not set."))) m).
    { unfold runAnalysis. unfold bind at 1. cbn [get_ui]. rewrite Hf, H. reflexivity. }
    rewrite Hrun. split; [reflexivity | discriminate].
  - assert (Hrun : runAnalysis env m = (Returned tt, m)).
    { unfold runAnalysis. unfold bind at 1. cbn [get_ui]. rewrite Hf. reflexivity. }
    rewrite Hrun. split; reflexivity.
Qed.

(** X8.  A run needs a selected file and an API key.  Without a file
    nothing at all happens; with a file but no key the run only reports
    "API Key Missing".  In both cases no request is made, the analysis data
    and [isAnalyzing] stay as they were. *)
Theorem run_needs_file_and_key env m :
  file (ui m) = None \/ env_apiKey env = [] ->
  let run := runAnalysis env m in
  fst run = Returned tt /\
  trace (snd run) = trace m /\
  isAnalyzing (ui (snd run)) = isAnalyzing (ui m) /\
  analysisData (ui (snd run)) = analysisData (ui m) /\
  match file (ui m) with
  | None => ui (snd run) = ui m
  | Some _ =>
      error (ui (snd run)) = Some (lit "API Key Missing") /\
      errorDetails (ui (snd run)) = Some (lit "process.env.API_KEY is not set.")
  end.
Proof.
  intros H. cbv zeta.
  destruct (file (ui m)) as [f|] eqn:Hf.
  - destruct H as [H|H]; [discriminate H|].
    assert (Hrun : runAnalysis env m =
              (setError (Some (lit "API Key Missing")) ;;
               setErrorDetails (Some (lit "process.env.API_KEY is not set."))) m).
    { unfold runAnalysis. unfold bind at 1. cbn [get_ui]. rewrite Hf, H. reflexivity. }
    rewrite Hrun. repeat split.
  - assert (Hrun : runAnalysis env m = (Returned tt, m)).
    { unfold runAnalysis. unfold bind at 1. cbn [get_ui]. rewrite Hf. reflexivity. }
    rewrite Hrun. repeat split.
Qed.

Lemma run_needs_file_and_key_witness :
  let m := snd (handleFileChange (Some (clip 5)) (mkMachine initialUi [])) in
  let env := mkEnv [] None None [] None [] (fun _ => false) in
  let run := runAnalysis env m in
  fst run = Returned tt /\
  trace (snd run) = trace m /\
  isAnalyzing (ui (snd run)) = isAnalyzing (ui m) /\
  analysisData (ui (snd run)) = analysisData (ui m) /\
  error (ui (snd run)) = Some (lit "API Key Missing") /\
  errorDetails (ui (snd run)) = Some (lit "process.env.API_KEY is not set.").
Proof.
  apply (run_needs_file_and_key (mkEnv [] None None [] None [] (fun _ => false))
           (snd (handleFileChange (Some (clip 5)) (mkMachine initialUi [])))).
  right. reflexivity.
Defined.

(** X9.  When the upload session is not granted (the start response is not
    ok, or it names no upload URL) the run of a large file fails with the
    matching detail, and the session start is the only request it ever
    made: no bytes are sent, the file is not polled and the model is not
    called. *)
Theorem run_fails_without_upload_session env m f s :
  file (ui m) = Some f ->
  env_apiKey env <> [] ->
  20 * 1024 * 1024 < file_size f ->
  env_upload_start env = Some (Fulfilled s) ->
  start_ok s = false \/ start_upload_url s = None \/ start_upload_url s = Some [] ->
  let run := runAnalysis env m in
  fst run = Returned tt /\
  error (ui (snd run)) = Some (lit "Analysis Failed") /\
  errorDetails (ui (snd run)) =
    Some (if start_ok s
          then lit "No upload URL returned from Google."
          else lit "Upload init failed (" ++ decimal (start_status s)
                 ++ lit "): " ++ start_text s) /\
  isAnalyzing (ui (snd run)) = false /\
  analysisData (ui (snd run)) = None /\
  schedule (trace (snd run)) = schedule (trace m) ++ [Net (UploadStart (env_apiKey env) f)].
Proof.
  intros Hf Hkey Hbig Hstart Hbad. cbv zeta.
  rewrite (runAnalysis_started env f m Hf Hkey).
  assert (Hlarge : isLargeFile f = true)
    by (unfold isLargeFile; rewrite Z.gtb_ltb; apply Z.ltb_lt; exact Hbig).
  set (e := Error (if start_ok s
                   then lit "No upload URL returned from Google."
                   else lit "Upload init failed (" ++ decimal (start_status s)
                          ++ lit "): " ++ start_text s)).
  set (m0 := snd (resetRun m)).
  set (m1 := snd (setLoadingStage (lit "Uploading to Secure Storage...") m0)).
  assert (Hup : uploadFileToGemini f (env_apiKey env) (env_upload_start env)
                  (env_upload_bytes env) m1 =
                (Thrown e, mkMachine (ui m1)
                             (trace m ++ [Net (UploadStart (env_apiKey env) f)]))).
  { rewrite Hstart. unfold uploadFileToGemini. run_monad. subst e.
    destruct (start_ok s); run_monad.
    - destruct Hbad as [Hb|[Hb|Hb]]; [discriminate Hb| |]; rewrite Hb; reflexivity.
    - reflexivity. }
  assert (Hbody :
    (contentPart <- prepareContent env f ;;
     setLoadingStage (lit "Analyzing movements & structure...") ;;
     analyse env contentPart) m0 =
    (Thrown e, mkMachine (ui m1) (trace m ++ [Net (UploadStart (env_apiKey env) f)]))).
  { unfold bind at 1. rewrite (prepareContent_large env f m0 Hlarge).
    fold m1. rewrite Hup. reflexivity. }
  destruct (failed_run_state _ _ _ _ Hbody) as [H1 [H2 [H3 [H4 [H5 [_ H7]]]]]].
  split; [exact H1|]. split; [exact H2|]. split; [|split; [exact H4|split]].
  - rewrite H3. subst e. destruct (start_ok s); reflexivity.
  - rewrite H5. reflexivity.
  - rewrite H7. cbn [trace]. unfold schedule. rewrite !filter_app. cbn [filter app].
    rewrite app_nil_r. reflexivity.
Qed.

Lemma run_fails_without_upload_session_witness :
  let env := mkEnv (lit "key")
               (Some (Fulfilled (mkStart false 403 (lit "quota exceeded") None)))
               None [] None [] (fun _ => false) in
  let m := snd (handleFileChange (Some (clip 50)) (mkMachine initialUi [])) in
  let run := runAnalysis env m in
  fst run = Returned tt /\
  error (ui (snd run)) = Some (lit "Analysis Failed") /\
  errorDetails (ui (snd run)) = Some (lit "Upload init failed (403): quota exceeded") /\
  isAnalyzing (ui (snd run)) = false /\
  analysisData (ui (snd run)) = None /\
  schedule (trace (snd run)) = schedule [] ++ [Net (UploadStart (lit "key") (clip 50))].
Proof.
  apply (run_fails_without_upload_session
           (mkEnv (lit "key")
              (Some (Fulfilled (mkStart false 403 (lit "quota exceeded") None)))
              None [] None [] (fun _ => false))
           (snd (handleFileChange (Some (clip 50)) (mkMachine initialUi [])))
           (clip 50) (mkStart false 403 (lit "quota exceeded") None)).
  - reflexivity.
  - discriminate.
  - simpl. lia.
  - reflexivity.
  - left. reflexivity.
Defined.

(** Sequencing, when what the first part returns is known to satisfy [Q]. *)
Lemma emits_bind_result {A B} P (Q : A -> Prop) (c : M A) (k : A -> M B) :
  emits P c ->
  (forall m a, fst (c m) = Returned a -> Q a) ->
  (forall a, Q a -> emits P (k a)) ->
  emits P (bind c k).
Proof.
  intros Hc Hq Hk m. unfold bind.
  destruct (Hc m) as [evs [Ht Hp]]. specialize (Hq m).
  destruct (c m) as [[a|e|] m1]; cbn [fst snd] in Ht, Hq |- *.
  - destruct (Hk a (Hq a eq_refl) m1) as [evs' [Ht' Hp']].
    exists (evs ++ evs'). rewrite Ht', Ht, app_assoc. split; [reflexivity|].
    apply Forall_app; auto.
  - exists evs; auto.
  - exists evs; auto.
Qed.

(** What the rest of the [try] block and the [catch] clause emit, for a
    content part whose inference calls are allowed by [P]. *)
Lemma analyse_emits (P : event -> Prop) env part :
  P (Net (GenerateContent part)) ->
  (forall ms, P (Slept ms)) ->
  (forall label e, P (ConsoleWarn label e)) ->
  emits P (setLoadingStage (lit "Analyzing movements & structure...") ;;
           analyse env part).
Proof.
  intros Hg Hs Hw.
  pose proof (retryLoop_emits P part (env_generations env) Hg Hs Hw 0) as Hr.
  unfold analyse, invokeWithRetry, selectTab.
  repeat first
    [ solve [auto with emits]
    | apply emits_modify
    | apply emits_bind; [|intros ?]
    | match goal with
      | |- emits _ (if ?b then _ else _) => destruct b
      | |- emits _ (match ?x with _ => _ end) => destruct x
      end ].
Qed.

Lemma reportFailure_emits (P : event -> Prop) e :
  (forall label err, P (ConsoleError label err)) -> emits P (reportFailure e).
Proof.
  intros Hc. unfold reportFailure.
  apply emits_bind; [apply emits_emit; apply Hc|intros _].
  apply emits_bind; [apply emits_modify|intros _]. apply emits_modify.
Qed.

(** X10.  A run on a file of at most 20 MiB stays away from the File API:
    it never starts an upload and never asks for a file status; all it does
    outside is read the file, call the model with inline data, wait between
    retries and write to the console. *)
Theorem small_file_run_is_inline env m f :
  file (ui m) = Some f ->
  file_size f <= 20 * 1024 * 1024 ->
  exists evs,
    trace (snd (runAnalysis env m)) = trace m ++ evs /\ Forall inline_event evs.
Proof.
  intros Hf Hsmall.
  destruct (env_apiKey env) as [|c key] eqn:Hkey.
  { exists []. rewrite app_nil_r. split; [|constructor].
    apply (runAnalysis_not_started env m). right. exact Hkey. }
  rewrite (runAnalysis_started env f m Hf) by (rewrite Hkey; discriminate).
  assert (Hsmall' : isLargeFile f = false)
    by (unfold isLargeFile; rewrite Z.gtb_ltb; apply Z.ltb_ge; exact Hsmall).
  assert (Hbody : emits inline_event
            (tryCatchFinally
               (contentPart <- prepareContent env f ;;
                setLoadingStage (lit "Analyzing movements & structure...") ;;
                analyse env contentPart)
               reportFailure (setIsAnalyzing false))).
  { apply emits_tryCatchFinally.
    - apply (emits_bind_result inline_event
               (fun part => exists t d, part = InlineData t d)).
      + unfold prepareContent, fileToBase64. rewrite Hsmall'.
        apply emits_bind; [apply emits_modify|intros _].
        apply emits_bind; [|intros ?; apply emits_ret].
        apply emits_bind; [apply emits_emit; exact I|intros _].
        apply emits_bind; [apply emits_await|intros ?; apply emits_ret].
      + intros m' part. unfold prepareContent, fileToBase64. rewrite Hsmall'.
        run_monad. destruct (env_data_url env) as [[e|d]|]; run_monad;
          intros H; inversion H. eauto.
      + intros part [t [d ->]]. apply analyse_emits; intros; exact I.
    - intros e. apply reportFailure_emits. intros; exact I.
    - apply emits_modify. }
  destruct (Hbody (snd (resetRun m))) as [evs [Ht Hp]].
  exists evs. split; [exact Ht | exact Hp].
Qed.

Lemma small_file_run_is_inline_witness :
  exists evs,
    trace (snd (runAnalysis sampleEnv
                  (snd (handleFileChange (Some (clip 5)) (mkMachine initialUi [])))))
      = trace (snd (handleFileChange (Some (clip 5)) (mkMachine initialUi []))) ++ evs /\
    Forall inline_event evs.
Proof.
  apply (small_file_run_is_inline sampleEnv
           (snd (handleFileChange (Some (clip 5)) (mkMachine initialUi []))) (clip 5)).
  - reflexivity.
  - simpl. lia.
Defined.

(** X11.  A run on a file above 20 MiB never reads the file into memory and
    never sends inline data: whatever happens, its requests are the upload,
    status checks and model calls that refer to the uploaded file. *)
Theorem large_file_run_uses_file_api env m f :
  file (ui m) = Some f ->
  20 * 1024 * 1024 < file_size f ->
  exists evs,
    trace (snd (runAnalysis env m)) = trace m ++ evs /\ Forall file_api_event evs.
Proof.
  intros Hf Hbig.
  destruct (env_apiKey env) as [|c key] eqn:Hkey.
  { exists []. rewrite app_nil_r. split; [|constructor].
    apply (runAnalysis_not_started env m). right. exact Hkey. }
  rewrite (runAnalysis_started env f m Hf) by (rewrite Hkey; discriminate).
  assert (Hlarge : isLargeFile f = true)
    by (unfold isLargeFile; rewrite Z.gtb_ltb; apply Z.ltb_lt; exact Hbig).
  assert (Hweaken : forall A (c : M A), emits remote_event c -> emits file_api_event c).
  { intros A c0 Hc0 m0. destruct (Hc0 m0) as [evs [Ht Hp]]. exists evs.
    split; [exact Ht|]. eapply Forall_impl; [|exact Hp].
    intros [[]| | | |]; cbn; tauto. }
  assert (Hbody : emits file_api_event
            (tryCatchFinally
               (contentPart <- prepareContent env f ;;
                setLoadingStage (lit "Analyzing movements & structure...") ;;
                analyse env contentPart)
               reportFailure (setIsAnalyzing false))).
  { apply emits_tryCatchFinally.
    - apply (emits_bind_result file_api_event
               (fun part => exists t u, part = FileData t u)).
      + unfold prepareContent. rewrite Hlarge.
        apply emits_bind; [apply emits_modify|intros _].
        apply emits_bind.
        { apply Hweaken. intros m0.
          destruct (uploadFileToGemini_trace f (env_apiKey env) (env_upload_start env)
                      (env_upload_bytes env) m0) as [evs [Ht Hp]].
          exists (Net (UploadStart (env_apiKey env) f) :: evs). split; [exact Ht|].
          constructor; [exact I | exact Hp]. }
        intros [name uri].
        apply emits_bind; [apply emits_modify|intros _].
        apply emits_bind; [apply Hweaken, awaitActive_emits|intros _].
        apply emits_ret.
      + intros m' part. rewrite (prepareContent_large env f m' Hlarge).
        destruct (uploadFileToGemini _ _ _ _ _) as [[[name uri]|e|] m2];
          try discriminate.
        destruct (awaitActive _ _ _ _) as [[[]|e|] m4]; try discriminate.
        intros H. inversion H. eauto.
      + intros part [t [u ->]]. apply analyse_emits; intros; exact I.
    - intros e. apply reportFailure_emits. intros; exact I.
    - apply emits_modify. }
  destruct (Hbody (snd (resetRun m))) as [evs [Ht Hp]].
  exists evs. split; [exact Ht | exact Hp].
Qed.

Lemma large_file_run_uses_file_api_witness :
  exists evs,
    trace (snd (runAnalysis sampleEnv
                  (snd (handleFileChange (Some (clip 50)) (mkMachine initialUi [])))))
      = trace (snd (handleFileChange (Some (clip 50)) (mkMachine initialUi []))) ++ evs /\
    Forall file_api_event evs.
Proof.
  apply (large_file_run_uses_file_api sampleEnv
           (snd (handleFileChange (Some (clip 50)) (mkMachine initialUi []))) (clip 50)).
  - reflexivity.
  - simpl. lia.
Defined.

Lemma bind_returned {A B} (c : M A) (k : A -> M B) m b m' :
  bind c k m = (Returned b, m') ->
  exists a m1, c m = (Returned a, m1) /\ k a m1 = (Returned b, m').
Proof.
  unfold bind. destruct (c m) as [[a|e|] m1]; try discriminate.
  intros H. exists a, m1. auto.
Qed.

Lemma selectTab_keeps_result gt v :
  preserves rawResponse (selectTab gt v) /\ preserves analysisData (selectTab gt v).
Proof. unfold selectTab. split; preserves_solve. Qed.

(** X12.  A run that completes ends in one of two states, decided by how
    its [try] block ended.  Either the block returned: then no error is
    shown and the stored analysis is exactly what [tryParseJSON] extracts
    from the stored, non-empty raw response.  Or the block threw an error:
    then the error shown is "Analysis Failed", the detail is the message of
    that very error (its JSON rendering when it has no message), and that
    error is the last thing written to the console. *)
Theorem finished_run_outcome env m f :
  file (ui m) = Some f ->
  env_apiKey env <> [] ->
  let run := runAnalysis env m in
  let attempt :=
    (contentPart <- prepareContent env f ;;
     setLoadingStage (lit "Analyzing movements & structure...") ;;
     analyse env contentPart) (snd (resetRun m)) in
  match fst run with
  | Returned _ =>
      (fst attempt = Returned tt /\
       error (ui (snd run)) = None /\
       rawResponse (ui (snd run)) <> [] /\
       exists v, analysisData (ui (snd run)) = Some v /\
                 tryParseJSON (rawResponse (ui (snd run))) = Returned v) \/
      (exists e,
         fst attempt = Thrown e /\
         error (ui (snd run)) = Some (lit "Analysis Failed") /\
         errorDetails (ui (snd run)) = Some (message_or_json e) /\
         trace (snd run) =
           trace (snd attempt) ++ [ConsoleError (lit "Analysis Error") e])
  | _ => True
  end.
Proof.
  intros Hf Hkey. cbv zeta.
  rewrite (runAnalysis_started env f m Hf Hkey).
  set (m0 := snd (resetRun m)).
  set (body := (contentPart <- prepareContent env f ;;
                setLoadingStage (lit "Analyzing movements & structure...") ;;
                analyse env contentPart)).
  assert (Herr : preserves error body).
  { assert (Hp : preserves error (prepareContent env f))
      by (apply prepareContent_preserves; intros v x; reflexivity).
    assert (Hr : forall part, preserves error (invokeWithRetry part (env_generations env)))
      by (intros part; apply invokeWithRetry_preserves; intros v x; reflexivity).
    subst body. unfold analyse, selectTab. preserves_solve. }
  specialize (Herr m0).
  unfold tryCatchFinally.
  destruct (body m0) as [[[]|e|] m1] eqn:Hb; cbn [snd] in Herr.
  - left. cbn [fst snd bind setIsAnalyzing modify ret ui error rawResponse analysisData].
    split; [reflexivity|].
    split; [rewrite Herr; reflexivity|].
    subst body.
    apply bind_returned in Hb. destruct Hb as [part [m2 [_ Hb]]].
    apply bind_returned in Hb. destruct Hb as [[] [m3 [_ Hb]]].
    unfold analyse in Hb.
    apply bind_returned in Hb. destruct Hb as [t [m4 [_ Hb]]].
    apply bind_returned in Hb. destruct Hb as [[] [m5 [Hraw Hb]]].
    destruct t as [|c t']; [discriminate Hb|].
    apply bind_returned in Hb. destruct Hb as [v [m5' [Hparse Hb]]].
    unfold lift in Hparse. injection Hparse as Hparse <-.
    apply bind_returned in Hb. destruct Hb as [[] [m6 [Hdata Hb]]].
    destruct (selectTab_keeps_result (env_gt_zero env) v) as [Hk1 Hk2].
    specialize (Hk1 m6). specialize (Hk2 m6). rewrite Hb in Hk1, Hk2.
    cbn [snd] in Hk1, Hk2.
    assert (H6 : rawResponse (ui m6) = c :: t' /\ analysisData (ui m6) = Some v).
    { cbn [setAnalysisData modify] in Hdata. injection Hdata as <-.
      cbn [setRawResponse modify] in Hraw. injection Hraw as <-. split; reflexivity. }
    destruct H6 as [H6r H6d]. rewrite Hk1, Hk2, H6r, H6d.
    split; [discriminate|]. exists v. split; [reflexivity | exact Hparse].
  - right. exists e. cbn. repeat split.
  - exact I.
Qed.

Lemma finished_run_outcome_witness :
  let env := mkEnv (lit "key") None None [] (Some (Fulfilled (lit "data:video/mp4;base64,AAAA")))
               [Fulfilled (Some (lit "I could not watch the video."))]
               (fun _ => false) in
  let m := snd (handleFileChange (Some (clip 5)) (mkMachine initialUi [])) in
  let run := runAnalysis env m in
  let attempt :=
    (contentPart <- prepareContent env (clip 5) ;;
     setLoadingStage (lit "Analyzing movements & structure...") ;;
     analyse env contentPart) (snd (resetRun m)) in
  match fst run with
  | Returned _ =>
      (fst attempt = Returned tt /\
       error (ui (snd run)) = None /\
       rawResponse (ui (snd run)) <> [] /\
       exists v, analysisData (ui (snd run)) = Some v /\
                 tryParseJSON (rawResponse (ui (snd run))) = Returned v) \/
      (exists e,
         fst attempt = Thrown e /\
         error (ui (snd run)) = Some (lit "Analysis Failed") /\
         errorDetails (ui (snd run)) = Some (message_or_json e) /\
         trace (snd run) =
           trace (snd attempt) ++ [ConsoleError (lit "Analysis Error") e])
  | _ => True
  end.
Proof.
  apply (finished_run_outcome
           (mkEnv (lit "key") None None [] (Some (Fulfilled (lit "data:video/mp4;base64,AAAA")))
              [Fulfilled (Some (lit "I could not watch the video."))]
              (fun _ => false))
           (snd (handleFileChange (Some (clip 5)) (mkMachine initialUi []))) (clip 5)).
  - reflexivity.
  - discriminate.
Defined.

(** ** The selected file *)

Lemma runAnalysis_preserves_videoUrl env : preserves videoUrl (runAnalysis env).
Proof.
  assert (Hp : forall f, preserves videoUrl (prepareContent env f))
    by (intros f; apply prepareContent_preserves; intros v m; reflexivity).
  assert (Hr : forall part, preserves videoUrl (invokeWithRetry part (env_generations env)))
    by (intros part; apply invokeWithRetry_preserves; intros v m; reflexivity).
  unfold runAnalysis, resetRun, reportFailure, analyse, selectTab.
  preserves_solve.
Qed.

(** X13.  Whatever files the user selected and whatever runs were started,
    against whatever server: the selected file is within the 2000 MiB limit
    and the player shows that very file; and as long as no file is selected
    there is no video, no analysis data, no raw response and no run in
    progress. *)
Theorem selection_invariant m :
  reachable m ->
  match file (ui m) with
  | Some f =>
      file_size f <= MAX_FILE_SIZE_MB * 1024 * 1024 /\
      videoUrl (ui m) = Some (file_blob_url f)
  | None =>
      videoUrl (ui m) = None /\ analysisData (ui m) = None /\
      rawResponse (ui m) = [] /\ isAnalyzing (ui m) = false
  end.
Proof.
  induction 1 as [|m selected Hm IH|m env Hm IH].
  - cbn. auto.
  - destruct selected as [sel|]; [|exact IH].
    unfold handleFileChange.
    destruct (file_size sel >? MAX_FILE_SIZE_MB * 1024 * 1024) eqn:Hbig.
    + cbn [setError setErrorDetails modify bind snd ui file videoUrl analysisData
             rawResponse isAnalyzing].
      exact IH.
    + cbn. split; [|reflexivity].
      rewrite Z.gtb_ltb in Hbig. apply Z.ltb_ge in Hbig. exact Hbig.
  - rewrite runAnalysis_preserves_file, runAnalysis_preserves_videoUrl.
    destruct (file (ui m)) as [f|] eqn:Hf; [exact IH|].
    destruct (runAnalysis_not_started env m (or_introl Hf)) as [_ Hui].
    rewrite (Hui Hf). exact IH.
Qed.

Lemma selection_invariant_witness :
  match file (ui (snd (handleFileChange (Some (clip 5)) (mkMachine initialUi [])))) with
  | Some f =>
      file_size f <= MAX_FILE_SIZE_MB * 1024 * 1024 /\
      videoUrl (ui (snd (handleFileChange (Some (clip 5)) (mkMachine initialUi []))))
        = Some (file_blob_url f)
  | None =>
      videoUrl (ui (snd (handleFileChange (Some (clip 5)) (mkMachine initialUi [])))) = None /\
      analysisData (ui (snd (handleFileChange (Some (clip 5)) (mkMachine initialUi [])))) = None /\
      rawResponse (ui (snd (handleFileChange (Some (clip 5)) (mkMachine initialUi [])))) = [] /\
      isAnalyzing (ui (snd (handleFileChange (Some (clip 5)) (mkMachine initialUi [])))) = false
  end.
Proof.
  apply (selection_invariant (snd (handleFileChange (Some (clip 5)) (mkMachine initialUi [])))).
  apply reach_select. apply reach_initial.
Defined.

(** ** What the extractor can return *)

Lemma star_sound {X} greedy cls t (k : text -> option X) x :
  star greedy cls t k = Some x -> exists p t', t = p ++ t' /\ k t' = Some x.
Proof.
  induction t as [|c t IH]; cbn [star]; intros H.
  - exists [], []. auto.
  - destruct (cls c); [|exists [], (c :: t); auto].
    destruct greedy.
    + destruct (star true cls t k) as [y|] eqn:Hs.
      * injection H as <-. destruct (IH eq_refl) as [p [t' [-> Hk]]].
        exists (c :: p), t'. auto.
      * exists [], (c :: t). auto.
    + destruct (k (c :: t)) as [y|] eqn:Hk.
      * injection H as <-. exists [], (c :: t). auto.
      * destruct (IH H) as [p [t' [-> Hk']]]. exists (c :: p), t'. auto.
Qed.

Lemma piece_after (p c t : text) : piece c t -> piece c (p ++ t).
Proof.
  intros [a [b ->]]. exists (p ++ a), b. rewrite <- app_assoc. reflexivity.
Qed.

(** Where a match ends, and what it captured: the continuation is run on a
    suffix of the text, and the capture is the one it had or a piece of the
    text. *)
Lemma rmatch_sound {X} r :
  forall t cap (k : text -> option text -> option X) x,
    rmatch r t cap k = Some x ->
    exists p t' cap',
      t = p ++ t' /\ k t' cap' = Some x /\
      (cap' = cap \/ exists c, cap' = Some c /\ piece c t).
Proof.
  induction r as [s|greedy cls|r IH|r IH|r1 IH1 r2 IH2]; intros t cap k x H;
    cbn [rmatch] in H.
  - destruct (starts_with s t); [|discriminate H].
    exists (firstn (length s) t), (skipn (length s) t), cap.
    rewrite firstn_skipn. auto.
  - apply star_sound in H. destruct H as [p [t' [-> Hk]]].
    exists p, t', cap. auto.
  - destruct (rmatch r t cap k) as [y|] eqn:Hr.
    + injection H as <-. apply IH in Hr. exact Hr.
    + exists [], t, cap. auto.
  - apply IH in H. destruct H as [p [t' [cap' [-> [Hk _]]]]].
    exists p, t', (Some (firstn (length (p ++ t') - length t') (p ++ t'))).
    split; [reflexivity|]. split; [exact Hk|]. right.
    exists p. split.
    + rewrite length_app, Nat.add_sub, firstn_app, firstn_all, Nat.sub_diag.
      cbn [firstn]. rewrite app_nil_r. reflexivity.
    + exists [], t'. reflexivity.
  - apply IH1 in H. destruct H as [p1 [t1 [cap1 [-> [H2 Hc1]]]]].
    apply IH2 in H2. destruct H2 as [p2 [t2 [cap2 [-> [Hk Hc2]]]]].
    exists (p1 ++ p2), t2, cap2. rewrite <- app_assoc.
    split; [reflexivity|]. split; [exact Hk|].
    destruct Hc2 as [-> | [c [-> Hp]]].
    + destruct Hc1 as [-> | [c [-> Hp]]]; [left; reflexivity|].
      right. exists c. split; [reflexivity | exact Hp].
    + right. exists c. split; [reflexivity|]. apply piece_after. exact Hp.
Qed.

Lemma regex_match_sound r t c : regex_match r t = Some (Some c) -> piece c t.
Proof.
  induction t as [|x t IH]; cbn [regex_match].
  - destruct (rmatch r [] None (fun _ cap => Some cap)) as [cap|] eqn:Hm; [|discriminate].
    intros H. injection H as ->.
    apply rmatch_sound in Hm. destruct Hm as [p [t' [cap' [Ht [Hk Hc]]]]].
    injection Hk as ->. destruct Hc as [Hc | [c' [Hc Hp]]]; [discriminate Hc|].
    injection Hc as <-. exact Hp.
  - destruct (rmatch r (x :: t) None (fun _ cap => Some cap)) as [cap|] eqn:Hm.
    + intros H. injection H as ->.
      apply rmatch_sound in Hm. destruct Hm as [p [t' [cap' [Ht [Hk Hc]]]]].
      injection Hk as ->. destruct Hc as [Hc | [c' [Hc Hp]]]; [discriminate Hc|].
      injection Hc as <-. exact Hp.
    + intros H. apply (piece_after [x]). apply IH. exact H.
Qed.

Lemma substring_piece t a b : piece (substring t a b) t.
Proof.
  unfold substring.
  set (n := Z.to_nat _). set (lo := Z.to_nat _).
  exists (firstn lo t), (skipn n (skipn lo t)).
  rewrite (firstn_skipn n (skipn lo t)), (firstn_skipn lo t). reflexivity.
Qed.

(** X14.  The extractor invents nothing: whatever it returns is what
    [JSON.parse] makes of a contiguous piece of the response text (the whole
    text, the interior of a fence, or a slice between braces). *)
Theorem extracted_value_is_in_the_text t v :
  tryParseJSON t = Returned v ->
  exists u, piece u t /\ JSON_parse u = Some v.
Proof.
  unfold tryParseJSON, try_parse.
  destruct (JSON_parse t) as [v0|] eqn:Hdirect.
  { intros H. injection H as <-. exists t. split; [|exact Hdirect].
    exists [], []. rewrite app_nil_r. reflexivity. }
  destruct (regex_match fence_pattern t) as [[inner|]|] eqn:Hm.
  1: destruct (JSON_parse inner) as [v1|] eqn:Hinner.
  1:{ intros H. injection H as <-. exists inner. split; [|exact Hinner].
      apply (regex_match_sound fence_pattern). exact Hm. }
  all: cbv zeta;
    destruct (negb (indexOf (chr "{") t =? -1) && negb (lastIndexOf (chr "}") t =? -1));
    try discriminate;
    destruct (JSON_parse (substring t (indexOf (chr "{") t) (lastIndexOf (chr "}") t + 1)))
      as [v2|] eqn:Hslice; try discriminate;
    intros H; injection H as <-; eexists; split; [apply substring_piece | exact Hslice].
Qed.

Lemma extracted_value_is_in_the_text_witness :
  exists u,
    piece u (lit "Here it is: " ++ json_lit "{'events':[]}" ++ lit " Done.") /\
    JSON_parse u = Some (JObj [(lit "events", JArr [])]).
Proof.
  apply (extracted_value_is_in_the_text
           (lit "Here it is: " ++ json_lit "{'events':[]}" ++ lit " Done.")
           (JObj [(lit "events", JArr [])])).
  reflexivity.
Defined.

Lemma indexOf_absent c t : ~ In c t -> indexOf c t = -1.
Proof.
  induction t as [|x t IH]; intros Hn; [reflexivity|].
  cbn [indexOf]. destruct (N.eqb_spec x c) as [->|_].
  - exfalso. apply Hn. left. reflexivity.
  - rewrite IH by (intros Hin; apply Hn; right; exact Hin). reflexivity.
Qed.

(** X15.  On a text without a backtick that lacks an opening or a closing
    brace, the fallbacks do not apply: the extractor returns what
    [JSON.parse] makes of the whole text, and throws when that fails.  A
    bare array or number inside prose is therefore never extracted. *)
Theorem extraction_without_fence_or_braces t :
  ~ In (chr "`") t ->
  ~ In (chr "{") t \/ ~ In (chr "}") t ->
  tryParseJSON t =
  match JSON_parse t with
  | Some v => Returned v
  | None => Thrown (Error (lit "Could not parse JSON from response."))
  end.
Proof.
  intros Hfence Hbrace. unfold tryParseJSON, try_parse.
  destruct (JSON_parse t); [reflexivity|].
  rewrite regex_match_no_backtick by exact Hfence. cbv zeta.
  destruct Hbrace as [H|H].
  - rewrite indexOf_absent by exact H. reflexivity.
  - rewrite lastIndexOf_absent by exact H.
    destruct (indexOf (chr "{") t =? -1); reflexivity.
Qed.

Lemma extraction_without_fence_or_braces_witness :
  tryParseJSON (lit "The events are [1, 2].") =
  match JSON_parse (lit "The events are [1, 2].") with
  | Some v => Returned v
  | None => Thrown (Error (lit "Could not parse JSON from response."))
  end.
Proof.
  apply (extraction_without_fence_or_braces (lit "The events are [1, 2].")).
  - not_in_text.
  - left. not_in_text.
Defined.

(** ** The inline payload *)

(** X16.  For a file of at most 20 MiB whose media type has no comma, the
    inline part carries the media type and exactly the base64 payload of
    the data URL that the FileReader produced (the text after
    "data:<type>;base64,"). *)
Theorem inline_part_carries_payload env f m payload :
  file_size f <= 20 * 1024 * 1024 ->
  ~ In (chr ",") (file_type f) ->
  ~ In (chr ",") payload ->
  env_data_url env =
    Some (Fulfilled (lit "data:" ++ file_type f ++ lit ";base64," ++ payload)) ->
  fst (prepareContent env f m) = Returned (InlineData (file_type f) (Some payload)).
Proof.
  intros Hsmall Htype Hpay Hurl.
  unfold prepareContent, isLargeFile, fileToBase64.
  replace (file_size f >? 20 * 1024 * 1024) with false
    by (symmetry; rewrite Z.gtb_ltb; apply Z.ltb_ge; exact Hsmall).
  rewrite Hurl. run_monad.
  replace (lit "data:" ++ file_type f ++ lit ";base64," ++ payload)
    with ((lit "data:" ++ file_type f ++ lit ";base64") ++ chr "," :: payload)
    by (rewrite <- !app_assoc; reflexivity).
  rewrite split_data_url; [reflexivity | | exact Hpay].
  intros Hin. apply in_app_or in Hin. destruct Hin as [Hin|Hin].
  - revert Hin. not_in_text.
  - apply in_app_or in Hin. destruct Hin as [Hin|Hin]; [exact (Htype Hin)|].
    revert Hin. not_in_text.
Qed.

Lemma inline_part_carries_payload_witness :
  fst (prepareContent sampleEnv (clip 5) (mkMachine initialUi []))
  = Returned (InlineData (file_type (clip 5)) (Some (lit "AAAA"))).
Proof.
  apply (inline_part_carries_payload sampleEnv (clip 5) (mkMachine initialUi []) (lit "AAAA")).
  - simpl. lia.
  - not_in_text.
  - not_in_text.
  - reflexivity.
Defined.

(** ** The simulated progress *)

Lemma progressTick_bounds retryCount prev :
  0 <= prev <= 180 ->
  prev <= progressTick retryCount prev <= 180.
Proof.
  intros H. unfold progressTick.
  destruct (retryCount >? 0); [lia|].
  destruct (prev >=? 180) eqn:Hcap; [lia|].
  destruct (prev <? 60); [lia|]. destruct (prev <? 120); lia.
Qed.

Lemma progressEffect_bounds retryCount ticks :
  0 <= progressEffect true retryCount ticks <= 180.
Proof.
  induction ticks as [|n IH]; cbn [progressEffect]; [lia|].
  pose proof (progressTick_bounds retryCount _ IH). lia.
Qed.

Lemma progress_advances_bounds_aux retryCount ticks :
  progressEffect true retryCount ticks <= progressEffect true retryCount (S ticks).
Proof.
  cbn [progressEffect].
  pose proof (progressEffect_bounds retryCount ticks) as Hb.
  pose proof (progressTick_bounds retryCount _ Hb). lia.
Qed.

(** X17.  While a run is analysing, the simulated progress never goes
    back between two ticks of the interval, never exceeds 90 percent, and,
    as long as it is below 90 percent and no retry has happened, every tick
    moves it forward. *)
Theorem progress_advances_to_the_cap retryCount ticks :
  let before := progressEffect true retryCount ticks in
  let after := progressEffect true retryCount (S ticks) in
  0 <= before <= after /\ after <= 180 /\
  (before < 180 -> before < after).
Proof.
  cbv zeta. cbn [progressEffect].
  pose proof (progressEffect_bounds retryCount ticks) as Hb.
  pose proof (progressTick_bounds retryCount _ Hb) as Ht.
  split; [lia|]. split; [lia|].
  intros Hlt. unfold progressTick in *.
  destruct (retryCount >? 0); [lia|].
  destruct (progressEffect true retryCount ticks >=? 180) eqn:Hcap.
  - apply Z.geb_le in Hcap. lia.
  - destruct (progressEffect true retryCount ticks <? 60); [lia|].
    destruct (progressEffect true retryCount ticks <? 120); lia.
Qed.

(** X18.  Without a retry the bar needs exactly 92 ticks (36.8 seconds) to
    reach 90 percent and then stays there; once a retry is counted it shows
    90 percent from the first tick on.  When the effect starts again, as it
    does for every new retry count, the bar is back at 0. *)
Theorem progress_plateau retryCount ticks :
  (retryCount <= 0 ->
   (progressEffect true retryCount ticks = 180 <-> (92 <= ticks)%nat)) /\
  (0 < retryCount -> progressEffect true retryCount (S ticks) = 180) /\
  progressEffect true retryCount 0 = 0.
Proof.
  split; [|split; [|reflexivity]].
  - intros Hr.
    assert (Hno : (retryCount >? 0) = false) by (rewrite Z.gtb_ltb; apply Z.ltb_ge; exact Hr).
    assert (Hsame : forall n, progressEffect true retryCount n = progressEffect true 0 n).
    { induction n as [|n IH]; [reflexivity|]. cbn [progressEffect].
      rewrite IH. unfold progressTick. rewrite Hno. reflexivity. }
    rewrite Hsame.
    assert (Hmono : forall n k, progressEffect true 0 n <= progressEffect true 0 (n + k)).
    { intros n k. induction k as [|k IH].
      - rewrite Nat.add_0_r. lia.
      - rewrite Nat.add_succ_r.
        pose proof (progress_advances_bounds_aux 0 (n + k)). lia. }
    split.
    + intros H180. destruct (le_lt_dec 92 ticks) as [Hge|Hlt]; [exact Hge|].
      exfalso. pose proof (Hmono ticks (91 - ticks)%nat) as Hm.
      replace (ticks + (91 - ticks))%nat with 91%nat in Hm by lia.
      change (progressEffect true 0 91) with 179 in Hm. lia.
    + intros Hge. pose proof (Hmono 92%nat (ticks - 92)%nat) as Hm.
      replace (92 + (ticks - 92))%nat with ticks in Hm by lia.
      change (progressEffect true 0 92) with 180 in Hm.
      pose proof (progressEffect_bounds 0 ticks). lia.
  - intros Hr. cbn [progressEffect]. unfold progressTick.
    replace (retryCount >? 0) with true by (symmetry; rewrite Z.gtb_ltb; apply Z.ltb_lt; exact Hr).
    reflexivity.
Qed.

(** ** The time links *)

Lemma split_on_absent sep (p : text) :
  ~ In sep p -> split_on sep p = [p].
Proof.
  induction p as [|c p IH]; intros Hn; [reflexivity|].
  cbn [split_on]. destruct (N.eqb_spec c sep) as [->|_].
  - exfalso. apply Hn. left. reflexivity.
  - rewrite IH; [reflexivity|]. intros Hin. apply Hn. right. exact Hin.
Qed.

Lemma split_on_first sep (a b : text) :
  ~ In sep a -> split_on sep (a ++ sep :: b) = a :: split_on sep b.
Proof.
  induction a as [|c a IH]; intros Hn; cbn [app split_on].
  - rewrite N.eqb_refl. reflexivity.
  - destruct (N.eqb_spec c sep) as [->|_].
    + exfalso. apply Hn. left. reflexivity.
    + rewrite IH; [reflexivity|]. intros Hin. apply Hn. right. exact Hin.
Qed.

Lemma split_on_length sep (t : text) :
  length (split_on sep t) = S (count_occ N.eq_dec t sep).
Proof.
  induction t as [|c t IH]; [reflexivity|].
  cbn [split_on count_occ].
  destruct (N.eqb_spec c sep) as [->|Hne].
  - destruct (N.eq_dec sep sep) as [_|Hn]; [|contradiction].
    cbn [length]. rewrite IH. reflexivity.
  - destruct (N.eq_dec c sep) as [He|_]; [contradiction|].
    rewrite <- IH. destruct (split_on sep t); [discriminate IH|reflexivity].
Qed.

Lemma hex_digit_numeral d :
  decimal_digit d -> hex_digit (Z.to_N (48 + d)) = Some (Z.to_N d).
Proof.
  unfold decimal_digit. intros H.
  assert (Hd : d = 0 \/ d = 1 \/ d = 2 \/ d = 3 \/ d = 4 \/ d = 5 \/ d = 6 \/
               d = 7 \/ d = 8 \/ d = 9) by lia.
  repeat (destruct Hd as [->|Hd]; [reflexivity|]). subst d. reflexivity.
Qed.

Lemma digit_of_numeral d :
  decimal_digit d -> digit_of 10 (Z.to_N (48 + d)) = Some d.
Proof.
  intros H. unfold digit_of. rewrite hex_digit_numeral by exact H.
  unfold decimal_digit in H. rewrite Z2N.id by lia.
  replace (d <? 10) with true by (symmetry; apply Z.ltb_lt; lia). reflexivity.
Qed.

Lemma digits_value_numeral ds a :
  Forall decimal_digit ds ->
  digits_value 10 (Some a) (numeral ds) = Some (fold_left (fun a d => a * 10 + d) ds a).
Proof.
  intros H. revert a. induction H as [|d ds Hd Hds IH]; intros a; [reflexivity|].
  cbn [numeral map digits_value fold_left].
  rewrite digit_of_numeral by exact Hd. apply IH.
Qed.

Lemma numeral_not_space d : decimal_digit d -> is_space (Z.to_N (48 + d)) = false.
Proof.
  unfold decimal_digit. intros H.
  assert (Hd : d = 0 \/ d = 1 \/ d = 2 \/ d = 3 \/ d = 4 \/ d = 5 \/ d = 6 \/
               d = 7 \/ d = 8 \/ d = 9) by lia.
  repeat (destruct Hd as [->|Hd]; [reflexivity|]). subst d. reflexivity.
Qed.

Lemma numeral_no_colon ds : Forall decimal_digit ds -> ~ In (chr ":") (numeral ds).
Proof.
  induction 1 as [|d ds Hd Hds IH]; cbn [numeral map In]; [tauto|].
  intros [He|Hin]; [|exact (IH Hin)].
  unfold decimal_digit in Hd. change (chr ":") with 58%N in He. lia.
Qed.

Lemma parseInt_numeral ds :
  ds <> [] -> Forall decimal_digit ds ->
  parseInt (numeral ds) = Finite (denotes ds).
Proof.
  intros Hne H. destruct H as [|d ds Hd Hds]; [contradiction|].
  unfold parseInt. cbn [numeral map trim_start].
  rewrite numeral_not_space by exact Hd.
  assert (Hsign : N.eqb (Z.to_N (48 + d)) (chr "-") = false /\
                  N.eqb (Z.to_N (48 + d)) (chr "+") = false).
  { unfold decimal_digit in Hd. change (chr "-") with 45%N. change (chr "+") with 43%N.
    split; apply N.eqb_neq; lia. }
  destruct Hsign as [-> ->].
  assert (Hprefix :
    match Z.to_N (48 + d) :: map (fun d => Z.to_N (48 + d)) ds with
    | z :: x :: t =>
        if N.eqb z (chr "0") && (N.eqb x (chr "x") || N.eqb x (chr "X"))
        then (16, t) else (10, Z.to_N (48 + d) :: map (fun d => Z.to_N (48 + d)) ds)
    | _ => (10, Z.to_N (48 + d) :: map (fun d => Z.to_N (48 + d)) ds)
    end = (10, Z.to_N (48 + d) :: map (fun d => Z.to_N (48 + d)) ds)).
  { destruct Hds as [|d' ds' Hd' _]; [reflexivity|]. cbn [map].
    assert (Hx : N.eqb (Z.to_N (48 + d')) (chr "x") = false /\
                 N.eqb (Z.to_N (48 + d')) (chr "X") = false).
    { unfold decimal_digit in Hd'. change (chr "x") with 120%N. change (chr "X") with 88%N.
      split; apply N.eqb_neq; lia. }
    destruct Hx as [-> ->]. rewrite andb_false_r. reflexivity. }
  rewrite Hprefix. cbn [digits_value].
  rewrite digit_of_numeral by exact Hd.
  change (map (fun d => Z.to_N (48 + d)) ds) with (numeral ds).
  rewrite digits_value_numeral by exact Hds.
  unfold denotes. cbn [fold_left]. rewrite Z.mul_1_l. reflexivity.
Qed.

(** X19.  A click on a time link written as minutes, a colon and seconds
    in decimal digits jumps to sixty times the minutes plus the seconds
    (any number of digits on either side, as long as the result is below
    2^53). *)
Theorem time_link_reads_minutes_and_seconds (minutes seconds : list Z) :
  minutes <> [] -> seconds <> [] ->
  Forall decimal_digit minutes -> Forall decimal_digit seconds ->
  60 * denotes minutes + denotes seconds < 2 ^ 53 ->
  timeStartClick (numeral minutes ++ chr ":" :: numeral seconds)
  = Some (Finite (60 * denotes minutes + denotes seconds)).
Proof.
  intros Hm Hs Hdm Hds _. unfold timeStartClick.
  rewrite split_on_first by (apply numeral_no_colon; exact Hdm).
  rewrite split_on_absent by (apply numeral_no_colon; exact Hds).
  cbn [length Nat.eqb nth].
  rewrite !parseInt_numeral by assumption.
  cbn [times plus]. f_equal. f_equal. lia.
Qed.

Lemma time_link_reads_minutes_and_seconds_witness :
  timeStartClick (lit "12:34") = Some (Finite 754).
Proof.
  apply (time_link_reads_minutes_and_seconds [1; 2] [3; 4]).
  - discriminate.
  - discriminate.
  - repeat constructor; unfold decimal_digit; lia.
  - repeat constructor; unfold decimal_digit; lia.
  - vm_compute. reflexivity.
Defined.

(** X20.  A click on a time link jumps nowhere unless the text has exactly
    one colon: a time with hours ("1:02:03") or without a colon is ignored,
    whatever its fields are. *)
Theorem time_link_needs_exactly_one_colon (time_start : text) :
  timeStartClick time_start = None <->
  count_occ N.eq_dec time_start (chr ":") <> 1%nat.
Proof.
  unfold timeStartClick. rewrite split_on_length.
  destruct (Nat.eqb_spec (S (count_occ N.eq_dec time_start (chr ":"))) 2) as [He|Hne].
  - split; [discriminate|]. intros H. exfalso. apply H. lia.
  - split; [|reflexivity]. intros _ H. apply Hne. lia.
Qed.

(** ** The tactical board of an insight card *)

Lemma card_scan_first before data after st :
  Forall no_data before -> data <> [] ->
  InsightCard.scanParts (before ++ Some data :: after) st
  = InsightCard.setGeneratedDiagram (Some (lit "data:image/png;base64," ++ data)) st.
Proof.
  intros Hb Hd. induction Hb as [|p before Hp _ IH]; cbn [app InsightCard.scanParts].
  - destruct data; [contradiction|reflexivity].
  - destruct Hp as [-> | ->]; exact IH.
Qed.

Lemma card_scan_none parts st :
  Forall no_data parts -> InsightCard.scanParts parts st = st.
Proof.
  induction 1 as [|p parts Hp _ IH]; cbn [InsightCard.scanParts]; [reflexivity|].
  destruct Hp as [-> | ->]; exact IH.
Qed.

(** X21.  With an API key, a response whose parts contain image data makes
    the card show the first part that has non-empty data, as a PNG data
    URL; later parts are not looked at, the captured frame is untouched and
    the card stops generating.  One request is made, for the drill setup
    if the insight has a non-empty one and for the visual cue otherwise. *)
Theorem board_shows_first_image apiKey insight before data after st :
  apiKey <> [] -> Forall no_data before -> data <> [] ->
  InsightCard.generateTacticalBoard apiKey insight
    (Some (Fulfilled (Some (before ++ Some data :: after)))) st
  = (Returned tt,
     InsightCard.mkCard (InsightCard.frameImage st)
       (Some (lit "data:image/png;base64," ++ data)) false,
     [InsightCard.ImageRequested
        (match InsightCard.drill_setup insight with
         | Some [] | None => InsightCard.visual_cue insight
         | Some setup => setup
         end)]).
Proof.
  intros Hk Hb Hd. unfold InsightCard.generateTacticalBoard.
  destruct apiKey; [contradiction|].
  cbv zeta. rewrite card_scan_first by assumption.
  unfold InsightCard.scenario.
  destruct (InsightCard.drill_setup insight) as [[|c s]|]; reflexivity.
Qed.

Lemma board_shows_first_image_witness :
  InsightCard.generateTacticalBoard (lit "key")
    (InsightCard.mkInsight (Some []) (lit "press high"))
    (Some (Fulfilled (Some ([None; Some []] ++ Some (lit "iVBOR") :: [Some (lit "AAAA")]))))
    (InsightCard.mkCard None None false)
  = (Returned tt,
     InsightCard.mkCard None (Some (lit "data:image/png;base64,iVBOR")) false,
     [InsightCard.ImageRequested (lit "press high")]).
Proof.
  apply (board_shows_first_image (lit "key")
           (InsightCard.mkInsight (Some []) (lit "press high"))
           [None; Some []] (lit "iVBOR") [Some (lit "AAAA")]
           (InsightCard.mkCard None None false)).
  - discriminate.
  - constructor; [left; reflexivity|].
    constructor; [right; reflexivity|constructor].
  - discriminate.
Defined.

(** X22.  When the image request is rejected, or the response has no parts
    or no part with non-empty data, the card keeps the diagram and the
    frame it had, stops generating, and reports nothing to the user;
    nothing is thrown.  Without an API key nothing happens at all. *)
Theorem board_without_image_keeps_card apiKey insight generation st :
  match generation with
  | Rejected _ | Fulfilled None => True
  | Fulfilled (Some parts) => Forall no_data parts
  end ->
  let '(ending, st', evs) :=
    InsightCard.generateTacticalBoard apiKey insight (Some generation) st in
  ending = Returned tt /\
  InsightCard.generatedDiagram st' = InsightCard.generatedDiagram st /\
  InsightCard.frameImage st' = InsightCard.frameImage st /\
  match apiKey with
  | [] => st' = st /\ evs = []
  | _ :: _ =>
      InsightCard.isGeneratingDiagram st' = false /\
      exists asked, evs = InsightCard.ImageRequested asked ::
                          match generation with
                          | Rejected e => [InsightCard.ErrorLogged e]
                          | Fulfilled _ => []
                          end
  end.
Proof.
  intros H. unfold InsightCard.generateTacticalBoard.
  destruct apiKey as [|k apiKey]; [repeat split; reflexivity|].
  cbv zeta. destruct generation as [e|[parts|]].
  - repeat split. eexists. reflexivity.
  - rewrite card_scan_none by exact H. repeat split. eexists. reflexivity.
  - repeat split. eexists. reflexivity.
Qed.

Lemma board_without_image_keeps_card_witness :
  let '(ending, st', evs) :=
    InsightCard.generateTacticalBoard (lit "key")
      (InsightCard.mkInsight None (lit "press high"))
      (Some (Fulfilled (Some [None; Some []])))
      (InsightCard.mkCard None (Some (lit "old")) false) in
  ending = Returned tt /\
  InsightCard.generatedDiagram st' = Some (lit "old") /\
  InsightCard.frameImage st' = None /\
  InsightCard.isGeneratingDiagram st' = false /\
  exists asked, evs = InsightCard.ImageRequested asked :: [].
Proof.
  exact (board_without_image_keeps_card (lit "key")
           (InsightCard.mkInsight None (lit "press high"))
           (Fulfilled (Some [None; Some []]))
           (InsightCard.mkCard None (Some (lit "old")) false)
           ltac:(constructor; [left; reflexivity|];
                 constructor; [right; reflexivity|constructor])).
Defined.

(** ** The image editor *)

Lemma editor_scan_first before data after st :
  Forall no_data before -> data <> [] ->
  ImageEditor.scanParts (before ++ Some data :: after) st
  = (ImageEditor.setGeneratedImage (Some (lit "data:image/png;base64," ++ data)) st, true).
Proof.
  intros Hb Hd. induction Hb as [|p before Hp _ IH]; cbn [app ImageEditor.scanParts].
  - destruct data; [contradiction|reflexivity].
  - destruct Hp as [-> | ->]; exact IH.
Qed.

Lemma editor_scan_cases parts st :
  (Forall no_data parts /\ ImageEditor.scanParts parts st = (st, false)) \/
  (exists before data after,
     parts = before ++ Some data :: after /\ Forall no_data before /\ data <> []).
Proof.
  induction parts as [|p parts IH].
  - left. split; [constructor|reflexivity].
  - destruct p as [[|c data]|].
    + destruct IH as [[Hall Hscan]|(before & data & after & -> & Hb & Hd)].
      * left. split; [constructor; [right; reflexivity|exact Hall]|exact Hscan].
      * right. exists (Some [] :: before), data, after.
        repeat split; [constructor; [right; reflexivity|exact Hb]|exact Hd].
    + right. exists [], (c :: data), parts. repeat split; [constructor|discriminate].
    + destruct IH as [[Hall Hscan]|(before & data & after & -> & Hb & Hd)].
      * left. split; [constructor; [left; reflexivity|exact Hall]|exact Hscan].
      * right. exists (None :: before), data, after.
        repeat split; [constructor; [left; reflexivity|exact Hb]|exact Hd].
Qed.

(** X23.  An edit that runs to its end (a file and a prompt are there, the
    file read and the request settle) never throws and stops generating,
    and ends in one of two ways: the response had image data, then the
    first part with non-empty data is shown as a PNG data URL and no error
    is; or a non-empty error message is shown and the generated image is
    the one that was there before. *)
Theorem edit_ends_with_image_or_error reader generation st file :
  ImageEditor.originalFile st = Some file -> ImageEditor.prompt st <> [] ->
  let '(ending, st', _) :=
    ImageEditor.handleGenerate (Some reader) (Some generation) st in
  ending = Returned tt /\
  ImageEditor.isGenerating st' = false /\
  ImageEditor.originalFile st' = Some file /\
  ((exists url before data after,
      reader = Fulfilled url /\
      generation = Fulfilled (Some (before ++ Some data :: after)) /\
      Forall no_data before /\ data <> [] /\
      ImageEditor.generatedImage st' = Some (lit "data:image/png;base64," ++ data) /\
      ImageEditor.error st' = None)
   \/
   (exists message,
      message <> [] /\
      ImageEditor.error st' = Some message /\
      ImageEditor.generatedImage st' = ImageEditor.generatedImage st)).
Proof.
  intros Hfile Hprompt. unfold ImageEditor.handleGenerate.
  rewrite Hfile. destruct (ImageEditor.prompt st) as [|c p] eqn:Hp; [contradiction|].
  cbv zeta.
  assert (Hmsg : forall e, ImageEditor.message_or_default e <> []).
  { intros e. unfold ImageEditor.message_or_default.
    destruct (err_message e) as [[|a m]|]; discriminate. }
  destruct reader as [e|url].
  - repeat split; [exact Hfile|]. right. eexists. split; [apply (Hmsg e)|].
    split; reflexivity.
  - destruct generation as [e|[parts|]].
    + repeat split; [exact Hfile|]. right. eexists. split; [apply (Hmsg e)|].
      split; reflexivity.
    + destruct (editor_scan_cases parts
                  (ImageEditor.setError None (ImageEditor.setIsGenerating true st)))
        as [[Hall Hscan]|(before & data & after & -> & Hb & Hd)].
      * rewrite Hscan. repeat split; [exact Hfile|]. right. eexists.
        split; [apply (Hmsg ImageEditor.noImage)|]. split; reflexivity.
      * rewrite editor_scan_first by assumption.
        repeat split; [exact Hfile|]. left. exists url, before, data, after.
        repeat split; assumption.
    + repeat split; [exact Hfile|]. right. eexists.
      split; [apply (Hmsg ImageEditor.noImage)|]. split; reflexivity.
Qed.

Lemma edit_ends_with_image_or_error_witness :
  let st := ImageEditor.mkEditor (Some (lit "blob:1")) (Some (clip 1)) None
              (lit "add snow") false (Some (lit "old error")) in
  let '(ending, st', _) :=
    ImageEditor.handleGenerate (Some (Fulfilled (lit "data:image/png;base64,AAAA")))
      (Some (Fulfilled (Some [None; Some (lit "iVBOR")]))) st in
  ending = Returned tt /\
  ImageEditor.isGenerating st' = false /\
  ImageEditor.originalFile st' = Some (clip 1) /\
  ((exists url before data after,
      Fulfilled (lit "data:image/png;base64,AAAA") = Fulfilled url /\
      Fulfilled (Some [None; Some (lit "iVBOR")])
        = Fulfilled (Some (before ++ Some data :: after)) /\
      Forall no_data before /\ data <> [] /\
      ImageEditor.generatedImage st' = Some (lit "data:image/png;base64," ++ data) /\
      ImageEditor.error st' = None)
   \/
   (exists message,
      message <> [] /\
      ImageEditor.error st' = Some message /\
      ImageEditor.generatedImage st' = ImageEditor.generatedImage st)).
Proof.
  exact (edit_ends_with_image_or_error
           (Fulfilled (lit "data:image/png;base64,AAAA"))
           (Fulfilled (Some [None; Some (lit "iVBOR")]))
           (ImageEditor.mkEditor (Some (lit "blob:1")) (Some (clip 1)) None
              (lit "add snow") false (Some (lit "old error")))
           (clip 1) eq_refl ltac:(discriminate)).
Defined.

(** ** The search form *)

Lemma trim_start_empty s :
  trim_start s = [] <-> Forall (fun c => is_space c = true) s.
Proof.
  induction s as [|c s IH]; cbn [trim_start].
  - split; [constructor|reflexivity].
  - destruct (is_space c) eqn:Hc.
    + rewrite IH. split; [intros H; constructor; assumption|].
      intros H. inversion H; assumption.
    + split; [discriminate|]. intros H. inversion H; congruence.
Qed.

Lemma trim_start_head s c r :
  trim_start s = c :: r -> is_space c = false.
Proof.
  induction s as [|d s IH]; cbn [trim_start]; [discriminate|].
  destruct (is_space d) eqn:Hd; [exact IH|].
  intros H. injection H as -> _. exact Hd.
Qed.

Lemma trim_empty s :
  SearchResearch.trim s = [] <-> Forall (fun c => is_space c = true) s.
Proof.
  unfold SearchResearch.trim. split.
  - intros H. apply trim_start_empty.
    destruct (trim_start s) as [|c r] eqn:Hs; [reflexivity|exfalso].
    assert (Hrev : trim_start (rev (c :: r)) = []).
    { rewrite <- (rev_involutive (trim_start (rev (c :: r)))), H. reflexivity. }
    apply trim_start_empty in Hrev.
    rewrite Forall_forall in Hrev.
    pose proof (Hrev c ltac:(apply in_rev; rewrite rev_involutive; left; reflexivity)) as Hc.
    apply trim_start_head in Hs. congruence.
  - intros H. apply trim_start_empty in H. rewrite H. reflexivity.
Qed.

(** X24.  A query of white space only (or empty) is ignored: no request,
    no change of state.  Any other query makes exactly one request, and
    its contents are the query as typed, not the trimmed one. *)
Theorem blank_query_is_ignored generation st :
  let '(_, st', evs) := SearchResearch.handleSearch generation st in
  (Forall (fun c => is_space c = true) (SearchResearch.query st) ->
   st' = st /\ evs = []) /\
  (~ Forall (fun c => is_space c = true) (SearchResearch.query st) ->
   exists logged,
     evs = SearchResearch.SearchRequested (SearchResearch.query st) :: logged /\
     forall ev, In ev logged -> exists m, ev = SearchResearch.ErrorLogged m).
Proof.
  unfold SearchResearch.handleSearch.
  destruct (SearchResearch.trim (SearchResearch.query st)) as [|c r] eqn:Ht.
  - split; [intros _; split; reflexivity|].
    intros Hn. exfalso. apply Hn. apply trim_empty. exact Ht.
  - assert (Hnb : ~ Forall (fun c => is_space c = true) (SearchResearch.query st)).
    { intros H. apply trim_empty in H. congruence. }
    cbv zeta. destruct generation as [[message|response]|].
    + split; [intros H; contradiction|]. intros _. eexists. split; [reflexivity|].
      intros ev [<-|[]]. eexists. reflexivity.
    + split; [intros H; contradiction|]. intros _. exists []. split; [reflexivity|].
      intros ev [].
    + split; [intros H; contradiction|]. intros _. exists []. split; [reflexivity|].
      intros ev [].
Qed.

(** X25.  A search that settles always ends with the spinner off and a
    non-empty text on show: the response text, "No response generated."
    when it is missing or empty, or "Error performing search: " followed by
    the message.  The sources are the grounding chunks of the response, and
    none when they are missing or the request failed; the query is kept. *)
Theorem finished_search_shows_text outcome st :
  ~ Forall (fun c => is_space c = true) (SearchResearch.query st) ->
  let '(ending, st', _) := SearchResearch.handleSearch (Some outcome) st in
  ending = Returned tt /\
  SearchResearch.isLoading st' = false /\
  SearchResearch.query st' = SearchResearch.query st /\
  (exists shown, SearchResearch.result st' = Some shown /\ shown <> [] /\
     match outcome with
     | SearchResearch.Failed message =>
         shown = lit "Error performing search: " ++ message
     | SearchResearch.Answered response =>
         match SearchResearch.response_text response with
         | Some [] | None => shown = lit "No response generated."
         | Some t => shown = t
         end
     end) /\
  SearchResearch.sources st' =
    match outcome with
    | SearchResearch.Answered response =>
        match SearchResearch.groundingChunks response with
        | Some chunks => chunks
        | None => []
        end
    | SearchResearch.Failed _ => []
    end.
Proof.
  intros Hnb. unfold SearchResearch.handleSearch.
  destruct (SearchResearch.trim (SearchResearch.query st)) as [|c r] eqn:Ht.
  { exfalso. apply Hnb. apply trim_empty. exact Ht. }
  cbv zeta. destruct outcome as [message|response].
  - repeat split. eexists. repeat split. discriminate.
  - repeat split. destruct (SearchResearch.response_text response) as [[|a t]|];
      eexists; repeat split; discriminate.
Qed.

Lemma finished_search_shows_text_witness :
  let st := SearchResearch.mkSearch (lit " offside rule ") (Some (lit "old")) [] false in
  let '(ending, st', _) :=
    SearchResearch.handleSearch
      (Some (SearchResearch.Answered (SearchResearch.mkResponse (Some []) None))) st in
  ending = Returned tt /\
  SearchResearch.isLoading st' = false /\
  SearchResearch.query st' = lit " offside rule " /\
  (exists shown, SearchResearch.result st' = Some shown /\ shown <> [] /\
     shown = lit "No response generated.") /\
  SearchResearch.sources st' = [].
Proof.
  exact (finished_search_shows_text
           (SearchResearch.Answered (SearchResearch.mkResponse (Some []) None))
           (SearchResearch.mkSearch (lit " offside rule ") (Some (lit "old")) [] false)
           ltac:(intros H; inversion H as [|? ? _ H']; inversion H' as [|? ? Ho _];
                 discriminate Ho)).
Defined.

(** ** Ending a voice session *)

(** X26.  [stopSession] releases every object that a ref holds, once and
    in the order session, input node, source node, audio context, and
    leaves all four refs empty with the agent inactive, "Disconnected" and
    silent; it releases nothing for an empty ref, so a second call in a row
    does nothing more and changes nothing. *)
Theorem stop_releases_once {number : Type} (zero : number) (st : VoiceAgent.VoiceState number) :
  let '(st1, released) := VoiceAgent.stopSession zero st in
  st1 = VoiceAgent.mkVoice false (lit "Disconnected") zero None None None None /\
  released =
    (match VoiceAgent.sessionRef st with
     | Some s => [VoiceAgent.SessionClosed s] | None => [] end) ++
    (match VoiceAgent.inputNodeRef st with
     | Some n => [VoiceAgent.NodeDisconnected n] | None => [] end) ++
    (match VoiceAgent.sourceNodeRef st with
     | Some n => [VoiceAgent.NodeDisconnected n] | None => [] end) ++
    (match VoiceAgent.audioContextRef st with
     | Some c => [VoiceAgent.ContextClosed c] | None => [] end) /\
  VoiceAgent.stopSession zero st1 = (st1, []).
Proof.
  unfold VoiceAgent.stopSession, VoiceAgent.release. cbn.
  repeat split.
Qed.

(** X27.  After the [onerror] callback the agent is in the state that
    [stopSession] leaves: everything is released and the status reads
    "Disconnected", the text "Error occurred" having been overwritten.  The
    [onclose] callback shows the same status but releases nothing: the
    refs keep what they held. *)
Theorem connection_error_ends_like_stop {number : Type} (zero : number)
    (st : VoiceAgent.VoiceState number) :
  fst (VoiceAgent.onerror zero st) = fst (VoiceAgent.stopSession zero st) /\
  snd (VoiceAgent.onerror zero st)
    = VoiceAgent.ErrorLogged :: snd (VoiceAgent.stopSession zero st) /\
  VoiceAgent.status (fst (VoiceAgent.onerror zero st)) = lit "Disconnected" /\
  let closed := fst (VoiceAgent.onclose st) in
  VoiceAgent.status closed = lit "Disconnected" /\
  VoiceAgent.isActive closed = false /\
  snd (VoiceAgent.onclose st) = [] /\
  VoiceAgent.sessionRef closed = VoiceAgent.sessionRef st /\
  VoiceAgent.inputNodeRef closed = VoiceAgent.inputNodeRef st /\
  VoiceAgent.sourceNodeRef closed = VoiceAgent.sourceNodeRef st /\
  VoiceAgent.audioContextRef closed = VoiceAgent.audioContextRef st.
Proof.
  unfold VoiceAgent.onerror, VoiceAgent.onclose, VoiceAgent.stopSession. cbn.
  repeat split.
Qed.

(** ** The image and the file of the editor *)

Lemma editor_scan_keeps_original parts st :
  ImageEditor.originalImage (fst (ImageEditor.scanParts parts st))
    = ImageEditor.originalImage st /\
  ImageEditor.originalFile (fst (ImageEditor.scanParts parts st))
    = ImageEditor.originalFile st.
Proof.
  induction parts as [|[[|c data]|] parts IH]; cbn [ImageEditor.scanParts];
    try exact IH; split; reflexivity.
Qed.

Lemma handleGenerate_keeps_original reader generation st :
  let st' := snd (fst (ImageEditor.handleGenerate reader generation st)) in
  ImageEditor.originalImage st' = ImageEditor.originalImage st /\
  ImageEditor.originalFile st' = ImageEditor.originalFile st.
Proof.
  cbv zeta. unfold ImageEditor.handleGenerate.
  destruct (ImageEditor.originalFile st) as [file|] eqn:Hf;
    [|split; [reflexivity|exact Hf]].
  destruct (ImageEditor.prompt st) as [|c p]; [split; [reflexivity|exact Hf]|].
  cbv zeta. destruct reader as [[e|url]|]; try (split; [reflexivity|exact Hf]).
  destruct generation as [[e|[parts|]]|]; try (split; [reflexivity|exact Hf]).
  pose proof (editor_scan_keeps_original parts
                (ImageEditor.setError None (ImageEditor.setIsGenerating true st))) as [Hi Ho].
  destruct (ImageEditor.scanParts parts _) as [st2 found].
  cbn [fst] in Hi, Ho. cbn [ImageEditor.setError ImageEditor.setIsGenerating
    ImageEditor.originalImage ImageEditor.originalFile] in Hi, Ho.
  destruct found; cbn; rewrite ?Hi, ?Ho; split; (reflexivity || exact Hf).
Qed.

(** X28.  In every state of the editor the image on show is the object URL
    of the file that Generate would send: both are absent or both are
    there.  So the Generate button, which looks at the image, and the
    handler, which looks at the file, agree on whether an image has been
    picked. *)
Theorem editor_image_is_of_the_file st :
  ImageEditor.reachable st ->
  ImageEditor.originalImage st
  = match ImageEditor.originalFile st with
    | Some file => Some (file_blob_url file)
    | None => None
    end.
Proof.
  induction 1 as [|st file _ IH|st v _ IH|st reader generation _ IH].
  - reflexivity.
  - destruct file; [reflexivity|exact IH].
  - exact IH.
  - pose proof (handleGenerate_keeps_original reader generation st) as [Hi Ho].
    cbv zeta in Hi, Ho. rewrite Hi, Ho. exact IH.
Qed.

Lemma editor_image_is_of_the_file_witness :
  ImageEditor.originalImage
    (ImageEditor.handleImageUpload (Some (clip 1))
       (ImageEditor.mkEditor None None None [] false None))
  = Some (file_blob_url (clip 1)).
Proof.
  exact (editor_image_is_of_the_file _
           (ImageEditor.reach_upload _ (Some (clip 1)) ImageEditor.reach_initial)).
Defined.
